(** * talla-ui core: ObjectReader, ManagedEvent and View.applyViewPreset

    A shallow embedding of three pieces of the talla-ui core package
    and the properties their documentation promises:

    - [ObjectReader]  (schema validation: [read], [readField],
      [readJSONString], with the helpers [_validate], [_validateObject],
      [_validateArray] and [_makeError]);
    - [ManagedEvent]  (the frozen event object and [findDelegate]);
    - [View]          ([applyViewPreset] and the [emit] wrapper it installs).

    JavaScript values are modelled the way the code sees them: primitives
    by value (numbers are IEEE doubles, Rocq's primitive floats), objects,
    arrays and dates by reference into a heap, so that identity, aliasing
    and cyclic inputs are all expressible.  The heap also says what an
    object has without listing it (what it inherits from
    [Object.prototype], for one), since [object[p]] finds that too.
    Exceptions are explicit
    ([Throw]); the only modelling device is the recursion measure of
    [_validate] and of the [emit] wrapper ([OutOfFuel]), and the theorems
    on them show how much of it is always enough. *)

From Stdlib Require Import ZArith Floats Ascii String List Bool Lia.
From stdpp Require Import base option strings gmap list.

Set Warnings "-register-all".
Open Scope Z_scope.

(** ** Outcomes: a returned value, a thrown exception, or no answer yet *)

Module JS.

(** The [Error] objects the code creates.  [Error(String(x))] keeps the
    message, [TypeError()] and [RangeError()] are created without one,
    [SyntaxError] is what [JSON.parse] throws, and [InvalidArgument] is
    what [invalidArgErr] of [errors.js] builds. *)
Inductive Error :=
| GenericError (message : string)
| TypeError
| RangeError
| SyntaxError (message : string)
| InvalidArgument (what : string).

Inductive Outcome (A : Type) :=
| Ret (a : A)
| Throw (e : Error)
| OutOfFuel.
Arguments Ret {A} a.
Arguments Throw {A} e.
Arguments OutOfFuel {A}.

Definition bind {A B} (m : Outcome A) (k : A -> Outcome B) : Outcome B :=
  match m with
  | Ret a => k a
  | Throw e => Throw e
  | OutOfFuel => OutOfFuel
  end.

Definition returns {A} (m : Outcome A) : Prop := exists a, m = Ret a.

(** An outcome that is no return, carried over to another type *)
Definition carried {A B} (m : Outcome A) (m' : Outcome B) : Prop :=
  match m, m' with
  | Throw e, Throw e' => e = e'
  | OutOfFuel, OutOfFuel => True
  | _, _ => False
  end.

(** ** Values *)

Definition addr := nat.
Bind Scope nat_scope with addr.

(** A JavaScript value as the validator can meet it.  Objects, arrays,
    [Date]s and functions are references; two of them are the same
    value only when they are the same object. *)
Inductive Value :=
| VUndefined
| VNull
| VBoolean (b : bool)
| VNumber (n : float)
| VString (s : string)
| VObject (a : addr)
| VArray (a : addr)
| VDate (a : addr)
| VFunction (a : addr).

(** The heap the references point into.  [obj_props]: the enumerable
    properties of an object, as [for (k in o)] lists them, with the
    values [o[k]] gives.  [hidden]: what [o[p]] gives for any other
    name, that is a property that is not enumerable or that comes
    from the prototype chain; for an ordinary object these are the
    members of [Object.prototype] ([toString], [constructor],
    [__proto__], ...); [undefined] when there is none.  [arr_items]:
    the items of an array; [date_time]: the time value of a [Date].
    Nothing forbids a cycle. *)
Record Heap := {
  obj_props : addr -> list (string * Value);
  hidden : Value -> string -> Value;
  arr_items : addr -> list Value;
  date_time : addr -> float
}.

(** The names of the members of [Object.prototype], which every
    ordinary object (one made by an object literal, by [{}] or by
    [JSON.parse]) inherits. *)
Definition Object_prototype_names : list string :=
  ["constructor"; "__defineGetter__"; "__defineSetter__"; "hasOwnProperty";
   "__lookupGetter__"; "__lookupSetter__"; "isPrototypeOf";
   "propertyIsEnumerable"; "toString"; "valueOf"; "__proto__";
   "toLocaleString"].

(** [o[p] = x] for an ordinary object [o] (one made by [{}]) that has
    the properties [props]: a new or changed property, but for the
    name [__proto__], where the assignment goes to the setter
    [Object.prototype] has for it and adds no property.  (What that
    setter does to the prototype of [o], and through it to what [o]
    inherits, is not represented: the objects the reader makes are
    modelled by their own properties.) *)
Definition own_set {A} (p : string) (x : A) (props : gmap string A)
  : gmap string A :=
  if String.eqb p "__proto__" then props else <[p := x]> props.

(** A [StringConvertible]: a string, or an object with [toString]
    (a [LazyString]).  Only the empty string is falsy. *)
Inductive StringConvertible :=
| SCString (s : string)
| SCObject (toString : string).

Definition truthy_sc (s : StringConvertible) : bool :=
  match s with
  | SCString s => negb (String.eqb s "")
  | SCObject _ => true
  end.

(** [String(x)] *)
Definition String_of (s : StringConvertible) : string :=
  match s with
  | SCString s => s
  | SCObject s => s
  end.

(** [a || b] on optional string-convertibles *)
Definition sc_or (a b : option StringConvertible) : option StringConvertible :=
  match a with
  | Some s => if truthy_sc s then a else b
  | None => b
  end.

(** ** Numbers *)

Definition isNaN (n : float) : bool := PrimFloat.is_nan n.

(** [!n] for a number: zero (of either sign) and [NaN] are falsy. *)
Definition falsy_number (n : float) : bool :=
  PrimFloat.is_zero n || PrimFloat.is_nan n.

Definition number_of_nat (n : nat) : float :=
  PrimFloat.of_uint63 (Uint63.of_Z (Z.of_nat n)).

(** [Number.isSafeInteger]: a finite integer of magnitude below 2^53. *)
Definition isSafeInteger (n : float) : bool :=
  match Prim2SF n with
  | SpecFloat.S754_zero _ => true
  | SpecFloat.S754_finite _ m e =>
      let mz := Z.pos m in
      if 0 <=? e then mz * 2 ^ e <=? 9007199254740991
      else (mz mod 2 ^ (- e) =? 0) && (mz / 2 ^ (- e) <=? 9007199254740991)
  | _ => false
  end.

(** [Array.prototype.includes] compares with SameValueZero. *)
Definition sameValueZero (x y : Value) : bool :=
  match x, y with
  | VUndefined, VUndefined => true
  | VNull, VNull => true
  | VBoolean a, VBoolean b => Bool.eqb a b
  | VNumber a, VNumber b =>
      (PrimFloat.is_nan a && PrimFloat.is_nan b) || PrimFloat.eqb a b
  | VString a, VString b => String.eqb a b
  | VObject a, VObject b => Nat.eqb a b
  | VArray a, VArray b => Nat.eqb a b
  | VDate a, VDate b => Nat.eqb a b
  | VFunction a, VFunction b => Nat.eqb a b
  | _, _ => false
  end.

Definition includes (l : list Value) (v : Value) : bool :=
  existsb (fun x => sameValueZero x v) l.

(** [!!v] *)
Definition truthy (v : Value) : bool :=
  match v with
  | VUndefined | VNull => false
  | VBoolean b => b
  | VNumber n => negb (falsy_number n)
  | VString s => negb (String.eqb s "")
  | VObject _ | VArray _ | VDate _ | VFunction _ => true
  end.

(** ** Strings *)

(** [s.slice(n)] *)
Fixpoint slice_from (n : nat) (s : string) : string :=
  match n, s with
  | O, _ => s
  | S n, String _ s => slice_from n s
  | S _, EmptyString => EmptyString
  end.

(** [s.slice(0, n)] *)
Fixpoint slice_to (n : nat) (s : string) : string :=
  match n, s with
  | S n, String c s => String c (slice_to n s)
  | _, _ => EmptyString
  end.

(** [s.indexOf(c)] for a one-character [c]: -1 when there is none *)
Fixpoint indexOf (c : Ascii.ascii) (s : string) : Z :=
  match s with
  | EmptyString => -1
  | String c' s =>
      if Ascii.eqb c' c then 0
      else let i := indexOf c s in if i <? 0 then -1 else i + 1
  end.

(** The host functions the code calls and this repository does not
    define: [parseFloat], [new Date(string)], [new Date(number)] (each
    giving the time value of the new date, [NaN] when invalid) and
    [JSON.parse], which either throws or allocates the parsed value. *)
Class Host := {
  parseFloat : string -> float;
  Date_parse : string -> float;
  Date_of_number : float -> float;
  JSON_parse : string -> Error + Heap * Value
}.

End JS.
Export JS.

#[global] Instance Outcome_bind : MBind JS.Outcome :=
  fun A B k m => JS.bind m k.
#[global] Instance Outcome_ret : MRet JS.Outcome := @JS.Ret.
#[global] Instance Outcome_fmap : FMap JS.Outcome :=
  fun A B f m => JS.bind m (fun a => JS.Ret (f a)).

(** * ObjectReader *)

Module ObjectReader.

(** Max recursion level to stop runaway validations *)
Definition MAX_RECURSE : Z := 100.

(** Default error that gets used if none else available *)
Definition DEFAULT_ERROR : string := "ObjectReader error".

(** ** Schema rules, as [ObjectReader.SchemaRule] declares them *)

(** [true | { err?: StringConvertible }] *)
Inductive Flag :=
| FlagTrue
| FlagErr (err : option StringConvertible).

Definition flag_err (f : Flag) : option StringConvertible :=
  match f with
  | FlagTrue => None
  | FlagErr e => e
  end.

(** [{ length: number; err? }], [{ value: number; err? }] and
    [{ date: Date; err? }]; a date bound is kept as its time value,
    which is what [<] and [>] compare. *)
Record Bound := { limit : float; bound_err : option StringConvertible }.

Record BooleanRule := {
  boolean_true : bool;
  boolean_err : option StringConvertible
}.

Record StringRule := {
  string_err : option StringConvertible;
  string_match : option (string -> bool);
    (* a RegExp, by what its [test] answers; a RegExp with the g or y
       flag, whose answer depends on the [lastIndex] that earlier
       calls left in it, is not covered *)
  string_required : option Flag;
  string_min : option Bound;
  string_max : option Bound
}.

Record NumberRule := {
  number_err : option StringConvertible;
  number_integer : option Flag;
  number_positive : option Flag;
  number_nonzero : option Flag;
  number_min : option Bound;
  number_max : option Bound
}.

Record DateRule := {
  date_err : option StringConvertible;
  date_min : option Bound;
  date_max : option Bound
}.

Record ValueRule := {
  value_match : option (list Value);
  value_err : option StringConvertible
}.

(** The last alternative of [SchemaRule]: every member is optional. *)
Record SimpleRule := {
  booleanRule : option BooleanRule;
  stringRule : option StringRule;
  numberRule : option NumberRule;
  dateRule : option DateRule;
  valueRule : option ValueRule
}.

Definition no_constraint : SimpleRule :=
  {| booleanRule := None; stringRule := None; numberRule := None;
     dateRule := None; valueRule := None |}.

(** A field name, or an index for array items *)
Inductive Field :=
| FName (s : string)
| FIndex (i : nat).

(** What validation hands back: an input value passed through (objects
    by reference), a number or a [Date] made by coercion, or an object
    or array built by the reader. *)
Inductive Parsed :=
| PValue (v : Value)
| PNewDate (time : float)
| PObject (props : gmap string Parsed)
| PArray (items : list Parsed).

Definition undefined : Parsed := PValue VUndefined.

(** [ObjectReader.ValidationResult]; an absent member is [undefined]. *)
Record ValidationResult := {
  vr_value : Parsed;
  vr_error : option StringConvertible
}.

(** [ObjectReader.FieldValidator]; a function may look into the object
    it is given. *)
Definition FieldValidator := Heap -> Value -> Field -> ValidationResult.

(** The [validate] member is typed as a function, and checked to be. *)
Inductive ValidateProp :=
| NotAFunction
| Fn (f : FieldValidator).

Inductive SchemaRule :=
| Rule (optional : bool)
       (validate : option ValidateProp)
       (object : option ObjectRule)
       (array : option ArrayRule)
       (record : option RecordRule)
       (simple : SimpleRule)
with ObjectRule :=
| ObjRule (schema : option (list (string * SchemaRule)))
          (err : option StringConvertible)
with ArrayRule :=
| ArrRule (items : option SchemaRule)
          (err : option StringConvertible)
          (min max : option Bound)
with RecordRule :=
| RecRule (values : option SchemaRule)
          (err : option StringConvertible).

(** A [Schema]: the rules by field name, in enumeration order. *)
Definition Schema := list (string * SchemaRule).

(** The rule [{}] *)
Definition empty_rule : SchemaRule :=
  Rule false None None None None no_constraint.

Definition optional (r : SchemaRule) : bool :=
  let 'Rule o _ _ _ _ _ := r in o.
Definition validate (r : SchemaRule) : option ValidateProp :=
  let 'Rule _ v _ _ _ _ := r in v.
Definition object (r : SchemaRule) : option ObjectRule :=
  let 'Rule _ _ o _ _ _ := r in o.
Definition array (r : SchemaRule) : option ArrayRule :=
  let 'Rule _ _ _ a _ _ := r in a.
Definition record (r : SchemaRule) : option RecordRule :=
  let 'Rule _ _ _ _ rc _ := r in rc.
Definition simple (r : SchemaRule) : SimpleRule :=
  let 'Rule _ _ _ _ _ s := r in s.

(** The rule the schema itself has under the key [p] *)
Fixpoint schema_own (rules : Schema) (p : string) : option SchemaRule :=
  match rules with
  | [] => None
  | (k, r) :: rules => if String.eqb k p then Some r else schema_own rules p
  end.

(** [rules[p]].  A schema is an ordinary object: under a name it has no
    rule for, [rules[p]] is what [Object.prototype] has under that
    name, if anything (a function, or for [__proto__] the prototype
    itself).  Such a value is truthy and has none of the members
    [_validate] looks for ([optional], [validate], [object], [array],
    [record], [value], [boolean], [string], [number], [date]), so it
    acts as the rule [{}]. *)
Definition schema_get (rules : Schema) (p : string) : option SchemaRule :=
  match schema_own rules p with
  | Some r => Some r
  | None =>
      if bool_decide (p ∈ Object_prototype_names) then Some empty_rule
      else None
  end.

(** [for (let p in rules)] *)
Definition schema_keys (rules : Schema) : list string := map fst rules.

(** ** Objects as the reader looks at them *)

(** Checks if the provided value is an object (not an array or null) *)
Definition isObject (v : Value) : bool :=
  match v with
  | VObject _ | VDate _ => true
  | _ => false
  end.

(** The enumerable properties, which [for (k in value)] goes through:
    those of an object; a [Date] has none. *)
Definition props_of (h : Heap) (v : Value) : list (string * Value) :=
  match v with
  | VObject a => obj_props h a
  | _ => []
  end.

Fixpoint props_find (props : list (string * Value)) (p : string)
  : option Value :=
  match props with
  | [] => None
  | (k, v) :: props => if String.eqb k p then Some v else props_find props p
  end.

(** [object[p]]: an enumerable property, or else what the object has or
    inherits under the name without listing it. *)
Definition get (h : Heap) (object : Value) (p : string) : Value :=
  match props_find (props_of h object) p with
  | Some v => v
  | None => hidden h object p
  end.

Definition is_undefined (v : Value) : bool :=
  match v with VUndefined => true | _ => false end.

(** ** Helpers *)

Definition ok (v : Parsed) : ValidationResult :=
  {| vr_value := v; vr_error := None |}.

Definition failure (e : StringConvertible) : ValidationResult :=
  {| vr_value := undefined; vr_error := Some e |}.

(** [if (v.error)] *)
Definition has_error (v : ValidationResult) : bool :=
  match vr_error v with
  | Some e => truthy_sc e
  | None => false
  end.

(** Helper function to make an error return object using a (partial)
    rule: [rule.err || fallback?.err || DEFAULT_ERROR], given the [err]
    members of the rule and of the fallback. *)
Definition _makeError (rule_err fallback_err : option StringConvertible)
  : ValidationResult :=
  failure (match sc_or rule_err fallback_err with
           | Some e => if truthy_sc e then e else SCString DEFAULT_ERROR
           | None => SCString DEFAULT_ERROR
           end).

(** [field || "_"] *)
Definition field_or_underscore (f : Field) : Field :=
  match f with
  | FName s => if String.eqb s "" then FName "_" else f
  | FIndex O => FName "_"
  | FIndex _ => f
  end.

(** ** The simple rules (boolean, string, number, date, value)

    The second half of [_validate].  The local variable [value] is
    reassigned by the number and date coercions, so it is threaded
    through the checks; a check either returns an error result or
    hands the (new) value on. *)

Inductive Local :=
| LValue (v : Value)
| LNewDate (time : float).

Definition parsed_of (l : Local) : Parsed :=
  match l with
  | LValue v => PValue v
  | LNewDate t => PNewDate t
  end.

Definition Checked : Type := ValidationResult + Local.

(** [if (flag && c) return _makeError(flag, fallback)] *)
Definition when_flag (flag : option Flag) (c : bool)
    (fallback : option StringConvertible) (k : Checked) : Checked :=
  match flag with
  | Some f => if c then inl (_makeError (flag_err f) fallback) else k
  | None => k
  end.

(** [if (bound != null && test(bound)) return _makeError(bound, fallback)] *)
Definition when_bound (bound : option Bound) (test : float -> bool)
    (fallback : option StringConvertible) (k : Checked) : Checked :=
  match bound with
  | Some b =>
      if test (limit b) then inl (_makeError (bound_err b) fallback) else k
  | None => k
  end.

Definition check_boolean (r : BooleanRule) (value : Local) : Checked :=
  match value with
  | LValue (VBoolean b) =>
      if boolean_true r && negb b
      then inl (_makeError (boolean_err r) None)
      else inr value
  | _ => inl (_makeError (boolean_err r) None)
  end.

Definition check_string (r : StringRule) (value : Local) : Checked :=
  match value with
  | LValue (VString s) =>
      if match string_match r with
         | Some test => negb (test s)
         | None => false
         end
      then inl (_makeError (string_err r) None)
      else
        let len := number_of_nat (String.length s) in
        when_flag (string_required r) (String.eqb s "") (string_err r)
        (when_bound (string_min r) (fun l => len <? l)%float (string_err r)
        (when_bound (string_max r) (fun l => l <? len)%float (string_err r)
        (inr value)))
  | _ => inl (_makeError (string_err r) None)
  end.

Section WithHost.
Context `{Host}.

Definition check_number (r : NumberRule) (value : Local) : Checked :=
  let value :=
    match value with
    | LValue (VString s) => LValue (VNumber (parseFloat s))
    | _ => value
    end in
  match value with
  | LValue (VNumber n) =>
      if isNaN n then inl (_makeError (number_err r) None)
      else
        when_flag (number_integer r) (negb (isSafeInteger n)) (number_err r)
        (when_flag (number_nonzero r) (falsy_number n) (number_err r)
        (when_flag (number_positive r) (n <? 0)%float (number_err r)
        (when_bound (number_min r) (fun l => n <? l)%float (number_err r)
        (when_bound (number_max r) (fun l => l <? n)%float (number_err r)
        (inr value)))))
  | _ => inl (_makeError (number_err r) None)
  end.

(** [value instanceof Date], with [+value] *)
Definition time_of (h : Heap) (value : Local) : option float :=
  match value with
  | LValue (VDate a) => Some (date_time h a)
  | LNewDate t => Some t
  | _ => None
  end.

Definition check_date (h : Heap) (r : DateRule) (value : Local) : Checked :=
  let value :=
    match value with
    | LValue (VString s) => LNewDate (Date_parse s)
    | LValue (VNumber n) => LNewDate (Date_of_number n)
    | _ => value
    end in
  match time_of h value with
  | Some t =>
      if isNaN t then inl (_makeError (date_err r) None)
      else
        when_bound (date_min r) (fun l => t <? l)%float (date_err r)
        (when_bound (date_max r) (fun l => l <? t)%float (date_err r)
        (inr value))
  | None => inl (_makeError (date_err r) None)
  end.

(** [(valueRule.match || []).includes(value)]; a date made by the
    coercion above is a new object, equal to no other. *)
Definition check_value (r : ValueRule) (value : Local) : Checked :=
  if match value with
     | LValue v => includes (default [] (value_match r)) v
     | LNewDate _ => false
     end
  then inr value
  else inl (_makeError (value_err r) None).

(** [if (rule) { ...checks... }] *)
Definition step {R} (rule : option R) (check : R -> Local -> Checked)
    (c : Checked) : Checked :=
  match c, rule with
  | inr value, Some r => check r value
  | _, _ => c
  end.

Definition validate_simple (h : Heap) (value : Value) (rule : SimpleRule)
  : ValidationResult :=
  let c := inr (LValue value) in
  let c := step (booleanRule rule) check_boolean c in
  let c := step (stringRule rule) check_string c in
  let c := step (numberRule rule) check_number c in
  let c := step (dateRule rule) (check_date h) c in
  (* check specified values *)
  let c := step (valueRule rule) check_value c in
  (* successfully return the (new) value *)
  match c with
  | inl e => e
  | inr value => ok (parsed_of value)
  end.

(** ** The three loops, over the recursive call [rec] *)

(** What [_validateObject] returns: a [ValidationResult] with an
    [errors] member. *)
Record ObjectResult := {
  result : option (gmap string Parsed);
  error : option StringConvertible;
  errors : gmap string Error
}.

Definition as_result (r : ObjectResult) : ValidationResult :=
  {| vr_value := match result r with
                 | Some o => PObject o
                 | None => undefined
                 end;
     vr_error := error r |}.

Section Loops.
Variable rec : Value -> Field -> option SchemaRule -> Z ->
               Outcome ValidationResult.
Variable h : Heap.

(** One turn of the loop of [_validateObject]; [result] and [errors]
    are ordinary objects ([{}]), so [result[p] = ...] and
    [errors[p] = ...] are [own_set]. *)
Definition object_step (p : string) (v : ValidationResult)
    (st : ObjectResult) : ObjectResult :=
  match vr_error v with
  | Some e =>
      if truthy_sc e then
        {| result := None;
           error := match error st with
                    | Some e0 => if truthy_sc e0 then Some e0 else Some e
                    | None => Some e
                    end;
           errors := own_set p (GenericError (String_of e)) (errors st) |}
      else
        {| result := own_set p (vr_value v) <$> result st;
           error := error st;
           errors := errors st |}
  | None =>
      {| result := own_set p (vr_value v) <$> result st;
         error := error st;
         errors := errors st |}
  end.

Fixpoint validateObject_loop (object : Value) (rules : Schema)
    (maxRecurse : Z) (ps : list string) (st : ObjectResult)
  : Outcome ObjectResult :=
  match ps with
  | [] => Ret st
  | p :: ps =>
      v ← rec (get h object p) (FName p) (schema_get rules p) maxRecurse;
      validateObject_loop object rules maxRecurse ps (object_step p v st)
  end.

(** Helper function to validate an object with given schema,
    returns both a single and multiple errors *)
Definition validateObject_with (object : Value) (rules : Schema)
    (maxRecurse : Z) : Outcome ObjectResult :=
  validateObject_loop object rules maxRecurse (schema_keys rules)
    {| result := Some ∅; error := None; errors := ∅ |}.

(** Helper function to validate an array with items that match
    given rule; [i] is the index of the first of [array], [done]
    the items stored in [result] so far. *)
Fixpoint validateArray_loop (array : list Value) (i : nat)
    (rule : SchemaRule) (maxRecurse : Z) (done : list Parsed)
  : Outcome ValidationResult :=
  match array with
  | [] => Ret (ok (PArray done))
  | x :: array =>
      v ← rec x (FIndex i) (Some rule) maxRecurse;
      if has_error v then Ret v
      else validateArray_loop array (S i) rule maxRecurse
             (done ++ [vr_value v])
  end.

Definition validateArray_with (array : list Value) (rule : SchemaRule)
    (maxRecurse : Z) : Outcome ValidationResult :=
  validateArray_loop array 0 rule maxRecurse [].

(** The loop of the [record] rule: [for (let k in value)] *)
Fixpoint validateRecord_loop (value : Value) (ks : list string)
    (rule : SchemaRule) (maxRecurse : Z) (done : gmap string Parsed)
  : Outcome ValidationResult :=
  match ks with
  | [] => Ret (ok (PObject done))
  | k :: ks =>
      r ← rec (get h value k) (FName k) (Some rule) maxRecurse;
      if has_error r then Ret r
      else validateRecord_loop value ks rule maxRecurse
             (<[k := vr_value r]> done)
  end.
End Loops.

(** ** [_validate] *)

(** Helper function to validate a single value based on a given rule
    (recursive).  [fuel] bounds the depth of the calls in Rocq. *)
Fixpoint _validate (fuel : nat) (h : Heap) (value : Value) (field : Field)
    (rule : option SchemaRule) (maxRecurse : Z)
  : Outcome ValidationResult :=
  match fuel with
  | O => OutOfFuel
  | S fuel =>
    match rule with
    | None => Throw RangeError
    | Some rule =>
      if maxRecurse <? 0 then Ret (failure (SCString DEFAULT_ERROR))
      else
      let maxRecurse := maxRecurse - 1 in
      (* get optional and function validation out of the way *)
      if optional rule && is_undefined value then Ret (ok undefined)
      else
      match validate rule with
      | Some NotAFunction => Throw TypeError
      | Some (Fn f) => Ret (f h value (field_or_underscore field))
      | None =>
      (* check objects and arrays using functions below *)
      match object rule with
      | Some (ObjRule schema err) =>
          if negb (isObject value) then Ret (_makeError err None)
          else
            as_result <$>
              validateObject_with (_validate fuel h) h value
                (default [] schema) maxRecurse
      | None =>
      match array rule with
      | Some (ArrRule items err min max) =>
          match value with
          | VArray a =>
              let value := arr_items h a in
              let len := number_of_nat (length value) in
              match
                when_bound min (fun l => len <? l)%float err
                (when_bound max (fun l => l <? len)%float err
                (inr (LValue (VArray a))))
              with
              | inl e => Ret e
              | inr _ =>
                  validateArray_with (_validate fuel h) value
                    (default empty_rule items) maxRecurse
              end
          | _ => Ret (_makeError err None)
          end
      | None =>
      match record rule with
      | Some (RecRule values err) =>
          if negb (isObject value) then Ret (_makeError err None)
          else
            validateRecord_loop (_validate fuel h) h value
              (map fst (props_of h value))
              (default empty_rule values) maxRecurse ∅
      | None =>
      (* if regular value type, use the simple rules *)
      Ret (validate_simple h value (simple rule))
      end end end end
    end
  end.

Definition _validateObject (fuel : nat) (h : Heap) (object : Value)
    (rules : Schema) (maxRecurse : Z) : Outcome ObjectResult :=
  validateObject_with (_validate fuel h) h object rules maxRecurse.

Definition _validateArray (fuel : nat) (h : Heap) (array : list Value)
    (rule : SchemaRule) (maxRecurse : Z) : Outcome ValidationResult :=
  validateArray_with (_validate fuel h) array rule maxRecurse.

(** ** The class and its entry points *)

(** How much [fuel] a call of [_validate] with budget [maxRecurse] can
    use (see [validate_fuel_enough] below). *)
Definition enough_fuel (maxRecurse : Z) : nat := S (Z.to_nat (maxRecurse + 1)).

Record ObjectReader := { schema : Schema }.

(** [constructor(schema?) { this.schema = schema || {} }] *)
Definition new_ObjectReader (schema : option Schema) : ObjectReader :=
  {| schema := default [] schema |}.

(** [ObjectReader.Result]: the parsed object if any, and the errors *)
Definition Result : Type := option (gmap string Parsed) * gmap string Error.

(** Parses and validates the specified object *)
Definition read_with (fuel : nat) (this : ObjectReader) (h : Heap)
    (object : Value) : Outcome Result :=
  if negb (isObject object) then Ret (None, {["_" := TypeError]})
  else
    v ← _validateObject fuel h object (schema this) MAX_RECURSE;
    Ret (result v, errors v).

Definition read : ObjectReader -> Heap -> Value -> Outcome Result :=
  read_with (enough_fuel MAX_RECURSE).

(** Parses and validates a particular field of the specified object *)
Definition readField_with (fuel : nat) (this : ObjectReader) (h : Heap)
    (object : Value) (field : string) : Outcome (Parsed * option Error) :=
  if negb (isObject object) then Ret (undefined, Some TypeError)
  else
    v ← _validate fuel h (get h object field) (FName field)
          (schema_get (schema this) field) MAX_RECURSE;
    match vr_error v with
    | Some e =>
        if truthy_sc e then Ret (undefined, Some (GenericError (String_of e)))
        else Ret (vr_value v, None)
    | None => Ret (vr_value v, None)
    end.

Definition readField
  : ObjectReader -> Heap -> Value -> string -> Outcome (Parsed * option Error) :=
  readField_with (enough_fuel MAX_RECURSE).

(** Parses and validates the object that's encoded in the specified JSON
    string: [try { return this.read(JSON.parse(json)) } catch (err) ...].
    Every exception of this model is an [Error] instance. *)
Definition readJSONString_with (fuel : nat) (this : ObjectReader)
    (json : string) : Outcome Result :=
  match
    match JSON_parse json with
    | inl err => Throw err
    | inr (h, object) => read_with fuel this h object
    end
  with
  | Throw err => Ret (None, {["_" := err]})
  | r => r
  end.

Definition readJSONString : ObjectReader -> string -> Outcome Result :=
  readJSONString_with (enough_fuel MAX_RECURSE).

(** ** What the claims speak of *)

(** What [read] and [readField] get for the field [p] of [object]: the
    result of the call of [_validate] they make for it. *)
Definition field_result (this : ObjectReader) (h : Heap) (object : Value)
    (p : string) : Outcome ValidationResult :=
  _validate (enough_fuel MAX_RECURSE) h (get h object p) (FName p)
    (schema_get (schema this) p) MAX_RECURSE.

(** The field validates cleanly: its result carries no error. *)
Definition validates_cleanly (this : ObjectReader) (h : Heap)
    (object : Value) (p : string) : Prop :=
  exists v, field_result this h object p = Ret v /\ has_error v = false.

(** The field fails with the error [e]. *)
Definition fails_with (this : ObjectReader) (h : Heap) (object : Value)
    (p : string) (e : StringConvertible) : Prop :=
  exists v, field_result this h object p = Ret v /\
            vr_error v = Some e /\ truthy_sc e = true.

(** [Error(String(v.error))] when [v.error] is set *)
Definition error_of (v : ValidationResult) : option Error :=
  match vr_error v with
  | Some e => if truthy_sc e then Some (GenericError (String_of e)) else None
  | None => None
  end.

(** The state of [_validateObject] after the turns for [ps], when the
    call for [p] returns [out p]. *)
Definition object_steps (out : string -> ValidationResult)
    (ps : list string) (st : ObjectResult) : ObjectResult :=
  fold_left (fun st p => object_step p (out p) st) ps st.

(** The call [_validate(value, field, rule, maxRecurse)], with the fuel
    that is enough for its budget *)
Definition validate_call (h : Heap) (value : Value) (field : Field)
    (rule : option SchemaRule) (maxRecurse : Z) : Outcome ValidationResult :=
  _validate (enough_fuel maxRecurse) h value field rule maxRecurse.

(** The value list of the rule, if it has one, has [undefined]. *)
Definition value_rule_accepts_undefined (s : SimpleRule) : bool :=
  match valueRule s with
  | Some vr => includes (default [] (value_match vr)) VUndefined
  | None => true
  end.

(** A rule with no object, array or record member and no boolean, string,
    number or date member, whose value list (if any) has [undefined] *)
Definition accepts_undefined (r : SchemaRule) : bool :=
  match object r, array r, record r,
        booleanRule (simple r), stringRule (simple r),
        numberRule (simple r), dateRule (simple r) with
  | None, None, None, None, None, None, None =>
      value_rule_accepts_undefined (simple r)
  | _, _, _, _, _, _, _ => false
  end.

(** [n] object rules, one inside the other under the field [self],
    around the rule [leaf] *)
Fixpoint nested (n : nat) (leaf : SchemaRule) : SchemaRule :=
  match n with
  | O => leaf
  | S n =>
      Rule false None (Some (ObjRule (Some [("self", nested n leaf)]) None))
           None None no_constraint
  end.

(** ** Schemas that respect the declared types

    [SchemaRule] types [validate] as a function.  A schema is well typed
    when that holds for every rule in it, nested ones included. *)
Fixpoint rule_typed (r : SchemaRule) : bool :=
  match r with
  | Rule _ v o a rc _ =>
      match v with Some NotAFunction => false | _ => true end
      && match o with
         | Some (ObjRule (Some rules) _) =>
             forallb (fun pr => rule_typed (snd pr)) rules
         | _ => true
         end
      && match a with
         | Some (ArrRule (Some items) _ _ _) => rule_typed items
         | _ => true
         end
      && match rc with
         | Some (RecRule (Some values) _) => rule_typed values
         | _ => true
         end
  end.

Definition schema_typed (rules : Schema) : bool :=
  forallb (fun pr => rule_typed (snd pr)) rules.

End WithHost.

End ObjectReader.

(** * ManagedEvent *)

Module ManagedEvent.

(** A [ManagedObject] as an event refers to it: which object it is, and
    the constructors on its prototype chain, which [instanceof] checks. *)
Record ManagedObject := {
  oid : nat;
  constructors : list string
}.

(** [ManagedObject.Constructor<T>] *)
Definition Constructor := string.

(** [o instanceof type] *)
Definition instanceof (o : ManagedObject) (type : Constructor) : bool :=
  existsb (String.eqb type) (constructors o).

(** An event's [data]: a [Record<string, unknown>], frozen or not. *)
Record DataObject := {
  entries : list (string * Value);
  data_frozen : bool
}.

(** [Object.freeze] of a data object *)
Definition freeze_data (d : DataObject) : DataObject :=
  {| entries := entries d; data_frozen := true |}.

(** Reuse the same frozen object for events without data:
    [const NO_DATA = Object.freeze({})] *)
Definition NO_DATA : DataObject :=
  freeze_data {| entries := []; data_frozen := false |}.

(** [data[key] = v] in strict code: a frozen object refuses it. *)
Definition data_set (key : string) (v : Value) (d : DataObject)
  : Outcome DataObject :=
  if data_frozen d then Throw TypeError
  else Ret {| entries := (key, v) :: entries d; data_frozen := false |}.

(** The object [new ManagedEvent(...)] makes, with its own [frozen] bit. *)
Inductive ManagedEvent := Event {
  name : string;
  source : ManagedObject;
  data : DataObject;
  delegate : option ManagedObject;
  inner : option ManagedEvent;
  noPropagation : option bool;
  frozen : bool
}.

(** [Object.freeze(this)] *)
Definition Object_freeze (e : ManagedEvent) : ManagedEvent :=
  Event (name e) (source e) (data e) (delegate e) (inner e)
        (noPropagation e) true.

(** Creates a new event with the specified name: the six assignments to
    the new object, then [Object.freeze(this)]. *)
Definition new_ManagedEvent (name : string) (source : ManagedObject)
    (data : option DataObject) (delegate : option ManagedObject)
    (inner : option ManagedEvent) (noPropagation : option bool)
  : ManagedEvent :=
  let this :=
    {| name := name;
       source := source;
       data := default NO_DATA data;        (* data || NO_DATA *)
       delegate := delegate;
       inner := inner;
       noPropagation := noPropagation;
       frozen := false |} in
  Object_freeze this.

(** An assignment [e.member = v] to one of the members (or to any other
    property name), as strict code performs it. *)
Inductive Assignment :=
| SetName (v : string)
| SetSource (v : ManagedObject)
| SetData (v : DataObject)
| SetDelegate (v : option ManagedObject)
| SetInner (v : option ManagedEvent)
| SetNoPropagation (v : option bool).

Definition perform (a : Assignment) (e : ManagedEvent) : ManagedEvent :=
  match a with
  | SetName v =>
      Event v (source e) (data e) (delegate e) (inner e) (noPropagation e) (frozen e)
  | SetSource v =>
      Event (name e) v (data e) (delegate e) (inner e) (noPropagation e) (frozen e)
  | SetData v =>
      Event (name e) (source e) v (delegate e) (inner e) (noPropagation e) (frozen e)
  | SetDelegate v =>
      Event (name e) (source e) (data e) v (inner e) (noPropagation e) (frozen e)
  | SetInner v =>
      Event (name e) (source e) (data e) (delegate e) v (noPropagation e) (frozen e)
  | SetNoPropagation v =>
      Event (name e) (source e) (data e) (delegate e) (inner e) v (frozen e)
  end.

(** The object after the assignment, and the [TypeError] it raised if the
    object is frozen. *)
Definition assign (a : Assignment) (e : ManagedEvent)
  : ManagedEvent * option Error :=
  if frozen e then (e, Some TypeError) else (perform a e, None).

(** Returns the delegate object of the specified type:
    [for (let e = this; e; e = e.inner)
       if (e.delegate instanceof type) return e.delegate;] *)
Fixpoint findDelegate (this : ManagedEvent) (type : Constructor)
  : option ManagedObject :=
  match this with
  | Event _ _ _ d i _ _ =>
      let next :=
        match i with
        | Some e => findDelegate e type
        | None => None
        end in
      match d with
      | Some o => if instanceof o type then Some o else next
      | None => next
      end
  end.

(** The chain [e, e.inner, e.inner.inner, ...] *)
Fixpoint chain (e : ManagedEvent) : list ManagedEvent :=
  match e with
  | Event _ _ _ _ i _ _ =>
      e :: match i with
           | Some e' => chain e'
           | None => []
           end
  end.

(** [e.delegate instanceof type] *)
Definition delegate_is (type : Constructor) (e : ManagedEvent) : bool :=
  match delegate e with
  | Some o => instanceof o type
  | None => false
  end.

(** The claim's wording: the delegate of the first event of the chain
    whose delegate is an instance of [type]. *)
Definition first_matching_delegate (e : ManagedEvent) (type : Constructor)
  : option ManagedObject :=
  match List.find (delegate_is type) (chain e) with
  | Some e' => delegate e'
  | None => None
  end.

End ManagedEvent.

(** * View.applyViewPreset *)

Module View.
Import ManagedEvent.

(** Modelled from the spec: [Binding], [isBinding] and [bindTo] are not
    among the source files; by the spec a binding is an opaque capability
    object that the preset layer recognizes and asks to bind to (target
    object, property name).  Here it is a token, and binding it is
    recorded in the view. *)
Definition Binding := nat.

(** Modelled from the spec: [invalidArgErr] of [errors.js] is not among
    the source files; by the spec a bad event remap value fails with
    [InvalidArgument], here for the argument it is given. *)
Definition invalidArgErr (what : string) : Error := InvalidArgument what.

(** A value of the preset object: a binding, or any other value *)
Inductive PresetValue :=
| PVal (v : Value)
| PBinding (b : Binding).

(** The remaps collected from the preset: [events[eventName] = v] *)
Definition Events : Type := gmap string string.

(** What [this.emit] may be: the method of [ManagedObject], or the
    function [applyViewPreset] puts in its place, which keeps the remaps
    and the [emit] it found ([_emit]). *)
Inductive EmitFn :=
| ManagedObject_emit
| Wrapper (events : Events) (_emit : EmitFn).

(** The view: the managed object it is, the properties the preset set on
    it, the bindings applied to it, and its [emit]. *)
Record View := {
  self : ManagedObject;
  properties : gmap string Value;
  bound : list (string * Binding);
  emit : EmitFn
}.

(** [p[0] === "o" && p[1] === "n" && (p[2]! < "a" || p[2]! > "z")];
    with no third character both comparisons are false. *)
Definition is_event_key (p : string) : bool :=
  match p with
  | String "o"%char (String "n"%char (String c _)) =>
      Ascii.ltb c "a"%char || Ascii.ltb "z"%char c
  | _ => false
  end.

(** [v === undefined] *)
Definition is_undefined_preset (v : PresetValue) : bool :=
  match v with
  | PVal VUndefined => true
  | _ => false
  end.

Definition is_string (v : PresetValue) : bool :=
  match v with
  | PVal (VString _) => true
  | _ => false
  end.

Definition truthy_preset (v : PresetValue) : bool :=
  match v with
  | PVal v => truthy v
  | PBinding _ => true
  end.

Definition equals_string (s : string) (v : PresetValue) : bool :=
  match v with
  | PVal (VString s') => String.eqb s s'
  | _ => false
  end.

Definition string_of (v : PresetValue) : string :=
  match v with
  | PVal (VString s) => s
  | _ => EmptyString
  end.

(** [!v || typeof v !== "string" || eventName === v] *)
Definition bad_target (eventName : string) (v : PresetValue) : bool :=
  negb (truthy_preset v) || negb (is_string v) || equals_string eventName v.

(** One turn of the loop over the preset: the view and the remaps so far
    go in; they come out with the exception thrown, if any. *)
Definition preset_step (p : string) (v : PresetValue)
    (st : View * option Events) : View * option Events * option Error :=
  let '(this, events) := st in
  if is_undefined_preset v then (st, None)                (* continue *)
  else if is_event_key p then
    (* add event handler: forward or substitute event *)
    let eventName := slice_from 2 p in
    if bad_target eventName v
    then (st, Some (invalidArgErr ("preset." ++ p)))
    else (this, Some (<[eventName := string_of v]> (default ∅ events)), None)
  else
    (* apply binding or set property *)
    match v with
    | PBinding b =>
        ({| self := self this; properties := properties this;
            bound := bound this ++ [(p, b)]; emit := emit this |},
         events, None)
    | PVal x =>
        ({| self := self this; properties := <[p := x]> (properties this);
            bound := bound this; emit := emit this |},
         events, None)
    end.

(** A preset entry that is an event remap with a value that is not
    [undefined] and is no non-empty string other than the event name *)
Definition bad_entry (pv : string * PresetValue) : bool :=
  negb (is_undefined_preset pv.2) && is_event_key pv.1
  && bad_target (slice_from 2 pv.1) pv.2.

Fixpoint preset_loop (preset : list (string * PresetValue))
    (st : View * option Events) : View * option Events * option Error :=
  match preset with
  | [] => (st, None)
  | (p, v) :: preset =>
      match preset_step p v st with
      | (st, None) => preset_loop preset st
      | thrown => thrown
      end
  end.

(** Applies the provided preset properties to this object *)
Definition applyViewPreset (preset : list (string * PresetValue))
    (this : View) : View * option Error :=
  match preset_loop preset (this, None) with
  | (this, _, Some err) => (this, Some err)
  | (this, None, None) => (this, None)
  | (this, Some events, None) =>
      (* override emit method if forwarding or intercepting events *)
      ({| self := self this; properties := properties this;
          bound := bound this; emit := Wrapper events (emit this) |}, None)
  end.

(** ** The [emit] wrapper *)

(** The first argument of [emit]: a name or an event *)
Inductive EmitArg :=
| Named (name : string)
| Given (event : ManagedEvent).

(** Modelled from the spec: [ManagedObject.emit] is not among the source
    files; by the spec it constructs a [ManagedEvent] if given a string
    and then notifies the listeners.  Here it yields the event the
    listeners are notified of. *)
Definition ManagedObject_emit_event (this : View) (event : EmitArg)
    (data : option DataObject) : ManagedEvent :=
  match event with
  | Named name => new_ManagedEvent name (self this) data None None None
  | Given e => e
  end.

(** [if (v[0] === "+") { ...; v = v.slice(1) }] *)
Definition is_forward (v : string) : bool :=
  match v with
  | String "+"%char _ => true
  | _ => false
  end.

(** [{ target: s }] *)
Definition target_data (s : string) : DataObject :=
  {| entries := [("target", VString s)]; data_frozen := false |}.

(** add 'target' data property if needed, and make the intercept event
    with the original event as [inner] *)
Definition intercept_event (this : View) (event : ManagedEvent)
    (data : option DataObject) (v : string) : ManagedEvent :=
  let colonIndex := indexOf ":"%char v in
  if 0 <? colonIndex then
    new_ManagedEvent (slice_to (Z.to_nat colonIndex) v) (self this)
      (Some (target_data (slice_from (Z.to_nat (colonIndex + 1)) v)))
      None (Some event) None
  else
    new_ManagedEvent v (self this) data None (Some event) None.

(** A call [f(event, data)] of an [emit] function on the view [this];
    the result lists the events handed to [ManagedObject.emit], that is
    to the listeners, in order.  [fuel] bounds the depth of the calls. *)
Fixpoint call_emit (fuel : nat) (this : View) (f : EmitFn)
    (event : EmitArg) (data : option DataObject)
  : Outcome (list ManagedEvent) :=
  match fuel with
  | O => OutOfFuel
  | S fuel =>
    match f with
    | ManagedObject_emit => Ret [ManagedObject_emit_event this event data]
    | Wrapper events _emit =>
        let '(event, data) :=
          match event with
          | Named name =>
              (new_ManagedEvent name (self this) data None None None, data)
          | Given e => (e, Some (ManagedEvent.data e))
          end in
        (* check for event intercept/forward *)
        match events !! name event with
        | None => call_emit fuel this _emit (Given event) None
        | Some v =>
            if String.eqb v "" then call_emit fuel this _emit (Given event) None
            else
              (* if forward, emit original event first *)
              first ← (if is_forward v
                       then call_emit fuel this _emit (Given event) None
                       else Ret []);
              let v := if is_forward v then slice_from 1 v else v in
              (* emit intercept event with original event as inner *)
              rest ← call_emit fuel this (emit this)
                       (Given (intercept_event this event data v)) None;
              Ret (first ++ rest)
        end
    end
  end.

(** [this.emit(event, data)] *)
Definition emit_on (fuel : nat) (this : View) (event : EmitArg)
    (data : option DataObject) : Outcome (list ManagedEvent) :=
  call_emit fuel this (emit this) event data.

(** A view no preset has been applied to *)
Definition new_View (o : ManagedObject) : View :=
  {| self := o; properties := ∅; bound := []; emit := ManagedObject_emit |}.

End View.

(** * Sample data

    A host, a heap, some schemas, events and presets, for the worked
    examples below. *)

Module Samples.
Import ObjectReader ManagedEvent View.

(** The place of a name in a list, counted from [i] *)
Fixpoint position (p : string) (names : list string) (i : nat) : option nat :=
  match names with
  | [] => None
  | n :: names => if String.eqb n p then Some i else position p names (S i)
  end.

(** What an ordinary object has without listing it: the functions it
    inherits from [Object.prototype] (the functions 1001 and up here),
    and under [__proto__] its prototype, [Object.prototype] itself
    (the object 1000, whose own prototype is [null]). *)
Definition ordinary_hidden (v : Value) (p : string) : Value :=
  match v with
  | VObject a =>
      if String.eqb p "__proto__"
      then (if Nat.eqb a 1000 then VNull else VObject 1000)
      else match position p Object_prototype_names 1001 with
           | Some f => VFunction f
           | None => VUndefined
           end
  | _ => VUndefined
  end.

(** Objects 0 to 3 of the heap: [{}], [{ name: "A" }],
    [{ name: "Al", extra: 1 }], and an object whose [self] is itself;
    all of them ordinary objects. *)
Definition sample_heap : Heap :=
  {| obj_props := fun a =>
       match a with
       | 1%nat => [("name", VString "A")]
       | 2%nat => [("name", VString "Al"); ("extra", VNumber 1)]
       | 3%nat => [("self", VObject 3)]
       | _ => []
       end;
     hidden := ordinary_hidden;
     arr_items := fun _ => [];
     date_time := fun _ => nan |}.

(** A host that parses the numeral 42, no date, and the JSON text of
    the empty object. *)
Definition sample_host : Host :=
  {| parseFloat := fun s => if String.eqb s "42" then 42%float else nan;
     Date_parse := fun _ => nan;
     Date_of_number := fun t => t;
     JSON_parse := fun s =>
       if String.eqb s "{}" then inr (sample_heap, VObject 0)
       else inl (SyntaxError "Unexpected token") |}.

Definition string_rule (min : option Bound) : SchemaRule :=
  Rule false None None None None
    {| booleanRule := None;
       stringRule := Some {| string_err := None; string_match := None;
                             string_required := None;
                             string_min := min; string_max := None |};
       numberRule := None; dateRule := None; valueRule := None |}.

(** [{ name: { string: { min: { length: 2 } } } }] *)
Definition name_reader : ObjectReader :=
  new_ObjectReader
    (Some [("name", string_rule (Some {| limit := 2; bound_err := None |}))]).

(** [{ a: { optional: true, string: {} } }] *)
Definition optional_reader : ObjectReader :=
  new_ObjectReader
    (Some [("a", let 'Rule _ v o a rc s := string_rule None in
                 Rule true v o a rc s)]).

(** [{ a: {} }] *)
Definition empty_rule_reader : ObjectReader :=
  new_ObjectReader (Some [("a", empty_rule)]).

(** [{ a: { validate: 1 } }]: a [validate] member that is no function *)
Definition untyped_reader : ObjectReader :=
  new_ObjectReader
    (Some [("a", Rule false (Some NotAFunction) None None None no_constraint)]).

(** [{ ["__proto__"]: { string: {} } }]: a schema with a field of its
    own under the name [__proto__] *)
Definition proto_reader : ObjectReader :=
  new_ObjectReader (Some [("__proto__", string_rule None)]).

(** [{ ["__proto__"]: {} }] *)
Definition proto_any_reader : ObjectReader :=
  new_ObjectReader (Some [("__proto__", empty_rule)]).

(** [{ toString: { optional: true, string: {} } }] *)
Definition toString_reader : ObjectReader :=
  new_ObjectReader
    (Some [("toString", let 'Rule _ v o a rc s := string_rule None in
                        Rule true v o a rc s)]).

(** [{ self: r }] with [r] made of [n] nested object rules *)
Definition deep_reader (n : nat) : ObjectReader :=
  new_ObjectReader (Some [("self", nested n empty_rule)]).

Definition button : ManagedObject :=
  {| oid := 1%nat; constructors := ["UIButton"; "View"; "ManagedObject"] |}.

Definition list_view : ManagedObject :=
  {| oid := 2%nat; constructors := ["UIListView"; "View"; "ManagedObject"] |}.

Definition activity : ManagedObject :=
  {| oid := 3%nat; constructors := ["Activity"; "ManagedObject"] |}.

(** A [Click] of the button, re-emitted as [RemoveItem], then delegated
    by the list view and by the activity *)
Definition sample_click : ManagedEvent :=
  new_ManagedEvent "Click" button None None None None.

Definition sample_chain : ManagedEvent :=
  new_ManagedEvent "RemoveItem" button None (Some activity)
    (Some (new_ManagedEvent "RemoveItem" button None (Some list_view)
             (Some (new_ManagedEvent "RemoveItem" button None None
                      (Some sample_click) None))
             None))
    None.

(** [{ label: "Remove", onClick: "+RemoveItem" }] *)
Definition forward_preset : list (string * PresetValue) :=
  [("label", PVal (VString "Remove"));
   ("onClick", PVal (VString "+RemoveItem"))].

(** [{ onClick: "+RemoveItem", onRemoveItem: "Gone" }] *)
Definition chained_preset : list (string * PresetValue) :=
  [("onClick", PVal (VString "+RemoveItem"));
   ("onRemoveItem", PVal (VString "Gone"))].

(** [{ onClick: "Click" }] *)
Definition bad_preset : list (string * PresetValue) :=
  [("label", PVal (VString "Remove"));
   ("onClick", PVal (VString "Click"))].

(** The remaps [{ Click: "+Select:row", Press: ":odd" }] *)
Definition colon_events : Events :=
  {["Click" := "+Select:row"; "Press" := ":odd"]}.

Definition colon_view : View :=
  {| self := button; properties := ∅; bound := [];
     emit := Wrapper colon_events ManagedObject_emit |}.

End Samples.

(** * Shapes of rules and presets

    What the properties of the simple and compound rules, and of the
    loop over a preset, are stated with. *)

Module ReaderShapes.
Import ObjectReader.

(** A rule that reaches the simple checks of [_validate]: it has no
    [validate], [object], [array] or [record] member. *)
Definition simple_only (r : SchemaRule) : bool :=
  match validate r, ObjectReader.object r, array r, record r with
  | None, None, None, None => true
  | _, _, _, _ => false
  end.

(** The value [l] goes through the check of the member [rule], if the
    rule has it, and comes out as [l']. *)
Definition passes {R} (rule : option R) (check : R -> Local -> Checked)
    (l l' : Local) : Prop :=
  match rule with
  | Some r => check r l = inr l'
  | None => l' = l
  end.

(** A rule whose result the reader makes itself: no [validate] function
    is called for the value, nor for the items of an array or the values
    of a record.  (The result of an [object] rule is made by
    [_validateObject] whatever its schema.) *)
Fixpoint built_in (r : SchemaRule) : bool :=
  match r with
  | Rule _ v o a rc _ =>
      match v, o, a, rc with
      | Some _, _, _, _ => false
      | None, Some _, _, _ => true
      | None, None, Some (ArrRule (Some items) _ _ _), _ => built_in items
      | None, None, Some (ArrRule None _ _ _), _ => true
      | None, None, None, Some (RecRule (Some values) _) => built_in values
      | None, None, None, _ => true
      end
  end.

(** A rule in which nothing keeps state between two calls the reader
    makes: it has no [validate] function and no pattern ([match]), and
    neither have the rules nested in it. *)
Fixpoint plain_rule (r : SchemaRule) : bool :=
  match r with
  | Rule _ v o a rc s =>
      match v with Some _ => false | None => true end
      && match stringRule s with
         | Some sr => match string_match sr with
                      | Some _ => false
                      | None => true
                      end
         | None => true
         end
      && match o with
         | Some (ObjRule (Some rules) _) =>
             forallb (fun pr => plain_rule (snd pr)) rules
         | _ => true
         end
      && match a with
         | Some (ArrRule (Some items) _ _ _) => plain_rule items
         | _ => true
         end
      && match rc with
         | Some (RecRule (Some values) _) => plain_rule values
         | _ => true
         end
  end.

Definition plain_schema (rules : Schema) : bool :=
  forallb (fun pr => plain_rule (snd pr)) rules.

(** What the rule [nested n empty_rule] hands back for an object [v]
    whose [self] is [v] itself: [n] new objects, one inside the other
    under [self], around [v]. *)
Fixpoint nested_value (n : nat) (v : Value) : Parsed :=
  match n with
  | O => PValue v
  | S n => PObject {["self" := nested_value n v]}
  end.

(** A result with either a value or an error: it has no error member,
    or it has an error (a truthy one) and no value. *)
Definition value_xor_error (v : ValidationResult) : Prop :=
  vr_error v = None \/ (has_error v = true /\ vr_value v = undefined).

(** A check's error result has an error and no value. *)
Definition err_ok (c : Checked) : Prop :=
  match c with
  | inl e => has_error e = true /\ vr_value e = undefined
  | inr _ => True
  end.

(** The same for the state of the loop of [_validateObject]: no error
    yet, or an error and no result any more. *)
Definition result_xor_error (st : ObjectResult) : Prop :=
  error st = None \/
  (exists e, error st = Some e /\ truthy_sc e = true) /\ result st = None.

(** The value is a boolean the [boolean] member lets through:
    not [typeof value !== "boolean" || (booleanRule.true && !value)] *)
Definition boolean_accepted (r : BooleanRule) (b : bool) : Prop :=
  boolean_true r = true -> b = true.

(** The string is one the [string] member lets through: none of its
    four [return _makeError] conditions holds. *)
Definition string_accepted (r : StringRule) (s : string) : Prop :=
  (forall test, string_match r = Some test -> test s = true) /\
  (is_Some (string_required r) -> s <> EmptyString) /\
  (forall b, string_min r = Some b ->
     (number_of_nat (String.length s) <? limit b)%float = false) /\
  (forall b, string_max r = Some b ->
     (limit b <? number_of_nat (String.length s))%float = false).

(** The number is one the [number] member lets through: none of its six
    [return _makeError] conditions holds. *)
Definition number_accepted (r : NumberRule) (n : float) : Prop :=
  isNaN n = false /\
  (is_Some (number_integer r) -> isSafeInteger n = true) /\
  (is_Some (number_nonzero r) -> falsy_number n = false) /\
  (is_Some (number_positive r) -> (n <? 0)%float = false) /\
  (forall b, number_min r = Some b -> (n <? limit b)%float = false) /\
  (forall b, number_max r = Some b -> (limit b <? n)%float = false).

(** The time value is one the [date] member lets through. *)
Definition date_accepted (r : DateRule) (t : float) : Prop :=
  isNaN t = false /\
  (forall b, date_min r = Some b -> (t <? limit b)%float = false) /\
  (forall b, date_max r = Some b -> (limit b <? t)%float = false).

Section WithHost.
Context `{Host}.

(** The number the [number] member looks at: the value itself, or what
    [parseFloat] makes of a string *)
Definition coerced_number (l : Local) (n : float) : Prop :=
  l = LValue (VNumber n) \/
  exists s, l = LValue (VString s) /\ n = parseFloat s.

(** The time the [date] member looks at and the value it hands on: a
    [Date] as it is, a new [Date] for a string or a number *)
Definition coerced_date (h : Heap) (l l' : Local) (t : float) : Prop :=
  (exists a, l = LValue (VDate a) /\ l' = l /\ t = date_time h a) \/
  (exists s, l = LValue (VString s) /\ l' = LNewDate t /\ t = Date_parse s) \/
  (exists n, l = LValue (VNumber n) /\ l' = LNewDate t /\
             t = Date_of_number n) \/
  (l = LNewDate t /\ l' = l).

End WithHost.

End ReaderShapes.

Module PresetShapes.
Import ManagedEvent View.

(** The entries of the preset that the loop of [applyViewPreset] gets
    past: those before the first one it throws for. *)
Fixpoint before_bad (preset : list (string * PresetValue))
  : list (string * PresetValue) :=
  match preset with
  | [] => []
  | pv :: preset => if bad_entry pv then [] else pv :: before_bad preset
  end.

(** The bindings among the entries, with the property each is for *)
Definition bindings_of (preset : list (string * PresetValue))
  : list (string * Binding) :=
  omap (fun pv => match pv.2 with
                  | PBinding b => Some (pv.1, b)
                  | PVal _ => None
                  end) preset.

(** The target of a remap without its "+" *)
Definition remap_target (v : string) : string :=
  if is_forward v then slice_from 1 v else v.

End PresetShapes.

(** * More sample data *)

Module MoreSamples.
Import ObjectReader ManagedEvent View Samples.

(** Objects 1 to 5 of the heap: [{ name: "Al" }],
    [{ name: "Al", extra: 1 }], [{ a: 1, b: 2 }],
    [{ name: "A", age: "x" }] and [{ name: "Al", age: 42 }], all
    ordinary objects; the arrays 1 and 2: [["ab", "c"]] and
    [["ab", "cd"]]. *)
Definition rules_heap : Heap :=
  {| obj_props := fun a =>
       match a with
       | 1%nat => [("name", VString "Al")]
       | 2%nat => [("name", VString "Al"); ("extra", VNumber 1)]
       | 3%nat => [("a", VNumber 1); ("b", VNumber 2)]
       | 4%nat => [("name", VString "A"); ("age", VString "x")]
       | 5%nat => [("name", VString "Al"); ("age", VNumber 42)]
       | _ => []
       end;
     hidden := ordinary_hidden;
     arr_items := fun a =>
       match a with
       | 1%nat => [VString "ab"; VString "c"]
       | 2%nat => [VString "ab"; VString "cd"]
       | _ => []
       end;
     date_time := fun _ => 1000%float |}.

Definition at_least (n : float) : option Bound :=
  Some {| limit := n; bound_err := None |}.

(** [{ boolean: { true: true } }] *)
Definition checked_rule : SchemaRule :=
  Rule false None None None None
    {| booleanRule := Some {| boolean_true := true; boolean_err := None |};
       stringRule := None; numberRule := None; dateRule := None;
       valueRule := None |}.

(** [{ number: { integer: true, min: { value: 18 } } }] *)
Definition age_number_rule : NumberRule :=
  {| number_err := None; number_integer := Some FlagTrue;
     number_positive := None; number_nonzero := None;
     number_min := at_least 18; number_max := None |}.

Definition age_rule : SchemaRule :=
  Rule false None None None None
    {| booleanRule := None; stringRule := None;
       numberRule := Some age_number_rule;
       dateRule := None; valueRule := None |}.

(** [{ date: {} }] *)
Definition any_date : DateRule :=
  {| date_err := None; date_min := None; date_max := None |}.

Definition date_rule : SchemaRule :=
  Rule false None None None None
    {| booleanRule := None; stringRule := None; numberRule := None;
       dateRule := Some any_date; valueRule := None |}.

(** [{ value: { match: ["a", 1] } }] *)
Definition one_of : ValueRule :=
  {| value_match := Some [VString "a"; VNumber 1]; value_err := None |}.

Definition choice_rule : SchemaRule :=
  Rule false None None None None
    {| booleanRule := None; stringRule := None; numberRule := None;
       dateRule := None; valueRule := Some one_of |}.

(** [{ string: { min: { length: 2 } } }] *)
Definition two_letters : StringRule :=
  {| string_err := None; string_match := None; string_required := None;
     string_min := at_least 2; string_max := None |}.

(** [{ array: { items: { string: { min: { length: 2 } } },
                min: { length: 1 } } }] *)
Definition names_rule : SchemaRule :=
  Rule false None None
    (Some (ArrRule (Some (string_rule (at_least 2))) None (at_least 1) None))
    None no_constraint.

(** [{ record: { values: { number: {} } } }] *)
Definition counts_rule : SchemaRule :=
  Rule false None None None
    (Some (RecRule
             (Some (Rule false None None None None
                      {| booleanRule := None; stringRule := None;
                         numberRule :=
                           Some {| number_err := None; number_integer := None;
                                   number_positive := None;
                                   number_nonzero := None;
                                   number_min := None; number_max := None |};
                         dateRule := None; valueRule := None |}))
             None))
    no_constraint.

(** [{ object: { schema: { name: { string: { min: { length: 2,
      err: "Name too short" } } }, age: { number: ... } } } }] *)
Definition user_schema : Schema :=
  [("name",
    string_rule (Some {| limit := 2;
                         bound_err := Some (SCString "Name too short") |}));
   ("age", age_rule)].

Definition user_rule : SchemaRule :=
  Rule false None (Some (ObjRule (Some user_schema) None)) None None
    no_constraint.

(** The remap [{ Click: "+Click" }] *)
Definition loop_view : View :=
  {| self := button; properties := ∅; bound := [];
     emit := Wrapper {["Click" := "+Click"]} ManagedObject_emit |}.

(** [{ label: "Remove", text: <binding 7>, onClick: "Click", icon: "x" }] *)
Definition mixed_preset : list (string * PresetValue) :=
  [("label", PVal (VString "Remove"));
   ("text", PBinding 7%nat);
   ("onClick", PVal (VString "Click"));
   ("icon", PVal (VString "x"))].

(** [{ onClick: "RemoveItem" }] *)
Definition intercept_preset : list (string * PresetValue) :=
  [("onClick", PVal (VString "RemoveItem"))].

End MoreSamples.

(** * Properties *)

(** ** Outcomes *)

Section OutcomeFacts.
Context {A B : Type}.

Lemma bind_cases (m : Outcome A) (k : A -> Outcome B) :
  (exists a, m = Ret a /\ (m ≫= k) = k a) \/ carried m (m ≫= k).
Proof. destruct m; cbn; eauto. Qed.

Lemma returns_iff (m : Outcome A) :
  returns m <-> m <> OutOfFuel /\ forall e, m <> Throw e.
Proof.
  unfold returns. split.
  - intros [a ->]. split; congruence.
  - intros [Hf Ht]. destruct m; [eauto | by destruct (Ht e) | done].
Qed.

Lemma carried_OutOfFuel (m : Outcome A) :
  carried m (@OutOfFuel B) -> m = OutOfFuel.
Proof. by destruct m. Qed.

Lemma carried_Throw (m : Outcome A) e :
  carried m (@Throw B e) -> m = Throw e.
Proof. destruct m; cbn; intros Hc; [done | by subst | done]. Qed.

Lemma carried_not_Ret (m : Outcome A) (b : B) : ~ carried m (Ret b).
Proof. destruct m; cbn; tauto. Qed.

End OutcomeFacts.

(** ** ObjectReader *)

Section ObjectReaderFacts.
Import ObjectReader.
Context `{Host}.

Section LoopFacts.
Variables rec rec' : Value -> Field -> option SchemaRule -> Z ->
                     Outcome ValidationResult.
Variable h : Heap.
Variable maxRecurse : Z.
Hypothesis rec_agree : forall v f r, rec v f r maxRecurse = rec' v f r maxRecurse.

Lemma validateObject_loop_ext object rules ps st :
  validateObject_loop rec h object rules maxRecurse ps st
  = validateObject_loop rec' h object rules maxRecurse ps st.
Proof.
  revert st. induction ps as [|p ps IH]; intros st; simpl; [done|].
  rewrite rec_agree. destruct (rec' _ _ _ _); cbn; auto.
Qed.

Lemma validateArray_loop_ext array i rule acc :
  validateArray_loop rec array i rule maxRecurse acc
  = validateArray_loop rec' array i rule maxRecurse acc.
Proof.
  revert i acc. induction array as [|x array IH]; intros i acc; simpl; [done|].
  rewrite rec_agree. destruct (rec' _ _ _ _) as [v| |]; cbn; auto.
  destruct (has_error v); auto.
Qed.

Lemma validateRecord_loop_ext value ks rule acc :
  validateRecord_loop rec h value ks rule maxRecurse acc
  = validateRecord_loop rec' h value ks rule maxRecurse acc.
Proof.
  revert acc. induction ks as [|k ks IH]; intros acc; simpl; [done|].
  rewrite rec_agree. destruct (rec' _ _ _ _) as [v| |]; cbn; auto.
  destruct (has_error v); auto.
Qed.

End LoopFacts.

Lemma enough_fuel_pos mr : (1 <= enough_fuel mr)%nat.
Proof. unfold enough_fuel. lia. Qed.

Lemma enough_fuel_pred mr fuel :
  0 <= mr -> (enough_fuel mr <= S fuel)%nat -> (enough_fuel (mr - 1) <= fuel)%nat.
Proof. unfold enough_fuel. lia. Qed.

(** With [enough_fuel] the answer no longer depends on the fuel. *)
Lemma validate_fuel_stable fuel : forall fuel' h value field rule mr,
  (enough_fuel mr <= fuel)%nat -> (enough_fuel mr <= fuel')%nat ->
  _validate fuel h value field rule mr = _validate fuel' h value field rule mr.
Proof.
  induction fuel as [|fuel IH]; intros fuel' h value field rule mr Hf Hf'.
  { pose proof (enough_fuel_pos mr). lia. }
  destruct fuel' as [|fuel']; [pose proof (enough_fuel_pos mr); lia|].
  simpl. destruct rule as [rule|]; [|done].
  destruct (Z.ltb_spec mr 0) as [Hneg|Hpos]; [done|].
  assert (Hrec : forall v f r,
    _validate fuel h v f r (mr - 1) = _validate fuel' h v f r (mr - 1)).
  { intros. apply IH; by apply enough_fuel_pred. }
  destruct (optional rule && is_undefined value); [done|].
  destruct (validate rule) as [[|f]|]; [done..|].
  destruct (object rule) as [[schema err]|].
  { destruct (negb (isObject value)); [done|].
    unfold validateObject_with. by rewrite (validateObject_loop_ext _ _ _ _ Hrec). }
  destruct (array rule) as [[items err min max]|].
  { destruct value; try done.
    destruct (when_bound _ _ _ _); [done|].
    unfold validateArray_with. by rewrite (validateArray_loop_ext _ _ _ Hrec). }
  destruct (record rule) as [[values err]|]; [|done].
  destruct (negb (isObject value)); [done|].
  by rewrite (validateRecord_loop_ext _ _ _ _ Hrec).
Qed.


Section LoopCases.
Variable rec : Value -> Field -> option SchemaRule -> Z ->
               Outcome ValidationResult.
Variable h : Heap.
Variable maxRecurse : Z.

(** A loop returns, or it stops at the first call that does not. *)
Lemma validateObject_loop_cases object rules ps st :
  returns (validateObject_loop rec h object rules maxRecurse ps st) \/
  exists p, p ∈ ps /\
    carried (rec (get h object p) (FName p) (schema_get rules p) maxRecurse)
            (validateObject_loop rec h object rules maxRecurse ps st).
Proof.
  revert st. induction ps as [|p ps IH]; intros st; simpl.
  { left. by eexists. }
  destruct (rec (get h object p) (FName p) (schema_get rules p) maxRecurse)
    as [v|e|] eqn:Hp; cbn.
  - destruct (IH (object_step p v st)) as [?|(q & Hq & Hc)]; [by left|].
    right. exists q. split; [by right|done].
  - right. exists p. split; [by left|]. by rewrite Hp.
  - right. exists p. split; [by left|]. by rewrite Hp.
Qed.

Lemma validateArray_loop_cases array i rule acc :
  returns (validateArray_loop rec array i rule maxRecurse acc) \/
  exists x j,
    carried (rec x (FIndex j) (Some rule) maxRecurse)
            (validateArray_loop rec array i rule maxRecurse acc).
Proof.
  revert i acc. induction array as [|x array IH]; intros i acc; simpl.
  { left. by eexists. }
  destruct (rec x (FIndex i) (Some rule) maxRecurse) as [v|e|] eqn:Hx; cbn.
  - destruct (has_error v); [left; by eexists|]. apply IH.
  - right. exists x, i. by rewrite Hx.
  - right. exists x, i. by rewrite Hx.
Qed.

Lemma validateRecord_loop_cases value ks rule acc :
  returns (validateRecord_loop rec h value ks rule maxRecurse acc) \/
  exists k,
    carried (rec (get h value k) (FName k) (Some rule) maxRecurse)
            (validateRecord_loop rec h value ks rule maxRecurse acc).
Proof.
  revert acc. induction ks as [|k ks IH]; intros acc; simpl.
  { left. by eexists. }
  destruct (rec (get h value k) (FName k) (Some rule) maxRecurse)
    as [v|e|] eqn:Hk; cbn.
  - destruct (has_error v); [left; by eexists|]. apply IH.
  - right. exists k. by rewrite Hk.
  - right. exists k. by rewrite Hk.
Qed.

End LoopCases.

Lemma fmap_carried {A B} (f : A -> B) (m : Outcome A) (m' : Outcome B) :
  f <$> m = m' -> (exists a, m = Ret a /\ m' = Ret (f a)) \/ carried m m'.
Proof. intros <-. destruct m; cbn; eauto. Qed.

(** [enough_fuel] is enough: validation never runs out of it. *)
Lemma validate_fuel_enough fuel : forall h value field rule mr,
  (enough_fuel mr <= fuel)%nat ->
  _validate fuel h value field rule mr <> OutOfFuel.
Proof.
  induction fuel as [|fuel IH]; intros h value field rule mr Hf.
  { pose proof (enough_fuel_pos mr). lia. }
  simpl. destruct rule as [rule|]; [|done].
  destruct (Z.ltb_spec mr 0) as [Hneg|Hpos]; [done|].
  assert (Hrec : forall v f r, _validate fuel h v f r (mr - 1) <> OutOfFuel).
  { intros. apply IH. by apply enough_fuel_pred. }
  destruct (optional rule && is_undefined value); [done|].
  destruct (validate rule) as [[|f]|]; [done..|].
  destruct (object rule) as [[schema err]|].
  { destruct (negb (isObject value)); [done|].
    intros Hoof. apply fmap_carried in Hoof as [(a & _ & ?)|Hc]; [done|].
    apply carried_OutOfFuel in Hc. unfold validateObject_with in Hc.
    destruct (validateObject_loop_cases (_validate fuel h) h (mr - 1) value
                (default [] schema) (schema_keys (default [] schema))
                {| result := Some ∅; error := None; errors := ∅ |})
      as [[a Ha]|(p & _ & Hp)]; [congruence|].
    rewrite Hc in Hp. apply carried_OutOfFuel in Hp. by apply Hrec in Hp. }
  destruct (array rule) as [[items err min max]|].
  { destruct value; try done.
    destruct (when_bound _ _ _ _); [done|].
    unfold validateArray_with. intros Hc.
    destruct (validateArray_loop_cases (_validate fuel h) (mr - 1)
                (arr_items h a) 0 (default empty_rule items) [])
      as [[r Hr]|(x & j & Hx)]; [congruence|].
    rewrite Hc in Hx. apply carried_OutOfFuel in Hx. by apply Hrec in Hx. }
  destruct (record rule) as [[values err]|]; [|done].
  destruct (negb (isObject value)); [done|].
  intros Hc.
  destruct (validateRecord_loop_cases (_validate fuel h) h (mr - 1) value
              (map fst (props_of h value)) (default empty_rule values) ∅)
    as [[r Hr]|(k & Hk)]; [congruence|].
  rewrite Hc in Hk. apply carried_OutOfFuel in Hk. by apply Hrec in Hk.
Qed.

Lemma schema_own_key rules p :
  p ∈ schema_keys rules ->
  exists r, schema_own rules p = Some r /\ (exists k, (k, r) ∈ rules).
Proof.
  induction rules as [|[k r] rules IH]; simpl.
  { intros Hin. by apply elem_of_nil in Hin. }
  intros Hin. destruct (String.eqb_spec k p) as [->|Hne].
  { exists r. split; [done|]. exists p. by left. }
  apply elem_of_cons in Hin as [->|Hin]; [done|].
  destruct (IH Hin) as (r' & Hr' & k' & Hk').
  exists r'. split; [done|]. exists k'. by right.
Qed.

Lemma schema_get_own rules p r :
  schema_own rules p = Some r -> schema_get rules p = Some r.
Proof. unfold schema_get. by intros ->. Qed.

Lemma schema_get_key rules p :
  p ∈ schema_keys rules ->
  exists r, schema_get rules p = Some r /\ (exists k, (k, r) ∈ rules).
Proof.
  intros Hin. destruct (schema_own_key rules p Hin) as (r & Hr & Hk).
  exists r. split; [by apply schema_get_own|done].
Qed.

Lemma schema_typed_get rules p :
  schema_typed rules = true -> p ∈ schema_keys rules ->
  exists r, schema_get rules p = Some r /\ rule_typed r = true.
Proof.
  intros Ht Hin. destruct (schema_get_key rules p Hin) as (r & Hr & k & Hk).
  exists r. split; [done|].
  unfold schema_typed in Ht. rewrite forallb_forall in Ht.
  apply (Ht (k, r)). by apply list_elem_of_In.
Qed.

(** A well-typed rule never makes [_validate] throw. *)
Lemma validate_typed_no_throw fuel : forall h value field rule mr e,
  rule_typed rule = true ->
  _validate fuel h value field (Some rule) mr <> Throw e.
Proof.
  induction fuel as [|fuel IH]; intros h value field rule mr e Ht; [done|].
  simpl. destruct (mr <? 0); [done|].
  destruct (optional rule && is_undefined value); [done|].
  destruct rule as [opt v o a rc s]. cbn [validate object array record simple].
  cbn [rule_typed] in Ht.
  apply andb_prop in Ht as [Ht Hrc]. apply andb_prop in Ht as [Ht Ha].
  apply andb_prop in Ht as [Hv Ho].
  destruct v as [[|f]|]; [done..|].
  destruct o as [[schema err]|].
  { destruct (negb (isObject value)); [done|].
    intros Hc. apply fmap_carried in Hc as [(a' & _ & ?)|Hc]; [done|].
    apply carried_Throw in Hc. unfold validateObject_with in Hc.
    destruct (validateObject_loop_cases (_validate fuel h) h (mr - 1) value
                (default [] schema) (schema_keys (default [] schema))
                {| result := Some ∅; error := None; errors := ∅ |})
      as [[a' Ha']|(p & Hin & Hp)]; [congruence|].
    rewrite Hc in Hp. apply carried_Throw in Hp.
    destruct schema as [rules|]; [|by apply elem_of_nil in Hin].
    change (default [] (Some rules)) with rules in *.
    destruct (schema_typed_get rules p Ho Hin) as (r & Hr & Hrt).
    rewrite Hr in Hp. by apply IH in Hp. }
  destruct a as [[items err min max]|].
  { destruct value; try done.
    destruct (when_bound _ _ _ _); [done|].
    unfold validateArray_with. intros Hc.
    destruct (validateArray_loop_cases (_validate fuel h) (mr - 1)
                (arr_items h a) 0 (default empty_rule items) [])
      as [[r Hr]|(x & j & Hx)]; [congruence|].
    rewrite Hc in Hx. apply carried_Throw in Hx. apply IH in Hx; [done|].
    by destruct items. }
  destruct rc as [[values err]|]; [|done].
  destruct (negb (isObject value)); [done|].
  intros Hc.
  destruct (validateRecord_loop_cases (_validate fuel h) h (mr - 1) value
              (map fst (props_of h value)) (default empty_rule values) ∅)
    as [[r Hr]|(k & Hk)]; [congruence|].
  rewrite Hc in Hk. apply carried_Throw in Hk. apply IH in Hk; [done|].
  by destruct values.
Qed.

(** Well typed and with enough fuel, [_validate] returns a result. *)
Lemma validate_returns h value field rule mr :
  rule_typed rule = true ->
  returns (_validate (enough_fuel mr) h value field (Some rule) mr).
Proof.
  intros Ht. apply returns_iff. split.
  - by apply validate_fuel_enough.
  - intros e. by apply validate_typed_no_throw.
Qed.


Lemma schema_own_Some_in rules p r :
  schema_own rules p = Some r -> p ∈ schema_keys rules /\ (p, r) ∈ rules.
Proof.
  induction rules as [|[k r'] rules IH]; simpl; [done|].
  destruct (String.eqb_spec k p) as [->|Hne].
  - intros [= ->]. split; by left.
  - intros Hr. destruct (IH Hr) as [Hk Hin]. split; by right.
Qed.

Lemma schema_own_None rules p :
  schema_own rules p = None <-> p ∉ schema_keys rules.
Proof.
  split.
  - intros Hn Hin. destruct (schema_own_key rules p Hin) as (r & Hr & _).
    congruence.
  - intros Hnin. destruct (schema_own rules p) as [r|] eqn:Hr; [|done].
    by apply schema_own_Some_in in Hr as [? _].
Qed.

(** What [rules[p]] is made of: a rule of the schema, or for a name the
    schema does not have a member of [Object.prototype], which acts as
    the rule [{}]. *)
Lemma schema_get_Some_in rules p r :
  schema_get rules p = Some r ->
  (p ∈ schema_keys rules /\ (p, r) ∈ rules) \/
  ((p ∉ schema_keys rules) /\ p ∈ Object_prototype_names /\ r = empty_rule).
Proof.
  unfold schema_get. destruct (schema_own rules p) as [r'|] eqn:Hown.
  - intros [= ->]. left. by apply schema_own_Some_in.
  - destruct (bool_decide_reflect (p ∈ Object_prototype_names)) as [Hin|];
      [|done].
    intros [= <-]. right. split; [by apply schema_own_None|done].
Qed.

Lemma schema_get_None rules p :
  schema_get rules p = None <->
  (p ∉ schema_keys rules) /\ (p ∉ Object_prototype_names).
Proof.
  unfold schema_get. split.
  - destruct (schema_own rules p) as [r'|] eqn:Hown; [done|].
    destruct (bool_decide_reflect (p ∈ Object_prototype_names)); [done|].
    intros _. split; [by apply schema_own_None|done].
  - intros [Hk Hn]. apply schema_own_None in Hk. rewrite Hk.
    by rewrite bool_decide_eq_false_2.
Qed.

Lemma schema_untyped_get rules p r :
  schema_get rules p = Some r -> rule_typed r = false ->
  schema_typed rules = false.
Proof.
  intros Hr Hrt. destruct (schema_typed rules) eqn:Ht; [|done].
  destruct (schema_get_Some_in _ _ _ Hr) as [[Hk _]|(_ & _ & ->)]; [|done].
  destruct (schema_typed_get _ _ Ht Hk) as (r' & Hr' & Hrt').
  congruence.
Qed.

(** The only exception [_validate] raises for a rule is the [TypeError]
    of a [validate] member that is no function. *)
Lemma validate_throws_TypeError fuel : forall h value field rule mr e,
  _validate fuel h value field (Some rule) mr = Throw e -> e = TypeError.
Proof.
  induction fuel as [|fuel IH]; intros h value field rule mr e; [done|].
  simpl. destruct (mr <? 0); [done|].
  destruct (optional rule && is_undefined value); [done|].
  destruct (validate rule) as [[|f]|]; [congruence|done|].
  destruct (ObjectReader.object rule) as [[schema err]|].
  { destruct (negb (isObject value)); [done|].
    intros Hc. apply fmap_carried in Hc as [(a' & _ & ?)|Hc]; [done|].
    apply carried_Throw in Hc. unfold validateObject_with in Hc.
    destruct (validateObject_loop_cases (_validate fuel h) h (mr - 1) value
                (default [] schema) (schema_keys (default [] schema))
                {| result := Some ∅; error := None; errors := ∅ |})
      as [[a' Ha']|(p & Hin & Hp)]; [congruence|].
    rewrite Hc in Hp. apply carried_Throw in Hp.
    destruct (schema_get_key _ _ Hin) as (r & Hr & _).
    rewrite Hr in Hp. by apply IH in Hp. }
  destruct (array rule) as [[items err min max]|].
  { destruct value; try done.
    destruct (when_bound _ _ _ _); [done|].
    unfold validateArray_with. intros Hc.
    destruct (validateArray_loop_cases (_validate fuel h) (mr - 1)
                (arr_items h a) 0 (default empty_rule items) [])
      as [[r Hr]|(x & j & Hx)]; [congruence|].
    rewrite Hc in Hx. apply carried_Throw in Hx. by apply IH in Hx. }
  destruct (record rule) as [[values err]|]; [|done].
  destruct (negb (isObject value)); [done|].
  intros Hc.
  destruct (validateRecord_loop_cases (_validate fuel h) h (mr - 1) value
              (map fst (props_of h value)) (default empty_rule values) ∅)
    as [[r Hr]|(k & Hk)]; [congruence|].
  rewrite Hc in Hk. apply carried_Throw in Hk. by apply IH in Hk.
Qed.

(** *** The loop of [_validateObject], turn by turn *)

Lemma validateObject_loop_returns rec h object rules mr out ps st :
  (forall p, p ∈ ps ->
     rec (get h object p) (FName p) (schema_get rules p) mr = Ret (out p)) ->
  validateObject_loop rec h object rules mr ps st = Ret (object_steps out ps st).
Proof.
  revert st. induction ps as [|p ps IH]; intros st Hout; simpl; [done|].
  rewrite Hout by (by left). cbn. apply IH. intros q Hq. apply Hout. by right.
Qed.

Lemma own_set_lookup {A} p (x : A) props q :
  own_set p x props !! q
  = if decide (q = p /\ q <> "__proto__") then Some x else props !! q.
Proof.
  unfold own_set. destruct (String.eqb_spec p "__proto__") as [->|Hp].
  - rewrite decide_False; [done|]. by intros [-> ?].
  - destruct (decide (q = p)) as [->|Hne].
    + rewrite lookup_insert_eq. by rewrite decide_True.
    + rewrite lookup_insert_ne by done. rewrite decide_False; [done|].
      by intros [? _].
Qed.

Lemma object_step_errors p v st :
  errors (object_step p v st)
  = match error_of v with
    | Some e => own_set p e (errors st)
    | None => errors st
    end.
Proof.
  unfold object_step, error_of. destruct (vr_error v) as [e|]; [|done].
  by destruct (truthy_sc e).
Qed.

Lemma object_step_result p v st :
  result (object_step p v st)
  = if has_error v then None
    else own_set p (vr_value v) <$> result st.
Proof.
  unfold object_step, has_error. destruct (vr_error v) as [e|]; [|done].
  by destruct (truthy_sc e).
Qed.

Lemma object_steps_cons out p ps st :
  object_steps out (p :: ps) st = object_steps out ps (object_step p (out p) st).
Proof. done. Qed.

(** The errors after the turns for [ps]: an entry for each failing key
    but [__proto__]. *)
Lemma object_steps_errors out ps st q :
  errors (object_steps out ps st) !! q
  = match error_of (out q) with
    | Some e => if decide (q ∈ ps /\ q <> "__proto__") then Some e
                else errors st !! q
    | None => errors st !! q
    end.
Proof.
  revert st. induction ps as [|p ps IH]; intros st.
  { cbn. destruct (error_of (out q)); [|done].
    rewrite decide_False; [done|]. intros [Hin _]. by apply elem_of_nil in Hin. }
  rewrite object_steps_cons, IH, object_step_errors.
  destruct (decide (q = p /\ q <> "__proto__")) as [[-> Hnp]|Hne].
  - destruct (error_of (out p)) as [e|]; [|done].
    rewrite own_set_lookup. rewrite (decide_True (P := p = p /\ _)) by done.
    rewrite (decide_True (P := p ∈ p :: ps /\ _)) by (split; [by left|done]).
    by destruct (decide (p ∈ ps /\ p <> "__proto__")).
  - assert (Hq : (match error_of (out p) with
                  | Some e => own_set p e (errors st)
                  | None => errors st
                  end) !! q = errors st !! q).
    { destruct (error_of (out p)); [|done].
      rewrite own_set_lookup. by rewrite decide_False. }
    rewrite Hq. destruct (error_of (out q)) as [e|]; [|done].
    destruct (decide (q ∈ ps /\ q <> "__proto__")) as [[Hin Hnp]|Hnin].
    + rewrite decide_True; [done|]. split; [by right|done].
    + rewrite decide_False; [done|].
      intros [Hin Hnp]. apply elem_of_cons in Hin as [->|?].
      * by apply Hne.
      * by apply Hnin.
Qed.

Lemma object_steps_result_None out ps st :
  result st = None -> result (object_steps out ps st) = None.
Proof.
  revert st. induction ps as [|p ps IH]; intros st Hst; [done|].
  rewrite object_steps_cons. apply IH.
  rewrite object_step_result, Hst. by destruct (has_error _).
Qed.

Lemma object_steps_result_failed out ps st p :
  p ∈ ps -> has_error (out p) = true ->
  result (object_steps out ps st) = None.
Proof.
  revert st. induction ps as [|q ps IH]; intros st Hin Herr.
  { by apply elem_of_nil in Hin. }
  rewrite object_steps_cons. apply elem_of_cons in Hin as [->|Hin].
  - apply object_steps_result_None. by rewrite object_step_result, Herr.
  - by apply IH.
Qed.

(** The result after the turns for [ps], all clean: a property for
    each key but [__proto__]. *)
Lemma object_steps_result_clean out ps st o :
  (forall p, p ∈ ps -> has_error (out p) = false) ->
  result st = Some o ->
  exists o', result (object_steps out ps st) = Some o' /\
    forall q, o' !! q = if decide (q ∈ ps /\ q <> "__proto__")
                        then Some (vr_value (out q))
                        else o !! q.
Proof.
  revert st o. induction ps as [|p ps IH]; intros st o Hclean Hst.
  { exists o. split; [done|]. intros q.
    rewrite decide_False; [done|]. intros [Hin _]. by apply elem_of_nil in Hin. }
  destruct (IH (object_step p (out p) st) (own_set p (vr_value (out p)) o))
    as (o' & Ho' & Hlook).
  { intros q Hq. apply Hclean. by right. }
  { rewrite object_step_result, Hclean by (by left). by rewrite Hst. }
  exists o'. split; [by rewrite object_steps_cons|]. intros q. rewrite Hlook.
  destruct (decide (q ∈ ps /\ q <> "__proto__")) as [[Hin Hnp]|Hnin].
  { rewrite decide_True; [done|]. split; [by right|done]. }
  rewrite own_set_lookup.
  destruct (decide (q = p /\ q <> "__proto__")) as [[-> Hnp]|Hne].
  - rewrite decide_True; [done|]. split; [by left|done].
  - rewrite decide_False; [done|].
    intros [Hin Hnp]. apply elem_of_cons in Hin as [->|?].
    + by apply Hne.
    + by apply Hnin.
Qed.

Lemma has_error_error_of v :
  has_error v = true <-> exists e, vr_error v = Some e /\ truthy_sc e = true.
Proof.
  unfold has_error. destruct (vr_error v) as [e|].
  - split; [eauto|]. by intros (e' & [= <-] & He).
  - split; [done|]. by intros (e' & ? & _).
Qed.


(** [read] on an object, for a well-typed schema: every field's call
    returns, and the answer is made of the state after all the turns. *)
Lemma read_unfold this h object :
  schema_typed (schema this) = true ->
  isObject object = true ->
  exists out,
    (forall p, p ∈ schema_keys (schema this) ->
               field_result this h object p = Ret (out p)) /\
    let st := object_steps out (schema_keys (schema this))
                {| result := Some ∅; error := None; errors := ∅ |} in
    read this h object = Ret (result st, errors st).
Proof.
  intros Ht Hobj.
  set (out p := match field_result this h object p with
                | Ret v => v
                | _ => ok undefined
                end).
  assert (Hout : forall p, p ∈ schema_keys (schema this) ->
                           field_result this h object p = Ret (out p)).
  { intros p Hp. destruct (schema_typed_get _ _ Ht Hp) as (r & Hr & Hrt).
    unfold out, field_result. rewrite Hr.
    by destruct (validate_returns h (get h object p) (FName p) r MAX_RECURSE Hrt)
      as [v ->]. }
  exists out. split; [done|]. cbn zeta.
  unfold read, read_with, _validateObject, validateObject_with.
  rewrite Hobj. cbn [negb].
  by rewrite (validateObject_loop_returns _ _ _ _ _ out _ _ Hout).
Qed.

Lemma in_keys_not_proto (keys : list string) p :
  "__proto__" ∉ keys -> p ∈ keys -> p ∈ keys /\ p <> "__proto__".
Proof. intros Hnp Hp. split; [done|]. by intros ->. Qed.

(** C1 (as amended). For a schema whose [validate] members are functions
    and that has no field named [__proto__], and an object input,
    [read] returns the parsed object exactly when every schema field
    validates cleanly, and the errors are empty exactly then; the
    parsed object has every schema field, with the field's validated
    value; a failing field makes the value undefined and has its
    [Error] among the errors, whichever other fields fail; a parsed
    object never comes with errors. *)
Theorem read_all_or_nothing this h object :
  schema_typed (schema this) = true ->
  "__proto__" ∉ schema_keys (schema this) ->
  isObject object = true ->
  exists value errs,
    read this h object = Ret (value, errs) /\
    (is_Some value <->
       forall p, p ∈ schema_keys (schema this) ->
                 validates_cleanly this h object p) /\
    (errs = ∅ <->
       forall p, p ∈ schema_keys (schema this) ->
                 validates_cleanly this h object p) /\
    (forall o, value = Some o ->
       forall p, p ∈ schema_keys (schema this) ->
         exists v, field_result this h object p = Ret v /\
                   o !! p = Some (vr_value v)) /\
    (forall p e, p ∈ schema_keys (schema this) ->
       fails_with this h object p e ->
       value = None /\ errs !! p = Some (GenericError (String_of e))) /\
    (is_Some value -> errs = ∅).
Proof.
  intros Ht Hnp Hobj.
  destruct (read_unfold this h object Ht Hobj) as (out & Hout & Hread).
  cbn zeta in Hread.
  set (keys := schema_keys (schema this)) in *.
  set (st := object_steps out keys _) in Hread.
  exists (result st), (errors st). split; [done|].
  assert (Hclean : forall p, p ∈ keys ->
            (validates_cleanly this h object p <-> has_error (out p) = false)).
  { intros p Hp. unfold validates_cleanly. rewrite (Hout p Hp). split.
    - by intros (v & [= <-] & Hv).
    - intros Hv. by exists (out p). }
  assert (Hfails : forall p e, p ∈ keys -> fails_with this h object p e ->
            error_of (out p) = Some (GenericError (String_of e)) /\
            has_error (out p) = true).
  { intros p e Hp (v & Hv & He & Htr). rewrite (Hout p Hp) in Hv.
    injection Hv as <-. unfold error_of, has_error. by rewrite He, Htr. }
  assert (Hsome : is_Some (result st) <->
                  forall p, p ∈ keys -> has_error (out p) = false).
  { split.
    - intros [o Ho] p Hp. destruct (has_error (out p)) eqn:He; [|done].
      unfold st in Ho. by rewrite (object_steps_result_failed out keys _ p Hp He) in Ho.
    - intros Hall.
      destruct (object_steps_result_clean out keys
                  {| result := Some ∅; error := None; errors := ∅ |} ∅ Hall eq_refl)
        as (o' & Ho' & _).
      by exists o'. }
  assert (Hempty : errors st = ∅ <->
                   forall p, p ∈ keys -> has_error (out p) = false).
  { split.
    - intros He p Hp. destruct (has_error (out p)) eqn:Hp'; [|done].
      apply has_error_error_of in Hp' as (e & He1 & He2).
      pose proof (object_steps_errors out keys
                    {| result := Some ∅; error := None; errors := ∅ |} p) as Hl.
      fold st in Hl. rewrite He, lookup_empty in Hl.
      unfold error_of in Hl. rewrite He1, He2 in Hl.
      by rewrite decide_True in Hl by (by apply in_keys_not_proto).
    - intros Hall. apply map_eq. intros q. rewrite lookup_empty.
      unfold st. rewrite object_steps_errors. cbn [errors].
      destruct (error_of (out q)) as [e|] eqn:Hq; [|apply lookup_empty].
      destruct (decide (q ∈ keys /\ q <> "__proto__")) as [[Hin _]|];
        [|apply lookup_empty].
      specialize (Hall q Hin). unfold error_of in Hq. unfold has_error in Hall.
      destruct (vr_error (out q)); [|done]. by rewrite Hall in Hq. }
  split; [|split; [|split; [|split]]].
  - rewrite Hsome. split; intros Hall p Hp; [apply Hclean|apply Hclean, Hall]; auto.
  - rewrite Hempty. split; intros Hall p Hp; [apply Hclean|apply Hclean, Hall]; auto.
  - intros o Ho p Hp. exists (out p). split; [by apply Hout|].
    assert (Hall : forall p, p ∈ keys -> has_error (out p) = false).
    { apply Hsome. by exists o. }
    destruct (object_steps_result_clean out keys
                {| result := Some ∅; error := None; errors := ∅ |} ∅ Hall eq_refl)
      as (o' & Ho' & Hlook).
    fold st in Ho'. rewrite Ho in Ho'. injection Ho' as <-.
    rewrite Hlook. by rewrite decide_True by (by apply in_keys_not_proto).
  - intros p e Hp Hf. destruct (Hfails p e Hp Hf) as [He Herr]. split.
    + unfold st. by apply (object_steps_result_failed out keys _ p).
    + unfold st. rewrite object_steps_errors, He.
      by rewrite decide_True by (by apply in_keys_not_proto).
  - intros Hs. apply Hempty, Hsome, Hs.
Qed.


(** *** What [read] answers when it returns *)

Lemma validateObject_loop_Ret_inv rec h object rules mr ps st st' :
  validateObject_loop rec h object rules mr ps st = Ret st' ->
  forall p, p ∈ ps ->
    returns (rec (get h object p) (FName p) (schema_get rules p) mr).
Proof.
  revert st. induction ps as [|q ps IH]; intros st Hloop p Hp.
  { by apply elem_of_nil in Hp. }
  simpl in Hloop.
  destruct (rec (get h object q) (FName q) (schema_get rules q) mr)
    as [v| |] eqn:Hq; cbn in Hloop; [|done..].
  apply elem_of_cons in Hp as [->|Hp]; [by exists v|].
  by apply (IH _ Hloop).
Qed.

Lemma read_Ret_unfold this h object r :
  isObject object = true ->
  read this h object = Ret r ->
  exists out,
    (forall p, p ∈ schema_keys (schema this) ->
               field_result this h object p = Ret (out p)) /\
    let st := object_steps out (schema_keys (schema this))
                {| result := Some ∅; error := None; errors := ∅ |} in
    r = (result st, errors st).
Proof.
  intros Hobj Hread.
  unfold read, read_with, _validateObject, validateObject_with in Hread.
  rewrite Hobj in Hread. cbn [negb] in Hread.
  destruct (validateObject_loop _ _ _ _ _ _ _) as [st'| |] eqn:Hloop;
    cbn in Hread; [|done..].
  set (out p := match field_result this h object p with
                | Ret v => v
                | _ => ok undefined
                end).
  assert (Hout : forall p, p ∈ schema_keys (schema this) ->
                           field_result this h object p = Ret (out p)).
  { intros p Hp.
    destruct (validateObject_loop_Ret_inv _ _ _ _ _ _ _ _ Hloop p Hp) as [v Hv].
    unfold out, field_result. by rewrite Hv. }
  exists out. split; [done|]. cbn zeta.
  rewrite (validateObject_loop_returns _ _ _ _ _ out _ _ Hout) in Hloop.
  injection Hloop as <-. by injection Hread as <-.
Qed.

Lemma validate_unfold fuel h value field rule mr :
  0 <= mr ->
  (optional rule && is_undefined value) = false ->
  validate rule = None ->
  _validate (S fuel) h value field (Some rule) mr =
    match object rule with
    | Some (ObjRule schema err) =>
        if negb (isObject value) then Ret (_makeError err None)
        else as_result <$> _validateObject fuel h value (default [] schema) (mr - 1)
    | None =>
      match array rule with
      | Some (ArrRule items err min max) =>
          match value with
          | VArray a =>
              let len := number_of_nat (length (arr_items h a)) in
              match
                when_bound min (fun l => len <? l)%float err
                (when_bound max (fun l => l <? len)%float err
                (inr (LValue (VArray a))))
              with
              | inl e => Ret e
              | inr _ =>
                  _validateArray fuel h (arr_items h a)
                    (default empty_rule items) (mr - 1)
              end
          | _ => Ret (_makeError err None)
          end
      | None =>
        match record rule with
        | Some (RecRule values err) =>
            if negb (isObject value) then Ret (_makeError err None)
            else validateRecord_loop (_validate fuel h) h value
                   (map fst (props_of h value))
                   (default empty_rule values) (mr - 1) ∅
        | None => Ret (validate_simple h value (simple rule))
        end
      end
    end.
Proof.
  intros Hmr Hopt Hval. cbn [_validate].
  destruct (Z.ltb_spec mr 0) as [?|_]; [lia|].
  rewrite Hopt, Hval. done.
Qed.

Lemma makeError_has_error a b : has_error (_makeError a b) = true.
Proof.
  unfold _makeError, has_error, failure. cbn [vr_error].
  destruct (sc_or a b) as [e|]; [|done].
  by destruct (truthy_sc e) eqn:He.
Qed.

Lemma step_inl {R} (rule : option R) check e :
  step rule check (inl e) = inl e.
Proof. by destruct rule. Qed.

(** The simple rules on [undefined]: any type rule rejects it. *)
Lemma validate_simple_undefined_clean h s :
  has_error (validate_simple h VUndefined s) = false ->
  booleanRule s = None /\ stringRule s = None /\
  numberRule s = None /\ dateRule s = None /\
  value_rule_accepts_undefined s = true /\
  validate_simple h VUndefined s = ok undefined.
Proof.
  unfold validate_simple, value_rule_accepts_undefined.
  destruct (booleanRule s) as [b|].
  { cbn [step check_boolean]. by rewrite makeError_has_error. }
  destruct (stringRule s) as [st|].
  { cbn [step check_string]. by rewrite makeError_has_error. }
  destruct (numberRule s) as [n|].
  { cbn [step check_number]. by rewrite makeError_has_error. }
  destruct (dateRule s) as [d|].
  { cbn [step check_date time_of]. by rewrite makeError_has_error. }
  cbn [step]. destruct (valueRule s) as [vr|]; [|done].
  unfold check_value.
  destruct (includes (default [] (value_match vr)) VUndefined); [done|].
  by rewrite makeError_has_error.
Qed.

Lemma validate_simple_undefined_accepts h s :
  booleanRule s = None -> stringRule s = None ->
  numberRule s = None -> dateRule s = None ->
  value_rule_accepts_undefined s = true ->
  validate_simple h VUndefined s = ok undefined.
Proof.
  unfold validate_simple, value_rule_accepts_undefined.
  intros -> -> -> -> Hv. cbn [step].
  destruct (valueRule s) as [vr|]; [|done].
  unfold check_value. by rewrite Hv.
Qed.

Lemma field_result_unfold this h object p rule :
  schema_get (schema this) p = Some rule ->
  field_result this h object p
  = _validate (S (Z.to_nat (MAX_RECURSE + 1))) h (get h object p) (FName p)
      (Some rule) MAX_RECURSE.
Proof. intros Hr. unfold field_result. by rewrite Hr. Qed.

(** A field for which the input gives [undefined]: an optional rule
    lets it through as [undefined]; a rule that is not optional and has
    no validator lets it through exactly when it [accepts_undefined]. *)
Lemma field_result_absent this h object p rule :
  schema_get (schema this) p = Some rule ->
  get h object p = VUndefined ->
  (optional rule = true -> field_result this h object p = Ret (ok undefined)) /\
  (optional rule = false -> validate rule = None ->
     (validates_cleanly this h object p <-> accepts_undefined rule = true) /\
     (validates_cleanly this h object p ->
        field_result this h object p = Ret (ok undefined))).
Proof.
  intros Hr Habs. rewrite (field_result_unfold _ _ _ _ _ Hr), Habs.
  unfold validates_cleanly.
  rewrite (field_result_unfold _ _ _ _ _ Hr), Habs.
  split.
  { intros Hopt. cbn [_validate]. by rewrite Hopt. }
  intros Hopt Hval. rewrite validate_unfold by (rewrite ?Hopt; done).
  unfold accepts_undefined.
  destruct (ObjectReader.object rule) as [[schema err]|].
  { cbn [isObject negb].
    split; [split; [|done]|]; intros (v & [= <-] & Hv);
      by rewrite makeError_has_error in Hv. }
  destruct (array rule) as [[items err min max]|].
  { split; [split; [|done]|]; intros (v & [= <-] & Hv);
      by rewrite makeError_has_error in Hv. }
  destruct (record rule) as [[values err]|].
  { cbn [isObject negb].
    split; [split; [|done]|]; intros (v & [= <-] & Hv);
      by rewrite makeError_has_error in Hv. }
  split; [split|].
  - intros (v & [= <-] & Hv).
    destruct (validate_simple_undefined_clean h _ Hv) as (-> & -> & -> & -> & Hacc & _).
    done.
  - intros Hacc.
    destruct (booleanRule (simple rule)) eqn:Hb; [done|].
    destruct (stringRule (simple rule)) eqn:Hs; [done|].
    destruct (numberRule (simple rule)) eqn:Hn; [done|].
    destruct (dateRule (simple rule)) eqn:Hd; [done|].
    exists (ok undefined). split; [|done].
    by rewrite validate_simple_undefined_accepts.
  - intros (v & [= <-] & Hv).
    by destruct (validate_simple_undefined_clean h _ Hv) as (_ & _ & _ & _ & _ & ->).
Qed.

(** C10 (as amended). For a schema with no field named [__proto__], the
    object a successful [read] returns has exactly the schema's keys,
    and only schema keys can have an error; a field for which the
    input gives [undefined] (it has no such property, its own or
    inherited) is validated against [undefined]: it passes as
    [undefined] when its rule is optional, and for a rule that is not
    optional (and has no validator) exactly when the rule accepts
    [undefined], again as [undefined]. *)
Theorem read_result_has_schema_keys this h object value errs :
  isObject object = true ->
  "__proto__" ∉ schema_keys (schema this) ->
  read this h object = Ret (value, errs) ->
  (forall o, value = Some o ->
     forall q, is_Some (o !! q) <-> q ∈ schema_keys (schema this)) /\
  (forall q, is_Some (errs !! q) -> q ∈ schema_keys (schema this)) /\
  (forall p rule,
     schema_get (schema this) p = Some rule ->
     get h object p = VUndefined ->
     (optional rule = true ->
        field_result this h object p = Ret (ok undefined)) /\
     (optional rule = false -> validate rule = None ->
        (validates_cleanly this h object p <-> accepts_undefined rule = true) /\
        (validates_cleanly this h object p ->
           field_result this h object p = Ret (ok undefined)))).
Proof.
  intros Hobj Hnp Hread.
  destruct (read_Ret_unfold this h object _ Hobj Hread) as (out & Hout & Hr).
  cbn zeta in Hr. injection Hr as -> ->.
  set (keys := schema_keys (schema this)) in *.
  split; [|split].
  - intros o Ho q.
    assert (Hall : forall p, p ∈ keys -> has_error (out p) = false).
    { intros p Hp. destruct (has_error (out p)) eqn:He; [|done].
      by rewrite (object_steps_result_failed out keys _ p Hp He) in Ho. }
    destruct (object_steps_result_clean out keys
                {| result := Some ∅; error := None; errors := ∅ |} ∅ Hall eq_refl)
      as (o' & Ho' & Hlook).
    rewrite Ho in Ho'. injection Ho' as <-. rewrite Hlook.
    destruct (decide (q ∈ keys /\ q <> "__proto__")) as [[Hin _]|Hnin].
    + split; [done|]. by eexists.
    + rewrite lookup_empty. split; [by intros [? ?]|].
      intros Hin. by destruct Hnin; apply in_keys_not_proto.
  - intros q [e He]. rewrite object_steps_errors in He. cbn [errors] in He.
    destruct (error_of (out q)); [|by rewrite lookup_empty in He].
    destruct (decide (q ∈ keys /\ q <> "__proto__")) as [[Hin _]|];
      [done|by rewrite lookup_empty in He].
  - intros p rule. apply field_result_absent.
Qed.


(** *** Exceptions *)

Lemma read_not_object this h object :
  isObject object = false ->
  read this h object = Ret (None, {["_" := TypeError]}).
Proof. intros Hobj. unfold read, read_with. by rewrite Hobj. Qed.

Lemma read_typed_returns this h object :
  schema_typed (schema this) = true -> returns (read this h object).
Proof.
  intros Ht. destruct (isObject object) eqn:Hobj.
  - destruct (read_unfold this h object Ht Hobj) as (out & _ & Hread).
    by eexists.
  - rewrite read_not_object by done. by eexists.
Qed.

(** What [read] and [readField] can throw, and when *)
Lemma read_throws this h object e :
  read this h object = Throw e ->
  e = TypeError /\ schema_typed (schema this) = false.
Proof.
  intros Hthrow. split.
  - unfold read, read_with, _validateObject, validateObject_with in Hthrow.
    destruct (negb (isObject object)); [done|].
    destruct (validateObject_loop_cases (_validate (enough_fuel MAX_RECURSE) h)
                h MAX_RECURSE object (schema this) (schema_keys (schema this))
                {| result := Some ∅; error := None; errors := ∅ |})
      as [[st Hst]|(p & Hin & Hp)].
    { by rewrite Hst in Hthrow. }
    destruct (validateObject_loop _ _ _ _ _ _ _) as [st|e'|]; cbn in Hthrow;
      [done| |done].
    injection Hthrow as ->. apply carried_Throw in Hp.
    destruct (schema_get_key _ _ Hin) as (r & Hr & _). rewrite Hr in Hp.
    by apply validate_throws_TypeError in Hp.
  - destruct (schema_typed (schema this)) eqn:Ht; [|done].
    destruct (read_typed_returns this h object Ht) as [r Hr]. congruence.
Qed.

Lemma readField_throws this h object field e :
  readField this h object field = Throw e ->
  (e = RangeError /\ schema_get (schema this) field = None) \/
  (e = TypeError /\ schema_typed (schema this) = false).
Proof.
  unfold readField, readField_with.
  destruct (negb (isObject object)); [done|].
  destruct (schema_get (schema this) field) as [r|] eqn:Hr.
  - intros Hthrow. right.
    destruct (_validate _ _ _ _ _ _) as [v|e'|] eqn:Hv; cbn in Hthrow.
    { destruct (vr_error v) as [err|]; [by destruct (truthy_sc err)|done]. }
    2:{ done. }
    injection Hthrow as ->. split.
    + by apply validate_throws_TypeError in Hv.
    + apply (schema_untyped_get _ _ _ Hr).
      destruct (rule_typed r) eqn:Hrt; [|done].
      by apply validate_typed_no_throw in Hv.
  - intros Hthrow. left. cbn in Hthrow. by injection Hthrow as <-.
Qed.

(** C5 (as amended). For a well-typed schema, [read] returns for every
    input, and [readField] returns for every input and every field of
    the schema: a pair whose value and error are never both defined, the
    error being the [Error] of the field's failure when the field
    fails, and [TypeError] (returned, not thrown) for an input that is
    no object.  For any schema, the only exceptions are the [TypeError]
    of a [validate] member that is no function and, from [readField],
    the [RangeError] of a field the schema has no rule for. *)
Theorem validation_failures_are_returned this h object :
  (schema_typed (schema this) = true ->
   returns (read this h object) /\
   forall field, field ∈ schema_keys (schema this) ->
     exists v e,
       readField this h object field = Ret (v, e) /\
       (e <> None -> v = undefined) /\
       (isObject object = false -> e = Some TypeError) /\
       (isObject object = true ->
          forall err, fails_with this h object field err ->
                      e = Some (GenericError (String_of err))) /\
       (isObject object = true ->
          validates_cleanly this h object field -> e = None)) /\
  (forall e, read this h object = Throw e ->
     e = TypeError /\ schema_typed (schema this) = false) /\
  (forall field e, readField this h object field = Throw e ->
     (e = RangeError /\ schema_get (schema this) field = None) \/
     (e = TypeError /\ schema_typed (schema this) = false)).
Proof.
  split; [|split; [apply read_throws|apply readField_throws]].
  intros Ht. split; [by apply read_typed_returns|].
  intros field Hin. unfold readField, readField_with.
  destruct (isObject object) eqn:Hobj; cbn [negb].
  2:{ exists undefined, (Some TypeError). by repeat split. }
  destruct (schema_typed_get _ _ Ht Hin) as (r & Hr & Hrt).
  assert (Hfr : field_result this h object field
                = _validate (enough_fuel MAX_RECURSE) h (get h object field)
                    (FName field) (schema_get (schema this) field) MAX_RECURSE)
    by done.
  destruct (validate_returns h (get h object field) (FName field) r
              MAX_RECURSE Hrt) as [v Hv].
  rewrite <- Hr in Hv. rewrite Hv in Hfr |- *. cbn.
  destruct (vr_error v) as [e|] eqn:He; [destruct (truthy_sc e) eqn:Htr|].
  - exists undefined, (Some (GenericError (String_of e))).
    split; [done|]. split; [done|]. split; [done|]. split.
    + intros _ err (v' & Hv' & He' & _). rewrite Hfr in Hv'.
      injection Hv' as <-. rewrite He in He'. by injection He' as <-.
    + intros _ (v' & Hv' & Hclean). rewrite Hfr in Hv'. injection Hv' as <-.
      unfold has_error in Hclean. by rewrite He, Htr in Hclean.
  - exists (vr_value v), None. split; [done|]. split; [done|].
    split; [done|]. split; [|done].
    intros _ err (v' & Hv' & He' & Htr'). rewrite Hfr in Hv'.
    injection Hv' as <-. rewrite He in He'. injection He' as <-.
    by rewrite Htr in Htr'.
  - exists (vr_value v), None. split; [done|]. split; [done|].
    split; [done|]. split; [|done].
    intros _ err (v' & Hv' & He' & _). rewrite Hfr in Hv'.
    injection Hv' as <-. by rewrite He in He'.
Qed.

(** C8 (as amended). When [JSON.parse] throws, [readJSONString] returns
    [undefined] and the errors that map ["_"], and nothing else, to
    what was thrown, whatever the schema; when it parses, the answer is
    that of [read] on the parsed value whenever [read] returns one, as
    it does for every well-typed schema and whenever the parsed value
    is no object; and when [read] throws, the answer is [undefined] and
    the errors that map ["_"] to what [read] threw. *)
Theorem readJSONString_parse_error_or_read this json :
  (forall err, JSON_parse json = inl err ->
     forall any_schema,
       readJSONString {| schema := any_schema |} json
       = Ret (None, {["_" := err]})) /\
  (forall h object, JSON_parse json = inr (h, object) ->
     (forall r, read this h object = Ret r -> readJSONString this json = Ret r) /\
     (schema_typed (schema this) = true \/ isObject object = false ->
      returns (read this h object) /\
      readJSONString this json = read this h object) /\
     (forall e, read this h object = Throw e ->
        e = TypeError /\ schema_typed (schema this) = false /\
        readJSONString this json = Ret (None, {["_" := e]}))).
Proof.
  unfold readJSONString, readJSONString_with. split.
  - by intros err ->.
  - intros h object ->. fold (read this h object). split; [|split].
    + by intros r ->.
    + intros Hor.
      assert (Hret : returns (read this h object)).
      { destruct Hor as [Ht|Hobj]; [by apply read_typed_returns|].
        rewrite read_not_object by done. by eexists. }
      split; [done|]. by destruct Hret as [r ->].
    + intros e He. destruct (read_throws _ _ _ _ He) as [-> Ht].
      split; [done|]. split; [done|]. by rewrite He.
Qed.

(** *** The depth budget *)

Lemma read_with_fuel_stable fuel this h object :
  (enough_fuel MAX_RECURSE <= fuel)%nat ->
  read_with fuel this h object = read this h object.
Proof.
  intros Hf. unfold read, read_with, _validateObject, validateObject_with.
  destruct (negb (isObject object)); [done|].
  rewrite (validateObject_loop_ext (_validate fuel h)
             (_validate (enough_fuel MAX_RECURSE) h)); [done|].
  intros v f r. by apply validate_fuel_stable.
Qed.

Lemma read_not_OutOfFuel this h object : read this h object <> OutOfFuel.
Proof.
  unfold read, read_with, _validateObject, validateObject_with.
  destruct (negb (isObject object)); [done|].
  intros Hc.
  destruct (validateObject_loop_cases (_validate (enough_fuel MAX_RECURSE) h)
              h MAX_RECURSE object (schema this) (schema_keys (schema this))
              {| result := Some ∅; error := None; errors := ∅ |})
    as [[st Hst]|(p & _ & Hp)].
  { by rewrite Hst in Hc. }
  destruct (validateObject_loop _ _ _ _ _ _ _); cbn in Hc; [done..|].
  apply carried_OutOfFuel in Hp. by apply validate_fuel_enough in Hp.
Qed.

Lemma validate_call_nested h mr :
  0 <= mr ->
  forall v f r,
    _validate (Z.to_nat (mr + 1)) h v f r (mr - 1) = validate_call h v f r (mr - 1).
Proof.
  intros Hmr v f r. unfold validate_call.
  apply validate_fuel_stable; unfold enough_fuel; lia.
Qed.

(** C2. Validation terminates, bounded by a budget of 100: the fuel
    [enough_fuel] of the budget is always enough for [_validate], and so
    [read] (which starts with [MAX_RECURSE] = 100) always has an answer,
    the same with any more fuel; a call whose budget is used up returns
    the error result; and a call for an object, array or record rule
    makes its nested calls with the budget less one. *)
Theorem validation_is_depth_bounded :
  MAX_RECURSE = 100 /\
  (forall fuel h value field rule mr,
     (enough_fuel mr <= fuel)%nat ->
     _validate fuel h value field rule mr = validate_call h value field rule mr /\
     validate_call h value field rule mr <> OutOfFuel) /\
  (forall fuel this h object,
     (enough_fuel MAX_RECURSE <= fuel)%nat ->
     read_with fuel this h object = read this h object /\
     read this h object <> OutOfFuel) /\
  (forall h value field rule mr,
     mr < 0 ->
     validate_call h value field (Some rule) mr
     = Ret (failure (SCString DEFAULT_ERROR))) /\
  (forall h value field rule mr,
     0 <= mr ->
     (optional rule && is_undefined value) = false ->
     validate rule = None ->
     (forall schema err,
        ObjectReader.object rule = Some (ObjRule schema err) ->
        isObject value = true ->
        validate_call h value field (Some rule) mr
        = as_result <$> validateObject_with (validate_call h) h value
                          (default [] schema) (mr - 1)) /\
     (forall items err min max a,
        ObjectReader.object rule = None ->
        array rule = Some (ArrRule items err min max) ->
        value = VArray a ->
        when_bound min
          (fun l => number_of_nat (length (arr_items h a)) <? l)%float err
          (when_bound max
             (fun l => l <? number_of_nat (length (arr_items h a)))%float err
             (inr (LValue value))) = inr (LValue value) ->
        validate_call h value field (Some rule) mr
        = validateArray_with (validate_call h) (arr_items h a)
            (default empty_rule items) (mr - 1)) /\
     (forall values err,
        ObjectReader.object rule = None ->
        array rule = None ->
        record rule = Some (RecRule values err) ->
        isObject value = true ->
        validate_call h value field (Some rule) mr
        = validateRecord_loop (validate_call h) h value
            (map fst (props_of h value)) (default empty_rule values)
            (mr - 1) ∅)).
Proof.
  split; [done|]. split; [|split; [|split]].
  - intros fuel h value field rule mr Hf. split.
    + by apply validate_fuel_stable.
    + by apply validate_fuel_enough.
  - intros fuel this h object Hf. split.
    + by apply read_with_fuel_stable.
    + apply read_not_OutOfFuel.
  - intros h value field rule mr Hmr. unfold validate_call, enough_fuel.
    cbn [_validate]. by destruct (Z.ltb_spec mr 0) as [_|?]; [|lia].
  - intros h value field rule mr Hmr Hopt Hval.
    unfold validate_call at 1 3 5. unfold enough_fuel.
    rewrite validate_unfold by done.
    split; [|split].
    + intros schema err -> Hobj. rewrite Hobj. cbn [negb].
      unfold _validateObject, validateObject_with.
      by rewrite (validateObject_loop_ext _ (validate_call h) h (mr - 1)
                    (validate_call_nested h mr Hmr)).
    + intros items err min max a -> -> -> Hb. cbn zeta. rewrite Hb.
      unfold _validateArray, validateArray_with.
      by rewrite (validateArray_loop_ext _ (validate_call h) (mr - 1)
                    (validate_call_nested h mr Hmr)).
    + intros values err -> -> -> Hobj. rewrite Hobj. cbn [negb].
      by rewrite (validateRecord_loop_ext _ (validate_call h) h (mr - 1)
                    (validate_call_nested h mr Hmr)).
Qed.

End ObjectReaderFacts.

(** ** ManagedEvent *)

Section ManagedEventFacts.
Import ManagedEvent.

(** Induction along the [inner] chain *)
Lemma ManagedEvent_inner_ind (P : ManagedEvent -> Prop) :
  (forall n s d dl np f, P (Event n s d dl None np f)) ->
  (forall n s d dl e np f, P e -> P (Event n s d dl (Some e) np f)) ->
  forall e, P e.
Proof.
  intros Hlast Hstep. fix IH 1. intros [n s d dl [e|] np f].
  - apply Hstep, IH.
  - apply Hlast.
Qed.

Lemma findDelegate_unfold e type :
  findDelegate e type
  = if delegate_is type e then delegate e
    else match inner e with
         | Some e' => findDelegate e' type
         | None => None
         end.
Proof.
  destruct e as [n s d dl i np f]. unfold delegate_is. cbn.
  destruct dl as [o|]; [|done]. by destruct (instanceof o type).
Qed.

Lemma chain_unfold e :
  chain e = e :: match inner e with Some e' => chain e' | None => [] end.
Proof. by destruct e. Qed.

Lemma findDelegate_refines e type :
  findDelegate e type = first_matching_delegate e type.
Proof.
  unfold first_matching_delegate.
  induction e as [n s d dl np f|n s d dl e np f IH] using ManagedEvent_inner_ind;
    rewrite findDelegate_unfold, chain_unfold; cbn [inner List.find].
  - by destruct (delegate_is type _).
  - destruct (delegate_is type _); [done|]. apply IH.
Qed.

(** C7. [findDelegate] returns the delegate of the first event of the
    chain [e, e.inner, ...] whose delegate is an instance of the type,
    and [undefined] when no event of the chain has one. *)
Theorem findDelegate_first_in_chain e type :
  findDelegate e type = first_matching_delegate e type /\
  (findDelegate e type = None <->
     forall e', e' ∈ chain e -> delegate_is type e' = false) /\
  (forall d, findDelegate e type = Some d ->
     exists i e',
       chain e !! i = Some e' /\ delegate e' = Some d /\
       instanceof d type = true /\
       forall j e'', (j < i)%nat -> chain e !! j = Some e'' ->
                     delegate_is type e'' = false).
Proof.
  split; [apply findDelegate_refines|].
  induction e as [n s d dl np f|n s d dl e np f IH] using ManagedEvent_inner_ind;
    rewrite findDelegate_unfold, chain_unfold; cbn [inner].
  - set (ev := Event n s d dl None np f).
    destruct (delegate_is type ev) eqn:Hd.
    + split.
      * split.
        -- intros Hn. unfold delegate_is in Hd. by rewrite Hn in Hd.
        -- intros Hall. rewrite Hall in Hd; [done|by left].
      * intros o Ho. exists 0%nat, ev. split; [done|]. split; [done|].
        unfold delegate_is in Hd. rewrite Ho in Hd. split; [done|]. lia.
    + split; [|done]. split; [|done]. intros _ e' He'.
      apply list_elem_of_singleton in He'. by subst.
  - set (ev := Event n s d dl (Some e) np f).
    destruct IH as [IHnone IHsome].
    destruct (delegate_is type ev) eqn:Hd.
    + split.
      * split.
        -- intros Hn. unfold delegate_is in Hd. by rewrite Hn in Hd.
        -- intros Hall. rewrite Hall in Hd; [done|by left].
      * intros o Ho. exists 0%nat, ev. split; [done|]. split; [done|].
        unfold delegate_is in Hd. rewrite Ho in Hd. split; [done|]. lia.
    + split.
      * rewrite IHnone. split.
        -- intros Hall e' He'. apply elem_of_cons in He' as [->|He']; auto.
        -- intros Hall e' He'. apply Hall. by right.
      * intros o Ho. destruct (IHsome o Ho) as (i & e' & Hi & Hdel & Hinst & Hbefore).
        exists (S i), e'. split; [done|]. split; [done|]. split; [done|].
        intros [|j] e'' Hj Hlook.
        -- cbn in Hlook. by injection Hlook as <-.
        -- apply (Hbefore j); [lia|done].
Qed.

Lemma assign_frozen a e : frozen e = true -> assign a e = (e, Some TypeError).
Proof. unfold assign. by intros ->. Qed.

(** C6. The constructor sets the six members from its arguments, with
    the shared [NO_DATA] for missing data, and freezes the object: every
    later assignment raises [TypeError] and leaves the event as it was,
    so that after any sequence of assignments the event is still the one
    that was constructed; [NO_DATA] is empty and frozen, and cannot be
    written to either. *)
Theorem ManagedEvent_is_frozen n src d dl i np :
  let e := new_ManagedEvent n src d dl i np in
  (name e = n /\ source e = src /\ data e = default NO_DATA d /\
   delegate e = dl /\ inner e = i /\ noPropagation e = np) /\
  frozen e = true /\
  (forall a, assign a e = (e, Some TypeError)) /\
  (forall l, fold_left (fun e a => (assign a e).1) l e = e) /\
  data (new_ManagedEvent n src None dl i np) = NO_DATA /\
  entries NO_DATA = [] /\ data_frozen NO_DATA = true /\
  (forall key v, data_set key v NO_DATA = Throw TypeError).
Proof.
  intros e.
  assert (Hfrozen : frozen e = true) by done.
  split; [by repeat split|]. split; [done|].
  split; [intros a; by apply assign_frozen|].
  split; [|by repeat split].
  induction l as [|a l IH]; [done|].
  cbn [fold_left]. by rewrite assign_frozen.
Qed.

End ManagedEventFacts.

(** ** View.applyViewPreset *)

Section ViewFacts.
Import ManagedEvent View.

(** *** Strings *)

Lemma is_event_key_on p :
  is_event_key p = true -> p = String "o" (String "n" (slice_from 2 p)).
Proof.
  destruct p as [|a [|b [|c p]]]; cbn; [done|..];
    destruct a as [[] [] [] [] [] [] [] []]; try done;
    destruct b as [[] [] [] [] [] [] [] []]; done.
Qed.

Lemma event_name_inj p q :
  is_event_key p = true -> is_event_key q = true ->
  slice_from 2 p = slice_from 2 q -> p = q.
Proof.
  intros Hp Hq Heq. rewrite (is_event_key_on p Hp), (is_event_key_on q Hq).
  by rewrite Heq.
Qed.

Lemma indexOf_ge c s : -1 <= indexOf c s.
Proof.
  induction s as [|c' s IH]; cbn; [lia|].
  destruct (Ascii.eqb c' c); [lia|]. destruct (Z.ltb_spec (indexOf c s) 0); lia.
Qed.

(** [indexOf] finds the first occurrence: the string splits there, and
    the part before has none. *)
Lemma indexOf_split c s :
  0 <= indexOf c s ->
  let i := Z.to_nat (indexOf c s) in
  s = (slice_to i s ++ String c (slice_from (S i) s))%string /\
  indexOf c (slice_to i s) = -1.
Proof.
  induction s as [|c' s IH]; cbn zeta; [cbn; lia|].
  cbn [indexOf]. destruct (Ascii.eqb_spec c' c) as [->|Hne].
  { intros _. by cbn. }
  destruct (Z.ltb_spec (indexOf c s) 0) as [Hneg|Hpos]; [lia|]. intros _.
  specialize (IH Hpos). cbn zeta in IH. destruct IH as [IH1 IH2].
  replace (Z.to_nat (indexOf c s + 1)) with (S (Z.to_nat (indexOf c s))) by lia.
  change (slice_to (S ?n) (String c' s)) with (String c' (slice_to n s)).
  change (slice_from (S (S ?n)) (String c' s)) with (slice_from (S n) s).
  change (String c' ?a +:+ ?b) with (String c' (a +:+ b)).
  split; [by f_equal|]. cbn [indexOf].
  destruct (Ascii.eqb_spec c' c); [done|]. by rewrite IH2.
Qed.


(** *** The loop over the preset *)

Lemma preset_step_error p v st :
  (preset_step p v st).2
  = if bad_entry (p, v) then Some (InvalidArgument ("preset." ++ p)) else None.
Proof.
  destruct st as [this events]. unfold preset_step, bad_entry. cbn [fst snd].
  destruct (is_undefined_preset v); [done|].
  destruct (is_event_key p); cbn [andb negb].
  - by destruct (bad_target _ _).
  - by destruct v.
Qed.

Lemma preset_loop_error preset st :
  (preset_loop preset st).2
  = match List.find bad_entry preset with
    | Some pv => Some (InvalidArgument ("preset." ++ pv.1))
    | None => None
    end.
Proof.
  revert st. induction preset as [|[p v] preset IH]; intros st; [done|].
  cbn [preset_loop List.find].
  pose proof (preset_step_error p v st) as Hstep.
  destruct (preset_step p v st) as [st1 [err|]]; cbn [snd] in Hstep.
  - destruct (bad_entry (p, v)); [done|congruence].
  - destruct (bad_entry (p, v)); [done|]. apply IH.
Qed.

Lemma applyViewPreset_error preset this :
  (applyViewPreset preset this).2
  = match List.find bad_entry preset with
    | Some pv => Some (InvalidArgument ("preset." ++ pv.1))
    | None => None
    end.
Proof.
  unfold applyViewPreset. rewrite <- (preset_loop_error preset (this, None)).
  by destruct (preset_loop preset (this, None)) as [[this' [ev|]] [err|]].
Qed.

Lemma bad_target_false n v :
  bad_target n v = false <->
  exists s, v = PVal (VString s) /\ s <> EmptyString /\ s <> n.
Proof.
  unfold bad_target. split.
  - intros Hb. apply orb_false_elim in Hb as [Hb Heq].
    apply orb_false_elim in Hb as [Htr Hstr].
    destruct v as [[]|b]; try done. exists s. split; [done|].
    cbn in Htr, Heq. split.
    + intros ->. done.
    + intros ->. by rewrite String.eqb_refl in Heq.
  - intros (s & -> & Hne & Hn). cbn.
    destruct (String.eqb_spec s ""); [done|].
    by destruct (String.eqb_spec n s).
Qed.

(** What one turn does to the view and the remaps when it does not throw *)
Lemma preset_step_ok p v this events this' events' :
  preset_step p v (this, events) = (this', events', None) ->
  self this' = self this /\ emit this' = emit this /\
  (events <> None -> events' <> None) /\
  (is_undefined_preset v = false -> is_event_key p = true ->
     bad_target (slice_from 2 p) v = false /\
     events' = Some (<[slice_from 2 p := string_of v]> (default ∅ events))) /\
  (is_undefined_preset v = true \/ is_event_key p = false -> events' = events).
Proof.
  unfold preset_step. intros Hstep.
  destruct (is_undefined_preset v).
  { injection Hstep as <- <-. by repeat split. }
  destruct (is_event_key p).
  - destruct (bad_target (slice_from 2 p) v); [done|].
    injection Hstep as <- <-. repeat split; try done.
    intros [?|?]; done.
  - destruct v as [x|b]; injection Hstep as <- <-; by repeat split.
Qed.

Lemma preset_loop_ok preset : forall this events this' events',
  preset_loop preset (this, events) = (this', events', None) ->
  NoDup (map fst preset) ->
  self this' = self this /\ emit this' = emit this /\
  (events <> None -> events' <> None) /\
  (forall p v, (p, v) ∈ preset -> is_undefined_preset v = false ->
     is_event_key p = true ->
     bad_target (slice_from 2 p) v = false /\
     exists ev, events' = Some ev /\ ev !! slice_from 2 p = Some (string_of v)) /\
  (forall n,
     (forall p v, (p, v) ∈ preset -> is_event_key p = true ->
                  slice_from 2 p = n -> is_undefined_preset v = true) ->
     default ∅ events' !! n = default ∅ events !! n).
Proof.
  induction preset as [|[q w] preset IH]; intros this events this' events' Hloop Hnd.
  { injection Hloop as <- <-.
    split; [done|]. split; [done|]. split; [done|]. split; [|done].
    intros p v Hin. by apply elem_of_nil in Hin. }
  cbn [preset_loop] in Hloop.
  destruct (preset_step q w (this, events)) as [[this1 events1] [err|]] eqn:Hstep;
    [done|].
  apply preset_step_ok in Hstep as (Hself1 & Hemit1 & Hsome1 & Hev1 & Hskip1).
  cbn [map fst] in Hnd. apply NoDup_cons in Hnd as [Hq Hnd].
  destruct (IH _ _ _ _ Hloop Hnd) as (Hself & Hemit & Hsome & Hev & Hframe).
  split; [congruence|]. split; [congruence|]. split; [auto|]. split.
  - intros p v Hin Hdef Hkey. apply elem_of_cons in Hin as [Heq|Hin].
    2:{ by apply Hev. }
    assert (p = q) as -> by congruence. assert (v = w) as -> by congruence.
    destruct (Hev1 Hdef Hkey) as [Hgood Hevents1]. split; [done|].
    assert (Hl : default ∅ events' !! slice_from 2 q
                 = default ∅ events1 !! slice_from 2 q).
    { apply Hframe. intros p' v' Hin Hkeyp Heq'. exfalso. apply Hq.
      rewrite <- (event_name_inj p' q Hkeyp Hkey Heq').
      apply list_elem_of_fmap. by exists (p', v'). }
    destruct events' as [ev|].
    + exists ev. split; [done|].
      change (default ∅ (Some ev)) with ev in Hl. rewrite Hl, Hevents1.
      apply lookup_insert_eq.
    + exfalso. apply Hsome; [|done]. by rewrite Hevents1.
  - intros n Hn. rewrite Hframe.
    2:{ intros p v Hin. apply Hn. by right. }
    destruct (is_undefined_preset w) eqn:Hdef.
    { by rewrite Hskip1 by (by left). }
    destruct (is_event_key q) eqn:Hkey.
    2:{ by rewrite Hskip1 by (by right). }
    destruct (Hev1 eq_refl eq_refl) as [_ ->].
    change (default ∅ (Some ?m)) with m.
    apply lookup_insert_ne. intros Heq.
    rewrite (Hn q w) in Hdef; [done|by left|done..].
Qed.


Lemma applyViewPreset_ok preset this view' :
  applyViewPreset preset this = (view', None) ->
  NoDup (map fst preset) ->
  exists events1 : option Events,
    self view' = self this /\
    emit view' = match events1 with
                 | Some ev => Wrapper ev (emit this)
                 | None => emit this
                 end /\
    (forall p v, (p, v) ∈ preset -> is_undefined_preset v = false ->
       is_event_key p = true ->
       bad_target (slice_from 2 p) v = false /\
       exists ev, events1 = Some ev /\
                  ev !! slice_from 2 p = Some (string_of v)) /\
    (forall n,
       (forall p v, (p, v) ∈ preset -> is_event_key p = true ->
                    slice_from 2 p = n -> is_undefined_preset v = true) ->
       default ∅ events1 !! n = None).
Proof.
  unfold applyViewPreset. intros Happly Hnd.
  destruct (preset_loop preset (this, None)) as [[this1 events1] [err|]] eqn:Hloop.
  { by destruct events1. }
  destruct (preset_loop_ok _ _ _ _ _ Hloop Hnd) as (Hself & Hemit & _ & Hev & Hframe).
  exists events1.
  assert (Hview : self view' = self this /\
                  emit view' = match events1 with
                               | Some ev => Wrapper ev (emit this)
                               | None => emit this
                               end).
  { destruct events1 as [ev|]; injection Happly as <-; cbn; by rewrite ?Hemit. }
  destruct Hview as [Hs He]. split; [done|]. split; [done|]. split; [done|].
  intros n Hn. by rewrite (Hframe n Hn).
Qed.

Lemma is_event_key_spec p :
  is_event_key p = true <->
  exists c rest,
    p = String "o" (String "n" (String c rest)) /\
    (nat_of_ascii c < 97 \/ 122 < nat_of_ascii c)%nat.
Proof.
  assert (Hlt : forall a b, Ascii.ltb a b = true <->
                            (nat_of_ascii a < nat_of_ascii b)%nat).
  { intros a b. unfold Ascii.ltb, Ascii.compare, nat_of_ascii.
    destruct (N.compare_spec (N_of_ascii a) (N_of_ascii b));
      split; intros; try done; lia. }
  split.
  - intros Hkey. pose proof (is_event_key_on p Hkey) as Hp.
    destruct p as [|a [|b [|c rest]]]; cbn in Hp; try congruence.
    { by injection Hp as -> ->. }
    exists c, rest. injection Hp as -> ->. split; [done|].
    cbn in Hkey. apply orb_prop in Hkey as [Hc|Hc]; apply Hlt in Hc.
    + by left.
    + by right.
  - intros (c & rest & -> & Hc). cbn. apply orb_true_intro.
    destruct Hc as [Hc|Hc]; [left|right]; by apply Hlt.
Qed.

(** C4. [applyViewPreset] throws exactly when some entry of the preset
    has a key made of "on" and a character outside a-z, and a value that
    is not undefined and is falsy, or no string, or the event name
    itself; what it throws is [InvalidArgument] for such a key.  An
    entry with such a key and a non-empty string other than the event
    name is recorded by its turn of the loop, and is in the remaps of
    the wrapper when the whole preset is applied. *)
Theorem applyViewPreset_throws_iff_bad_remap preset this :
  ((exists p v, (p, v) ∈ preset /\ is_event_key p = true /\
                is_undefined_preset v = false /\
                (truthy_preset v = false \/ is_string v = false \/
                 v = PVal (VString (slice_from 2 p)))) <->
   (exists what, (applyViewPreset preset this).2 = Some (InvalidArgument what))) /\
  (forall err, (applyViewPreset preset this).2 = Some err ->
     exists p, p ∈ map fst preset /\ is_event_key p = true /\
               err = InvalidArgument ("preset." ++ p)) /\
  (forall p, is_event_key p = true <->
     exists c rest,
       p = String "o" (String "n" (String c rest)) /\
       (nat_of_ascii c < 97 \/ 122 < nat_of_ascii c)%nat) /\
  (forall p s view events,
     is_event_key p = true -> s <> EmptyString -> s <> slice_from 2 p ->
     preset_step p (PVal (VString s)) (view, events)
     = (view, Some (<[slice_from 2 p := s]> (default ∅ events)), None)) /\
  (forall view',
     applyViewPreset preset this = (view', None) ->
     NoDup (map fst preset) ->
     forall p s, (p, PVal (VString s)) ∈ preset -> is_event_key p = true ->
       s <> EmptyString /\ s <> slice_from 2 p /\
       exists events, emit view' = Wrapper events (emit this) /\
                      events !! slice_from 2 p = Some s).
Proof.
  assert (Hbad : forall p v,
    bad_entry (p, v) = true <->
    is_event_key p = true /\ is_undefined_preset v = false /\
    (truthy_preset v = false \/ is_string v = false \/
     v = PVal (VString (slice_from 2 p)))).
  { intros p v. unfold bad_entry, bad_target. cbn [fst snd].
    rewrite !andb_true_iff, !orb_true_iff, !negb_true_iff.
    assert (Heq : equals_string (slice_from 2 p) v = true <->
                  v = PVal (VString (slice_from 2 p))).
    { destruct v as [[]|b]; try (cbn; split; congruence).
      unfold equals_string.
      destruct (String.eqb_spec (slice_from 2 p) s); split; congruence. }
    rewrite Heq. tauto. }
  split; [|split; [|split; [|split]]].
  - rewrite applyViewPreset_error. split.
    + intros (p & v & Hin & Hcond).
      destruct (List.find bad_entry preset) as [pv|] eqn:Hfind; [by eexists|].
      apply list_elem_of_In in Hin.
      pose proof (find_none _ _ Hfind _ Hin) as Hno.
      assert (bad_entry (p, v) = true) by by apply Hbad. congruence.
    + intros [what Hwhat].
      destruct (List.find bad_entry preset) as [[p v]|] eqn:Hfind; [|done].
      apply find_some in Hfind as [Hin Hb]. exists p, v.
      split; [by apply list_elem_of_In|]. by apply Hbad.
  - intros err. rewrite applyViewPreset_error.
    destruct (List.find bad_entry preset) as [[p v]|] eqn:Hfind; [|done].
    intros [= <-]. apply find_some in Hfind as [Hin Hb]. exists p.
    split; [|split; [by apply Hbad in Hb as [? _]|done]].
    apply list_elem_of_fmap. exists (p, v). split; [done|].
    by apply list_elem_of_In.
  - apply is_event_key_spec.
  - intros p s view events Hkey Hne Hname. unfold preset_step.
    cbn [is_undefined_preset]. rewrite Hkey.
    assert (Hgood : bad_target (slice_from 2 p) (PVal (VString s)) = false).
    { apply bad_target_false. by exists s. }
    by rewrite Hgood.
  - intros view' Happly Hnd p s Hin Hkey.
    destruct (applyViewPreset_ok _ _ _ Happly Hnd) as (events1 & _ & Hemit & Hev & _).
    destruct (Hev p (PVal (VString s)) Hin eq_refl Hkey) as [Hgood (ev & -> & Hl)].
    apply bad_target_false in Hgood as (s' & [= <-] & Hne & Hname).
    split; [done|]. split; [done|]. by exists ev.
Qed.


(** *** The wrapper *)

Lemma call_emit_base fuel this arg d :
  call_emit (S fuel) this ManagedObject_emit arg d
  = Ret [ManagedObject_emit_event this arg d].
Proof. done. Qed.

Lemma intercept_event_data this event d v :
  intercept_event this event d v
  = intercept_event this event (Some (default NO_DATA d)) v.
Proof. unfold intercept_event. by destruct (0 <? indexOf ":" v). Qed.

(** The wrapper, once its argument is an event *)
Lemma call_emit_wrapper fuel this events _emit arg d :
  let event := ManagedObject_emit_event this arg d in
  call_emit (S fuel) this (Wrapper events _emit) arg d
  = match events !! name event with
    | None => call_emit fuel this _emit (Given event) None
    | Some v =>
        if String.eqb v "" then call_emit fuel this _emit (Given event) None
        else
          first ← (if is_forward v
                   then call_emit fuel this _emit (Given event) None
                   else Ret []);
          rest ← call_emit fuel this (emit this)
                   (Given (intercept_event this event (Some (data event))
                             (if is_forward v then slice_from 1 v else v)))
                   None;
          Ret (first ++ rest)
    end.
Proof.
  destruct arg as [n|e]; cbn zeta; cbn [call_emit ManagedObject_emit_event]; [|done].
  destruct (events !! _) as [v|]; [|done].
  destruct (String.eqb v ""); [done|].
  by rewrite (intercept_event_data this _ d).
Qed.

(** C9. When the wrapper finds a remap for the event, the event it
    makes has the view as source and the incoming event as [inner]; if
    the target (without its "+") has its first colon at an index above
    0, the new name is the part before that colon and the data is
    exactly [{ target: <the part after it> }]; otherwise (no colon, or a
    colon at index 0) the whole target is the name and the data is that
    of the incoming event. *)
Theorem remap_target_with_colon fuel this events _emit arg d v :
  let event := ManagedObject_emit_event this arg d in
  events !! name event = Some v ->
  v <> EmptyString ->
  let target := if is_forward v then slice_from 1 v else v in
  let i := indexOf ":" target in
  let made := intercept_event this event (Some (data event)) target in
  call_emit (S fuel) this (Wrapper events _emit) arg d
  = (first ← (if is_forward v then call_emit fuel this _emit (Given event) None
              else Ret []);
     rest ← call_emit fuel this (emit this) (Given made) None;
     Ret (first ++ rest)) /\
  source made = self this /\ inner made = Some event /\
  (0 < i ->
     name made = slice_to (Z.to_nat i) target /\
     data made = target_data (slice_from (Z.to_nat (i + 1)) target) /\
     entries (data made)
     = [("target", VString (slice_from (Z.to_nat (i + 1)) target))] /\
     target = (name made ++ String ":" (slice_from (Z.to_nat (i + 1)) target))%string /\
     indexOf ":" (name made) = -1) /\
  (i <= 0 -> name made = target /\ data made = data event).
Proof.
  intros event Hv Hne target i made.
  split.
  { rewrite call_emit_wrapper. fold event. rewrite Hv.
    by destruct (String.eqb_spec v ""). }
  unfold made, intercept_event. fold i.
  destruct (Z.ltb_spec 0 i) as [Hpos|Hle].
  - split; [done|]. split; [done|]. split; [|lia]. intros _.
    split; [done|]. split; [done|]. split; [done|]. cbn [name new_ManagedEvent Object_freeze].
    destruct (indexOf_split ":" target) as [Hsplit Hnone]; [fold i; lia|].
    cbn zeta in Hsplit, Hnone. fold i in Hsplit, Hnone.
    replace (Z.to_nat (i + 1)) with (S (Z.to_nat i)) by lia. done.
  - split; [done|]. split; [done|]. split; [lia|]. intros _. done.
Qed.

(** C3 (as amended). With [onClick: "+RemoveItem"] in the preset and no
    remap of [RemoveItem], [emit("Click", data)] on the view hands the
    listeners two events, in order: the [Click] event, then a
    [RemoveItem] event with the same source and data whose [inner] is
    that [Click] event.  A wrapper passes an event whose name has no
    remap to the [emit] it wraps, unchanged. *)
Theorem forward_remap_emits_both preset o view' d fuel :
  NoDup (map fst preset) ->
  applyViewPreset preset (new_View o) = (view', None) ->
  ("onClick", PVal (VString "+RemoveItem")) ∈ preset ->
  (forall v, ("onRemoveItem", v) ∈ preset -> is_undefined_preset v = true) ->
  let click := new_ManagedEvent "Click" o d None None None in
  emit_on (3 + fuel) view' (Named "Click") d
  = Ret [click; new_ManagedEvent "RemoveItem" o d None (Some click) None] /\
  (forall this events _emit e d' n,
     events !! name e = None ->
     call_emit (S n) this (Wrapper events _emit) (Given e) d'
     = call_emit n this _emit (Given e) None).
Proof.
  intros Hnd Happly Hclick Hremove click. split.
  2:{ intros this events _emit e d' n He. rewrite call_emit_wrapper.
      cbn [ManagedObject_emit_event]. by rewrite He. }
  destruct (applyViewPreset_ok _ _ _ Happly Hnd)
    as (events1 & Hself & Hemit & Hev & Hframe).
  destruct (Hev _ _ Hclick eq_refl eq_refl) as [_ (ev & -> & Hl)].
  cbn [slice_from string_of] in Hl. cbn [new_View emit self] in Hemit, Hself.
  assert (Hrm : ev !! "RemoveItem" = None).
  { apply (Hframe "RemoveItem"). intros p v Hin Hkey Hname. apply Hremove.
    by rewrite (is_event_key_on p Hkey), Hname in Hin. }
  unfold emit_on. rewrite Hemit.
  change (3 + fuel)%nat with (S (S (S fuel))).
  rewrite call_emit_wrapper. cbn zeta.
  cbn [ManagedObject_emit_event name new_ManagedEvent Object_freeze].
  rewrite Hself, Hl. cbn [String.eqb Ascii.eqb Bool.eqb is_forward slice_from].
  rewrite call_emit_base. cbn [ManagedObject_emit_event].
  rewrite Hemit, call_emit_wrapper. cbn zeta.
  cbn [ManagedObject_emit_event intercept_event indexOf Ascii.eqb Bool.eqb
       Z.ltb Z.compare name new_ManagedEvent Object_freeze].
  rewrite Hrm, call_emit_base. cbn. rewrite Hself. done.
Qed.

End ViewFacts.

(** ** Worked examples *)

Section WorkedExamples.
Import ObjectReader ManagedEvent View Samples.
#[local] Existing Instance sample_host.

(** The examples of the documentation *)
Example read_name_too_short :
  read name_reader sample_heap (VObject 1)
  = Ret (None, {["name" := GenericError "ObjectReader error"]}).
Proof. vm_compute. reflexivity. Qed.

Example read_name_long_enough :
  read name_reader sample_heap (VObject 2)
  = Ret (Some {["name" := PValue (VString "Al")]}, ∅).
Proof. vm_compute. reflexivity. Qed.

Example readJSONString_bad_json :
  readJSONString name_reader "{bad json"
  = Ret (None, {["_" := SyntaxError "Unexpected token"]}).
Proof. vm_compute. reflexivity. Qed.

Example readField_without_rule :
  readField name_reader sample_heap (VObject 1) "age" = Throw RangeError.
Proof. reflexivity. Qed.

(** The object that contains itself: 100 nested levels fit the budget,
    the next one does not. *)
Example read_cyclic_within_budget :
  exists o, read (deep_reader 100) sample_heap (VObject 3) = Ret (Some o, ∅).
Proof. eexists. vm_compute. reflexivity. Qed.

Example read_cyclic_beyond_budget :
  read (deep_reader 101) sample_heap (VObject 3)
  = Ret (None, {["self" := GenericError "ObjectReader error"]}).
Proof. vm_compute. reflexivity. Qed.

Example findDelegate_sample :
  findDelegate sample_chain "UIListView" = Some list_view /\
  findDelegate sample_chain "ManagedObject" = Some activity /\
  findDelegate sample_chain "UIButton" = None.
Proof. by vm_compute. Qed.

Example applyViewPreset_bad_preset :
  (applyViewPreset bad_preset (new_View button)).2
  = Some (InvalidArgument "preset.onClick").
Proof. vm_compute. reflexivity. Qed.

Example emit_colon_target :
  emit_on 5 colon_view (Named "Click") None
  = Ret [sample_click;
         new_ManagedEvent "Select" button
           (Some (target_data "row")) None (Some sample_click) None].
Proof. vm_compute. reflexivity. Qed.


(** *** The theorems at the samples *)

Lemma name_reader_no_proto : "__proto__" ∉ schema_keys (schema name_reader).
Proof. apply (bool_decide_unpack _). vm_compute. exact I. Qed.

Lemma read_all_or_nothing_witness :
  schema_typed (schema name_reader) = true /\
  ("__proto__" ∉ schema_keys (schema name_reader)) /\
  isObject (VObject 1) = true /\
  exists value errs,
    read name_reader sample_heap (VObject 1) = Ret (value, errs) /\
    (is_Some value -> errs = ∅) /\
    (forall p e, p ∈ schema_keys (schema name_reader) ->
       fails_with name_reader sample_heap (VObject 1) p e ->
       value = None /\ errs !! p = Some (GenericError (String_of e))).
Proof.
  split; [reflexivity|]. split; [exact name_reader_no_proto|].
  split; [reflexivity|].
  destruct (read_all_or_nothing name_reader sample_heap (VObject 1)
              eq_refl name_reader_no_proto eq_refl)
    as (value & errs & Hread & _ & _ & _ & Hfails & Hboth).
  exists value, errs. split; [exact Hread|]. split; [exact Hboth|exact Hfails].
Defined.

(** C1 as stated fails in two ways.  For a schema field named
    [__proto__] that fails, the errors get no entry: [read] answers
    [[undefined, {}]].  And for a [validate] member that is no function
    [read] does not return at all: it throws. *)
Lemma read_proto_field_unreported :
  schema_typed (schema proto_reader) = true /\
  "__proto__" ∈ schema_keys (schema proto_reader) /\
  fails_with proto_reader sample_heap (VObject 0) "__proto__"
    (SCString DEFAULT_ERROR) /\
  read proto_reader sample_heap (VObject 0) = Ret (None, ∅) /\
  read untyped_reader sample_heap (VObject 0) = Throw TypeError /\
  ~ (forall (H : Host) this h object,
       isObject object = true ->
       exists value errs,
         read this h object = Ret (value, errs) /\
         forall p e, p ∈ schema_keys (schema this) ->
           fails_with this h object p e ->
           value = None /\ errs !! p = Some (GenericError (String_of e))).
Proof.
  assert (Hfails : fails_with proto_reader sample_heap (VObject 0) "__proto__"
                     (SCString DEFAULT_ERROR)).
  { eexists. split; [vm_compute; reflexivity|]. split; reflexivity. }
  split; [reflexivity|]. split; [left|]. split; [exact Hfails|].
  split; [vm_compute; reflexivity|]. split; [vm_compute; reflexivity|].
  intros Hclaim.
  destruct (Hclaim sample_host proto_reader sample_heap (VObject 0) eq_refl)
    as (value & errs & Hread & Hall).
  destruct (Hall "__proto__" (SCString DEFAULT_ERROR) ltac:(left) Hfails)
    as [_ Herr].
  assert (Hr : read proto_reader sample_heap (VObject 0) = Ret (None, ∅)).
  { vm_compute. reflexivity. }
  rewrite Hr in Hread. injection Hread as <- <-.
  by rewrite lookup_empty in Herr.
Qed.

Lemma validation_is_depth_bounded_witness :
  (enough_fuel MAX_RECURSE <= 200)%nat /\
  read_with 200 (deep_reader 101) sample_heap (VObject 3)
  = read (deep_reader 101) sample_heap (VObject 3) /\
  read (deep_reader 101) sample_heap (VObject 3) <> OutOfFuel.
Proof.
  assert (Hfuel : (enough_fuel MAX_RECURSE <= 200)%nat).
  { unfold enough_fuel, MAX_RECURSE. lia. }
  split; [exact Hfuel|].
  exact (proj1 (proj2 (proj2 validation_is_depth_bounded))
           200%nat (deep_reader 101) sample_heap (VObject 3) Hfuel).
Defined.

Lemma forward_preset_NoDup : NoDup (map fst forward_preset).
Proof. apply (bool_decide_unpack _). vm_compute. exact I. Qed.

Lemma forward_remap_emits_both_witness :
  let view' := (applyViewPreset forward_preset (new_View button)).1 in
  NoDup (map fst forward_preset) /\
  applyViewPreset forward_preset (new_View button) = (view', None) /\
  ("onClick", PVal (VString "+RemoveItem")) ∈ forward_preset /\
  (forall v, ("onRemoveItem", v) ∈ forward_preset ->
             is_undefined_preset v = true) /\
  emit_on 3 view' (Named "Click") None
  = Ret [sample_click;
         new_ManagedEvent "RemoveItem" button None None (Some sample_click) None].
Proof.
  intros view'.
  assert (Hclick : ("onClick", PVal (VString "+RemoveItem")) ∈ forward_preset).
  { right. left. }
  assert (Hnone : forall v, ("onRemoveItem", v) ∈ forward_preset ->
                            is_undefined_preset v = true).
  { intros v Hin. unfold forward_preset in Hin.
    apply elem_of_cons in Hin as [Heq|Hin]; [discriminate Heq|].
    apply elem_of_cons in Hin as [Heq|Hin]; [discriminate Heq|].
    by apply elem_of_nil in Hin. }
  split; [exact forward_preset_NoDup|]. split; [reflexivity|].
  split; [exact Hclick|]. split; [exact Hnone|].
  exact (proj1 (forward_remap_emits_both forward_preset button view' None 0
                  forward_preset_NoDup eq_refl Hclick Hnone)).
Defined.

(** C3 as stated fails when the preset also remaps [RemoveItem]: the
    listeners then get [Click] and [Gone], and no [RemoveItem] event. *)
Lemma forward_remap_reintercepted :
  let view' := (applyViewPreset chained_preset (new_View button)).1 in
  let removed :=
    new_ManagedEvent "RemoveItem" button None None (Some sample_click) None in
  NoDup (map fst chained_preset) /\
  applyViewPreset chained_preset (new_View button) = (view', None) /\
  ("onClick", PVal (VString "+RemoveItem")) ∈ chained_preset /\
  emit_on 4 view' (Named "Click") None
  = Ret [sample_click;
         new_ManagedEvent "Gone" button None None (Some removed) None] /\
  forall fuel,
    emit_on fuel view' (Named "Click") None <> Ret [sample_click; removed].
Proof.
  intros view' removed.
  split; [apply (bool_decide_unpack _); vm_compute; exact I|].
  split; [reflexivity|]. split; [left|].
  split; [vm_compute; reflexivity|].
  intros [|[|[|[|fuel]]]]; vm_compute; discriminate.
Qed.

Lemma applyViewPreset_throws_iff_bad_remap_witness :
  (exists p v, (p, v) ∈ bad_preset /\ is_event_key p = true /\
               is_undefined_preset v = false /\
               (truthy_preset v = false \/ is_string v = false \/
                v = PVal (VString (slice_from 2 p)))) /\
  exists what,
    (applyViewPreset bad_preset (new_View button)).2
    = Some (InvalidArgument what).
Proof.
  assert (Hbad : exists p v, (p, v) ∈ bad_preset /\ is_event_key p = true /\
               is_undefined_preset v = false /\
               (truthy_preset v = false \/ is_string v = false \/
                v = PVal (VString (slice_from 2 p)))).
  { exists "onClick", (PVal (VString "Click")).
    split; [right; left|]. split; [reflexivity|]. split; [reflexivity|].
    right. right. reflexivity. }
  split; [exact Hbad|].
  exact (proj1 (proj1 (applyViewPreset_throws_iff_bad_remap bad_preset
                         (new_View button))) Hbad).
Defined.

Lemma validation_failures_are_returned_witness :
  schema_typed (schema name_reader) = true /\
  returns (read name_reader sample_heap (VObject 1)) /\
  exists v e,
    readField name_reader sample_heap (VObject 1) "name" = Ret (v, e) /\
    (e <> None -> v = undefined).
Proof.
  split; [reflexivity|].
  destruct (proj1 (validation_failures_are_returned name_reader sample_heap
                     (VObject 1)) eq_refl) as [Hread Hfield].
  split; [exact Hread|].
  destruct (Hfield "name") as (v & e & Hv & Hnot & _).
  { left. }
  exists v, e. split; [exact Hv|exact Hnot].
Defined.

(** C5 as stated fails for an optional field the input lacks: neither
    the value nor the error is defined. *)
Lemma readField_neither_defined :
  schema_typed (schema optional_reader) = true /\
  "a" ∈ schema_keys (schema optional_reader) /\
  readField optional_reader sample_heap (VObject 0) "a" = Ret (undefined, None) /\
  ~ (forall (H : Host) this h object field v e,
       schema_typed (schema this) = true ->
       field ∈ schema_keys (schema this) ->
       readField this h object field = Ret (v, e) ->
       (v <> undefined /\ e = None) \/ (v = undefined /\ e <> None)).
Proof.
  split; [reflexivity|]. split; [left|]. split; [reflexivity|].
  intros Hclaim.
  destruct (Hclaim sample_host optional_reader sample_heap (VObject 0) "a"
              undefined None eq_refl ltac:(left) eq_refl)
    as [[Hv _]|[_ He]]; [by apply Hv|by apply He].
Qed.

Lemma findDelegate_first_in_chain_witness :
  findDelegate sample_chain "UIListView" = Some list_view /\
  exists i e',
    chain sample_chain !! i = Some e' /\ delegate e' = Some list_view /\
    instanceof list_view "UIListView" = true /\
    forall j e'', (j < i)%nat -> chain sample_chain !! j = Some e'' ->
                  delegate_is "UIListView" e'' = false.
Proof.
  split; [reflexivity|].
  exact (proj2 (proj2 (findDelegate_first_in_chain sample_chain "UIListView"))
           list_view eq_refl).
Defined.

Lemma readJSONString_parse_error_or_read_witness :
  JSON_parse "{bad json" = inl (SyntaxError "Unexpected token") /\
  readJSONString name_reader "{bad json"
  = Ret (None, {["_" := SyntaxError "Unexpected token"]}) /\
  JSON_parse "{}" = inr (sample_heap, VObject 0) /\
  schema_typed (schema name_reader) = true /\
  readJSONString name_reader "{}" = read name_reader sample_heap (VObject 0) /\
  read untyped_reader sample_heap (VObject 0) = Throw TypeError /\
  readJSONString untyped_reader "{}" = Ret (None, {["_" := TypeError]}).
Proof.
  split; [reflexivity|]. split.
  { exact (proj1 (readJSONString_parse_error_or_read name_reader "{bad json")
             _ eq_refl (schema name_reader)). }
  split; [reflexivity|]. split; [reflexivity|]. split.
  { exact (proj2 (proj1 (proj2 (proj2 (readJSONString_parse_error_or_read
                                         name_reader "{}")
                                  sample_heap (VObject 0) eq_refl))
                    (or_introl eq_refl))). }
  assert (Hthrow : read untyped_reader sample_heap (VObject 0) = Throw TypeError).
  { vm_compute. reflexivity. }
  split; [exact Hthrow|].
  exact (proj2 (proj2 (proj2 (proj2 (proj2 (readJSONString_parse_error_or_read
                                              untyped_reader "{}")
                                       sample_heap (VObject 0) eq_refl))
                         TypeError Hthrow))).
Defined.

(** C8 as stated fails where [read] throws: [readJSONString] catches
    the exception and returns it under ["_"]. *)
Lemma readJSONString_catches_read_exception :
  JSON_parse "{}" = inr (sample_heap, VObject 0) /\
  read untyped_reader sample_heap (VObject 0) = Throw TypeError /\
  readJSONString untyped_reader "{}" = Ret (None, {["_" := TypeError]}) /\
  ~ (forall (H : Host) this json h object,
       JSON_parse json = inr (h, object) ->
       readJSONString this json = read this h object).
Proof.
  assert (Hthrow : read untyped_reader sample_heap (VObject 0) = Throw TypeError).
  { vm_compute. reflexivity. }
  assert (Hret : readJSONString untyped_reader "{}"
                 = Ret (None, {["_" := TypeError]})).
  { vm_compute. reflexivity. }
  split; [reflexivity|]. split; [exact Hthrow|]. split; [exact Hret|].
  intros Hclaim.
  specialize (Hclaim sample_host untyped_reader "{}" sample_heap (VObject 0)
                eq_refl).
  rewrite Hthrow, Hret in Hclaim. discriminate Hclaim.
Qed.

Lemma remap_target_with_colon_witness :
  colon_events !! "Click" = Some "+Select:row" /\
  "+Select:row" <> EmptyString /\
  let made := intercept_event colon_view sample_click
                (Some (data sample_click)) "Select:row" in
  name made = "Select" /\
  entries (data made) = [("target", VString "row")] /\
  inner made = Some sample_click.
Proof.
  assert (Hl : colon_events !! "Click" = Some "+Select:row") by reflexivity.
  assert (Hne : "+Select:row" <> EmptyString) by discriminate.
  split; [exact Hl|]. split; [exact Hne|].
  destruct (remap_target_with_colon 3 colon_view colon_events
              ManagedObject_emit (Given sample_click) None "+Select:row"
              Hl Hne) as (_ & _ & Hinner & Hcolon & _).
  destruct Hcolon as (Hname & _ & Hentries & _); [reflexivity|].
  split; [exact Hname|]. split; [exact Hentries|exact Hinner].
Defined.

Lemma read_result_has_schema_keys_witness :
  isObject (VObject 2) = true /\
  ("__proto__" ∉ schema_keys (schema name_reader)) /\
  read name_reader sample_heap (VObject 2)
  = Ret (Some {["name" := PValue (VString "Al")]}, ∅) /\
  forall q, is_Some (({["name" := PValue (VString "Al")]} : gmap string Parsed) !! q)
            <-> q ∈ schema_keys (schema name_reader).
Proof.
  assert (Hread : read name_reader sample_heap (VObject 2)
                  = Ret (Some {["name" := PValue (VString "Al")]}, ∅)).
  { vm_compute. reflexivity. }
  split; [reflexivity|]. split; [exact name_reader_no_proto|].
  split; [exact Hread|].
  exact (proj1 (read_result_has_schema_keys name_reader sample_heap (VObject 2)
                  _ _ eq_refl name_reader_no_proto Hread) _ eq_refl).
Defined.

(** C10 as stated fails in three ways.  The rule [{}] is not optional,
    and a field the input lacks passes as [undefined] all the same.  A
    field the input lacks but inherits ([toString]) is not validated
    against [undefined]: it fails the string rule although the rule is
    optional.  And a field of the schema named [__proto__] that passes
    is not among the keys of the result. *)
Lemma absent_field_passes_without_optional :
  read empty_rule_reader sample_heap (VObject 0)
  = Ret (Some {["a" := undefined]}, ∅) /\
  ~ (forall (H : Host) this h object p rule,
       schema_get (schema this) p = Some rule ->
       get h object p = VUndefined ->
       field_result this h object p = Ret (ok undefined) ->
       optional rule = true) /\
  props_of sample_heap (VObject 0) = [] /\
  read toString_reader sample_heap (VObject 0)
  = Ret (None, {["toString" := GenericError DEFAULT_ERROR]}) /\
  "__proto__" ∈ schema_keys (schema proto_any_reader) /\
  read proto_any_reader sample_heap (VObject 0) = Ret (Some ∅, ∅) /\
  ~ (forall (H : Host) this h object o errs,
       isObject object = true ->
       read this h object = Ret (Some o, errs) ->
       forall q, q ∈ schema_keys (schema this) -> is_Some (o !! q)).
Proof.
  assert (Hproto : read proto_any_reader sample_heap (VObject 0)
                   = Ret (Some ∅, ∅)).
  { vm_compute. reflexivity. }
  split; [vm_compute; reflexivity|]. split.
  { intros Hclaim.
    by specialize (Hclaim sample_host empty_rule_reader sample_heap (VObject 0)
                     "a" empty_rule eq_refl eq_refl eq_refl). }
  split; [reflexivity|]. split; [vm_compute; reflexivity|].
  split; [left|]. split; [exact Hproto|].
  intros Hclaim.
  destruct (Hclaim sample_host proto_any_reader sample_heap (VObject 0) ∅ ∅
              eq_refl Hproto "__proto__" ltac:(left)) as [x Hx].
  by rewrite lookup_empty in Hx.
Qed.

End WorkedExamples.

(** * Further properties

    More of what the three files do: the fields [read] looks at, each
    member of a rule, the nested rules and the budget, and what the
    preset loop and the [emit] wrapper leave behind. *)

(** ** ObjectReader: entry points *)

Section ObjectReaderMore.
Import ObjectReader ReaderShapes.
Context `{Host}.

Lemma validate_call_unfold h value field rule mr :
  0 <= mr ->
  (optional rule && is_undefined value) = false ->
  validate rule = None ->
  validate_call h value field (Some rule) mr =
    match ObjectReader.object rule with
    | Some (ObjRule schema err) =>
        if negb (isObject value) then Ret (_makeError err None)
        else as_result <$> validateObject_with (validate_call h) h value
                             (default [] schema) (mr - 1)
    | None =>
      match array rule with
      | Some (ArrRule items err min max) =>
          match value with
          | VArray a =>
              let len := number_of_nat (length (arr_items h a)) in
              match
                when_bound min (fun l => len <? l)%float err
                (when_bound max (fun l => l <? len)%float err
                (inr (LValue (VArray a))))
              with
              | inl e => Ret e
              | inr _ =>
                  validateArray_with (validate_call h) (arr_items h a)
                    (default empty_rule items) (mr - 1)
              end
          | _ => Ret (_makeError err None)
          end
      | None =>
        match record rule with
        | Some (RecRule values err) =>
            if negb (isObject value) then Ret (_makeError err None)
            else validateRecord_loop (validate_call h) h value
                   (map fst (props_of h value))
                   (default empty_rule values) (mr - 1) ∅
        | None => Ret (validate_simple h value (simple rule))
        end
      end
    end.
Proof.
  intros Hmr Hopt Hval. unfold validate_call at 1. unfold enough_fuel.
  rewrite validate_unfold by done.
  unfold _validateObject, validateObject_with, _validateArray, validateArray_with.
  destruct (ObjectReader.object rule) as [[schema err]|].
  { destruct (negb (isObject value)); [done|].
    by rewrite (validateObject_loop_ext _ (validate_call h) h (mr - 1)
                  (validate_call_nested h mr Hmr)). }
  destruct (array rule) as [[items err min max]|].
  { destruct value; try done. cbn zeta.
    destruct (when_bound _ _ _ _); [done|].
    by rewrite (validateArray_loop_ext _ (validate_call h) (mr - 1)
                  (validate_call_nested h mr Hmr)). }
  destruct (record rule) as [[values err]|]; [|done].
  destruct (negb (isObject value)); [done|].
  by rewrite (validateRecord_loop_ext _ (validate_call h) h (mr - 1)
                (validate_call_nested h mr Hmr)).
Qed.

(** *** The fields [read] looks at *)

Lemma validateObject_loop_agree rec h object object' rules mr ps st :
  (forall p, p ∈ ps -> get h object p = get h object' p) ->
  validateObject_loop rec h object rules mr ps st
  = validateObject_loop rec h object' rules mr ps st.
Proof.
  revert st. induction ps as [|p ps IH]; intros st Hag; [done|].
  cbn [validateObject_loop].
  rewrite <- (Hag p) by set_solver.
  destruct (rec _ _ _ _) as [v| |]; cbn; try done.
  apply IH. intros q Hq. apply Hag. set_solver.
Qed.

(** X1. [read] looks at the input only through the fields the schema
    names: two objects that have the same value under every key of the
    schema get the same answer, whatever else they hold. *)
Theorem read_ignores_other_fields this h object object' :
  isObject object = true -> isObject object' = true ->
  (forall p, p ∈ schema_keys (schema this) ->
             get h object p = get h object' p) ->
  read this h object = read this h object'.
Proof.
  intros Ho Ho' Hag. unfold read, read_with. rewrite Ho, Ho'. cbn [negb].
  unfold _validateObject, validateObject_with.
  by rewrite (validateObject_loop_agree _ h object object').
Qed.

(** X2. [read] and [readField] agree field by field, for a schema
    without [validate] functions and patterns (nothing in it keeps
    state from one call to the next) and with no field named
    [__proto__]: when [read] returns for an object, [readField]
    returns for every field of the schema, its error is the entry of
    that field in the errors of [read] (none if there is no entry),
    and if [read] gave an object, the field of that object is the
    value [readField] gives. *)
Theorem read_agrees_with_readField this h object value errs :
  plain_schema (schema this) = true ->
  "__proto__" ∉ schema_keys (schema this) ->
  isObject object = true ->
  read this h object = Ret (value, errs) ->
  forall p, p ∈ schema_keys (schema this) ->
    exists v e,
      readField this h object p = Ret (v, e) /\
      errs !! p = e /\
      (forall o, value = Some o -> o !! p = Some v /\ e = None).
Proof.
  intros _ Hnp Ho Hr p Hp.
  destruct (read_Ret_unfold _ _ _ _ Ho Hr) as (out & Hout & Heq).
  cbn zeta in Heq. injection Heq as -> ->.
  pose proof (Hout p Hp) as Hv. unfold field_result in Hv.
  unfold readField, readField_with. rewrite Ho. cbn [negb].
  rewrite Hv. cbn.
  assert (He : errors (object_steps out (schema_keys (schema this))
                 {| result := Some ∅; error := None; errors := ∅ |}) !! p
               = error_of (out p)).
  { rewrite object_steps_errors. destruct (error_of (out p)) eqn:E.
    - by rewrite decide_True by (by apply in_keys_not_proto).
    - done. }
  destruct (has_error (out p)) eqn:Herr.
  - apply has_error_error_of in Herr as Herr'. destruct Herr' as (e & Hve & Hte).
    rewrite Hve, Hte. eexists _, _. split; [done|]. split.
    + rewrite He. unfold error_of. by rewrite Hve, Hte.
    + intros o Hres.
      by rewrite (object_steps_result_failed out _ _ p Hp Herr) in Hres.
  - exists (vr_value (out p)), None. split; [|split].
    + unfold has_error in Herr. destruct (vr_error (out p)) as [e|]; [|done].
      by rewrite Herr.
    + rewrite He. unfold error_of, has_error in *.
      destruct (vr_error (out p)) as [e|]; [|done]. by rewrite Herr.
    + intros o Hres. split; [|done].
      assert (Hall : forall q, q ∈ schema_keys (schema this) ->
                                has_error (out q) = false).
      { intros q Hq. destruct (has_error (out q)) eqn:E; [|done].
        by rewrite (object_steps_result_failed out _ _ q Hq E) in Hres. }
      destruct (object_steps_result_clean out (schema_keys (schema this))
                  {| result := Some ∅; error := None; errors := ∅ |} ∅ Hall eq_refl)
        as (o' & Ho' & Hlook).
      rewrite Ho' in Hres. injection Hres as <-.
      rewrite Hlook. by rewrite decide_True by (by apply in_keys_not_proto).
Qed.

(** X3. [readJSONString] returns for every schema and every string: it
    never throws and never runs out of budget.  Its answer is that of
    [read] on the parsed value, or no value and a single error under
    [_]. *)
Theorem readJSONString_always_returns this json :
  exists value errs,
    readJSONString this json = Ret (value, errs) /\
    ((exists h object, JSON_parse json = inr (h, object) /\
                       read this h object = Ret (value, errs)) \/
     (value = None /\ exists e, errs = {["_" := e]})).
Proof.
  unfold readJSONString, readJSONString_with.
  destruct (JSON_parse json) as [err|[h object]] eqn:Hp.
  - exists None, {["_" := err]}. split; [done|]. right. eauto.
  - fold (read this h object).
    destruct (read this h object) as [[value errs]|e|] eqn:Hr.
    + exists value, errs. split; [done|]. left. eauto.
    + exists None, {["_" := e]}. split; [done|]. right. eauto.
    + by apply read_not_OutOfFuel in Hr.
Qed.

(** X4. A field the schema has no rule of its own for: [readField]
    throws a [RangeError] for it, unless the name is that of a member
    of [Object.prototype] ([toString], [constructor], ...), which the
    schema inherits: then the inherited member is taken for the rule,
    it constrains nothing, and [readField] returns what the object has
    under that name (if nothing else, what it inherits itself).  For
    an input that is no object the answer is the [TypeError], whatever
    the field. *)
Theorem readField_without_own_rule this h object field :
  field ∉ schema_keys (schema this) ->
  readField this h object field
  = if isObject object then
      if bool_decide (field ∈ Object_prototype_names)
      then Ret (PValue (get h object field), None)
      else Throw RangeError
    else Ret (undefined, Some TypeError).
Proof.
  intros Hnin. unfold readField, readField_with.
  destruct (isObject object); [|done]. cbn [negb].
  unfold schema_get. apply schema_own_None in Hnin. rewrite Hnin.
  destruct (bool_decide (field ∈ Object_prototype_names)); [|done].
  change (_validate (enough_fuel MAX_RECURSE) h (get h object field)
            (FName field) (Some empty_rule) MAX_RECURSE)
    with (validate_call h (get h object field) (FName field)
            (Some empty_rule) MAX_RECURSE).
  rewrite validate_call_unfold by done. done.
Qed.

End ObjectReaderMore.

(** *** The order of the schema *)

Section SchemaOrder.
Import ObjectReader ReaderShapes.
Context `{Host}.

Lemma schema_own_in rules p r :
  NoDup (schema_keys rules) -> (p, r) ∈ rules -> schema_own rules p = Some r.
Proof.
  induction rules as [|[k r0] rules IH]; intros Hnd Hin.
  { by apply elem_of_nil in Hin. }
  cbn [schema_keys map fst] in Hnd. apply NoDup_cons in Hnd as [Hk Hnd].
  cbn [schema_own]. apply elem_of_cons in Hin as [Heq|Hin].
  - injection Heq as -> ->. by rewrite String.eqb_refl.
  - destruct (String.eqb_spec k p) as [->|Hne]; [|by apply IH].
    destruct Hk. apply list_elem_of_fmap. by exists (p, r).
Qed.

Lemma schema_get_perm rules rules' p :
  rules ≡ₚ rules' -> NoDup (schema_keys rules) ->
  schema_get rules p = schema_get rules' p.
Proof.
  intros Hp Hnd.
  assert (Hnd' : NoDup (schema_keys rules')).
  { unfold schema_keys in *. by rewrite <- Hp. }
  assert (Hown : schema_own rules p = schema_own rules' p).
  { destruct (schema_own rules p) as [r|] eqn:Hg.
    - apply schema_own_Some_in in Hg as [_ Hin]. symmetry.
      apply schema_own_in; [done|]. by rewrite <- Hp.
    - destruct (schema_own rules' p) as [r'|] eqn:Hg'; [|done].
      apply schema_own_Some_in in Hg' as [_ Hin].
      rewrite <- Hp in Hin. apply (schema_own_in _ _ _ Hnd) in Hin.
      congruence. }
  unfold schema_get. by rewrite Hown.
Qed.

Lemma object_steps_perm out ps ps' st :
  ps ≡ₚ ps' ->
  result st = Some ∅ -> errors st = ∅ ->
  result (object_steps out ps st) = result (object_steps out ps' st) /\
  errors (object_steps out ps st) = errors (object_steps out ps' st).
Proof.
  intros Hp Hr He. split.
  - destruct (forallb (fun p => negb (has_error (out p))) ps) eqn:Hall.
    + assert (Hclean : forall p, p ∈ ps -> has_error (out p) = false).
      { intros p Hin. rewrite forallb_forall in Hall.
        apply negb_true_iff, Hall. by apply list_elem_of_In. }
      assert (Hclean' : forall p, p ∈ ps' -> has_error (out p) = false).
      { intros p Hin. apply Hclean. by rewrite Hp. }
      destruct (object_steps_result_clean out ps st ∅ Hclean Hr)
        as (o & -> & Hlook).
      destruct (object_steps_result_clean out ps' st ∅ Hclean' Hr)
        as (o' & -> & Hlook').
      f_equal. apply map_eq. intros q. rewrite Hlook, Hlook'.
      destruct (decide (q ∈ ps /\ q <> "__proto__")) as [Hin|Hout].
      * rewrite decide_True; [done|by rewrite <- Hp].
      * rewrite decide_False; [done|by rewrite <- Hp].
    + assert (Hex : exists p, p ∈ ps /\ has_error (out p) = true).
      { apply not_true_iff_false in Hall.
        destruct (existsb (fun p => has_error (out p)) ps) eqn:Hex.
        - apply existsb_exists in Hex as (p & Hin & Hp').
          exists p. split; [by apply list_elem_of_In|done].
        - destruct Hall. apply forallb_forall. intros p Hin.
          destruct (has_error (out p)) eqn:Hp'; [|done].
          assert (existsb (fun p => has_error (out p)) ps = true); [|congruence].
          apply existsb_exists. by exists p. }
      destruct Hex as (p & Hin & Hbad).
      rewrite (object_steps_result_failed out ps st p Hin Hbad).
      rewrite (object_steps_result_failed out ps' st p); [done| |done].
      by rewrite <- Hp.
  - apply map_eq. intros q. rewrite !object_steps_errors.
    destruct (error_of (out q)); [|done].
    destruct (decide (q ∈ ps /\ q <> "__proto__")) as [Hin|Hout].
    + rewrite decide_True; [done|by rewrite <- Hp].
    + rewrite decide_False; [done|by rewrite <- Hp].
Qed.

Lemma read_perm_Ret this this' h object r :
  schema this ≡ₚ schema this' ->
  NoDup (schema_keys (schema this)) ->
  read this h object = Ret r -> read this' h object = Ret r.
Proof.
  intros Hp Hnd Hread.
  destruct (isObject object) eqn:Hobj.
  2:{ rewrite read_not_object in Hread |- * by done. done. }
  destruct (read_Ret_unfold _ _ _ _ Hobj Hread) as (out & Hout & ->).
  assert (Hkeys : schema_keys (schema this) ≡ₚ schema_keys (schema this')).
  { unfold schema_keys. by rewrite Hp. }
  assert (Hout' : forall p, p ∈ schema_keys (schema this') ->
            _validate (enough_fuel MAX_RECURSE) h (get h object p) (FName p)
              (schema_get (schema this') p) MAX_RECURSE = Ret (out p)).
  { intros p Hin. rewrite <- (schema_get_perm _ _ p Hp Hnd).
    apply Hout. by rewrite Hkeys. }
  unfold read, read_with, _validateObject, validateObject_with.
  rewrite Hobj. cbn [negb].
  rewrite (validateObject_loop_returns _ _ _ _ _ out _ _ Hout').
  destruct (object_steps_perm out _ _
              {| result := Some ∅; error := None; errors := ∅ |}
              Hkeys eq_refl eq_refl) as [Hres Herr].
  unfold mbind, Outcome_bind, bind. apply f_equal.
  apply f_equal2; [exact (eq_sym Hres)|exact (eq_sym Herr)].
Qed.

(** X19. The answer of [read] does not depend on the order of the
    fields in the schema, for a schema without [validate] functions
    and patterns (nothing in it keeps state from one field to the
    next) and with no field named [__proto__]: two such schemas with
    the same rules under the same (distinct) names, in any order, give
    an object with the same properties and the same errors.  (The
    order in which the returned object lists its keys follows the
    schema; objects are compared by their properties here.) *)
Theorem read_schema_order this this' h object :
  schema this ≡ₚ schema this' ->
  NoDup (schema_keys (schema this)) ->
  plain_schema (schema this) = true ->
  "__proto__" ∉ schema_keys (schema this) ->
  read this h object = read this' h object.
Proof.
  intros Hp Hnd _ _.
  assert (Hnd' : NoDup (schema_keys (schema this'))).
  { unfold schema_keys in *. by rewrite <- Hp. }
  destruct (read this h object) as [r|e|] eqn:Hr.
  - symmetry. by apply (read_perm_Ret this this').
  - apply read_throws in Hr as Hr'. destruct Hr' as [-> _].
    destruct (read this' h object) as [r'|e'|] eqn:Hr'.
    + apply (read_perm_Ret this' this) in Hr'; [congruence|done|done].
    + by apply read_throws in Hr' as [-> _].
    + by apply read_not_OutOfFuel in Hr'.
  - by apply read_not_OutOfFuel in Hr.
Qed.

End SchemaOrder.

(** ** ObjectReader: the simple rules *)

Section SimpleRuleFacts.
Import ObjectReader ReaderShapes.
Context `{Host}.

Lemma validate_call_simple h value field rule mr :
  0 <= mr -> simple_only rule = true ->
  validate_call h value field (Some rule) mr
  = if optional rule && is_undefined value then Ret (ok undefined)
    else Ret (validate_simple h value (simple rule)).
Proof.
  intros Hmr Hs. unfold simple_only in Hs.
  destruct (validate rule) eqn:Hv; [done|].
  destruct (ObjectReader.object rule) eqn:Ho; [done|].
  destruct (array rule) eqn:Ha; [done|].
  destruct (record rule) eqn:Hr; [done|].
  destruct (optional rule && is_undefined value) eqn:Hopt.
  - unfold validate_call, enough_fuel. cbn [_validate].
    destruct (Z.ltb_spec mr 0); [lia|]. by rewrite Hopt.
  - rewrite validate_call_unfold by done. by rewrite Ho, Ha, Hr.
Qed.

Lemma makeError_err_ok a b : err_ok (inl (_makeError a b)).
Proof. split; [apply makeError_has_error|done]. Qed.

Lemma when_flag_inr flag c fb k l :
  when_flag flag c fb k = inr l -> (is_Some flag -> c = false) /\ k = inr l.
Proof.
  unfold when_flag. destruct flag as [f|].
  - destruct c; [done|]. intros ->. done.
  - intros ->. split; [|done]. by intros [? ?].
Qed.

Lemma when_bound_inr bound test fb k l :
  when_bound bound test fb k = inr l ->
  (forall b, bound = Some b -> test (limit b) = false) /\ k = inr l.
Proof.
  unfold when_bound. destruct bound as [b|].
  - destruct (test (limit b)) eqn:E; [done|]. intros ->.
    split; [|done]. by intros ? [= <-].
  - intros ->. done.
Qed.

Lemma when_flag_err_ok flag c fb k : err_ok k -> err_ok (when_flag flag c fb k).
Proof.
  unfold when_flag. destruct flag; [|done].
  destruct c; [|done]. intros _. apply makeError_err_ok.
Qed.

Lemma when_bound_err_ok bound test fb k :
  err_ok k -> err_ok (when_bound bound test fb k).
Proof.
  unfold when_bound. destruct bound as [b|]; [|done].
  destruct (test (limit b)); [|done]. intros _. apply makeError_err_ok.
Qed.

Lemma check_boolean_err_ok r l : err_ok (check_boolean r l).
Proof.
  unfold check_boolean.
  destruct l as [[]|]; cbn; try apply makeError_err_ok.
  destruct (boolean_true r && negb b); cbn; [apply makeError_err_ok|done].
Qed.

Lemma check_string_err_ok r l : err_ok (check_string r l).
Proof.
  unfold check_string.
  destruct l as [[]|]; cbn; try apply makeError_err_ok.
  destruct (match string_match r with Some _ => _ | None => _ end);
    [apply makeError_err_ok|].
  apply when_flag_err_ok, when_bound_err_ok, when_bound_err_ok. done.
Qed.

Lemma check_number_err_ok r l : err_ok (check_number r l).
Proof.
  unfold check_number.
  destruct l as [[]|]; cbn; try apply makeError_err_ok.
  all: destruct (isNaN _); [apply makeError_err_ok|].
  all: apply when_flag_err_ok, when_flag_err_ok, when_flag_err_ok,
         when_bound_err_ok, when_bound_err_ok; done.
Qed.

Lemma check_date_err_ok h r l : err_ok (check_date h r l).
Proof.
  unfold check_date.
  destruct l as [[]|]; cbn; try apply makeError_err_ok.
  all: destruct (isNaN _); [apply makeError_err_ok|].
  all: apply when_bound_err_ok, when_bound_err_ok; done.
Qed.

Lemma check_value_err_ok r l : err_ok (check_value r l).
Proof.
  unfold check_value.
  destruct (match l with LValue _ => _ | LNewDate _ => _ end);
    [done|apply makeError_err_ok].
Qed.

Lemma step_err_ok {R} (rule : option R) check c :
  (forall r l, err_ok (check r l)) -> err_ok c -> err_ok (step rule check c).
Proof.
  intros Hc. unfold step. destruct c as [e|l]; [done|].
  destruct rule; [|done]. intros _. apply Hc.
Qed.

Lemma step_inr {R} (rule : option R) check c l' :
  step rule check c = inr l' -> exists l, c = inr l /\ passes rule check l l'.
Proof.
  unfold step, passes. destruct c as [e|l]; [done|].
  destruct rule; intros Hs; exists l; [done|]. by injection Hs as ->.
Qed.

(** A clean result of the simple checks went through each of them. *)
Lemma validate_simple_clean h value s :
  has_error (validate_simple h value s) = false ->
  exists l1 l2 l3 l4 l5,
    passes (booleanRule s) check_boolean (LValue value) l1 /\
    passes (stringRule s) check_string l1 l2 /\
    passes (numberRule s) check_number l2 l3 /\
    passes (dateRule s) (check_date h) l3 l4 /\
    passes (valueRule s) check_value l4 l5 /\
    validate_simple h value s = ok (parsed_of l5).
Proof.
  unfold validate_simple. cbn zeta.
  set (c1 := step (booleanRule s) check_boolean (inr (LValue value))).
  set (c2 := step (stringRule s) check_string c1).
  set (c3 := step (numberRule s) check_number c2).
  set (c4 := step (dateRule s) (check_date h) c3).
  set (c5 := step (valueRule s) check_value c4).
  assert (Hok : err_ok c5).
  { apply step_err_ok; [apply check_value_err_ok|].
    apply step_err_ok; [apply check_date_err_ok|].
    apply step_err_ok; [apply check_number_err_ok|].
    apply step_err_ok; [apply check_string_err_ok|].
    apply step_err_ok; [apply check_boolean_err_ok|]. done. }
  destruct c5 as [e|l5] eqn:E5.
  { destruct Hok as [Hok _]. intros He. by rewrite Hok in He. }
  intros _.
  apply step_inr in E5 as (l4 & E4 & P5).
  apply step_inr in E4 as (l3 & E3 & P4).
  apply step_inr in E3 as (l2 & E2 & P3).
  apply step_inr in E2 as (l1 & E1 & P2).
  apply step_inr in E1 as (l0 & E0 & P1).
  injection E0 as <-.
  by exists l1, l2, l3, l4, l5.
Qed.

(** And the other way round *)
Lemma validate_simple_passes h value s l1 l2 l3 l4 l5 :
  passes (booleanRule s) check_boolean (LValue value) l1 ->
  passes (stringRule s) check_string l1 l2 ->
  passes (numberRule s) check_number l2 l3 ->
  passes (dateRule s) (check_date h) l3 l4 ->
  passes (valueRule s) check_value l4 l5 ->
  validate_simple h value s = ok (parsed_of l5).
Proof.
  unfold validate_simple, passes, step. cbn zeta.
  destruct (booleanRule s); [intros ->|intros ->];
  (destruct (stringRule s); [intros ->|intros ->]);
  (destruct (numberRule s); [intros ->|intros ->]);
  (destruct (dateRule s); [intros ->|intros ->]);
  (destruct (valueRule s); [intros ->|intros ->]); done.
Qed.

Lemma check_boolean_inr r l l' :
  check_boolean r l = inr l' <->
  l' = l /\ exists b, l = LValue (VBoolean b) /\ boolean_accepted r b.
Proof.
  unfold check_boolean, boolean_accepted. split.
  - destruct l as [[]|]; try done.
    destruct (boolean_true r) eqn:Ht, b; cbn; try done.
    + intros [= <-]. eauto.
    + intros [= <-]. split; [done|]. eexists. split; [done|]. done.
    + intros [= <-]. split; [done|]. eexists. split; [done|]. done.
  - intros (-> & b & -> & Hb).
    destruct (boolean_true r); cbn; [|done]. by rewrite Hb.
Qed.

Lemma check_string_inr r l l' :
  check_string r l = inr l' <->
  l' = l /\ exists s, l = LValue (VString s) /\ string_accepted r s.
Proof.
  unfold check_string, string_accepted. split.
  - destruct l as [[]|]; try done.
    destruct (match string_match r with Some _ => _ | None => _ end) eqn:Hm;
      [done|].
    intros Hc.
    apply when_flag_inr in Hc as (Hreq & Hc).
    apply when_bound_inr in Hc as (Hmin & Hc).
    apply when_bound_inr in Hc as (Hmax & Hc).
    injection Hc as <-. split; [done|]. exists s. split; [done|].
    split; [|split; [|done]].
    + intros test Ht. rewrite Ht in Hm. by apply negb_false_iff in Hm.
    + intros Hr ->. by specialize (Hreq Hr).
  - intros (-> & s & -> & Hm & Hreq & Hmin & Hmax).
    destruct (string_match r) as [test|] eqn:Et.
    + rewrite (Hm test eq_refl). cbn [negb].
      unfold when_flag, when_bound.
      destruct (string_required r) as [f|].
      * destruct (String.eqb_spec s ""); [by destruct Hreq|].
        destruct (string_min r) as [b|]; [rewrite (Hmin b eq_refl)|];
        (destruct (string_max r) as [b'|]; [rewrite (Hmax b' eq_refl)|]); done.
      * destruct (string_min r) as [b|]; [rewrite (Hmin b eq_refl)|];
        (destruct (string_max r) as [b'|]; [rewrite (Hmax b' eq_refl)|]); done.
    + unfold when_flag, when_bound.
      destruct (string_required r) as [f|].
      * destruct (String.eqb_spec s ""); [by destruct Hreq|].
        destruct (string_min r) as [b|]; [rewrite (Hmin b eq_refl)|];
        (destruct (string_max r) as [b'|]; [rewrite (Hmax b' eq_refl)|]); done.
      * destruct (string_min r) as [b|]; [rewrite (Hmin b eq_refl)|];
        (destruct (string_max r) as [b'|]; [rewrite (Hmax b' eq_refl)|]); done.
Qed.

Lemma check_number_inr r l l' :
  check_number r l = inr l' <->
  exists n, l' = LValue (VNumber n) /\ coerced_number l n /\
            number_accepted r n.
Proof.
  unfold number_accepted.
  assert (Hgen : forall n,
    (if isNaN n then inl (_makeError (number_err r) None)
     else when_flag (number_integer r) (negb (isSafeInteger n)) (number_err r)
        (when_flag (number_nonzero r) (falsy_number n) (number_err r)
        (when_flag (number_positive r) (n <? 0)%float (number_err r)
        (when_bound (number_min r) (fun l => n <? l)%float (number_err r)
        (when_bound (number_max r) (fun l => l <? n)%float (number_err r)
        (inr (LValue (VNumber n)))))))) = inr l' <->
    l' = LValue (VNumber n) /\
    isNaN n = false /\
    (is_Some (number_integer r) -> isSafeInteger n = true) /\
    (is_Some (number_nonzero r) -> falsy_number n = false) /\
    (is_Some (number_positive r) -> (n <? 0)%float = false) /\
    (forall b, number_min r = Some b -> (n <? limit b)%float = false) /\
    (forall b, number_max r = Some b -> (limit b <? n)%float = false)).
  { intros n. split.
    - destruct (isNaN n) eqn:Hn; [done|]. intros Hc.
      apply when_flag_inr in Hc as (Hi & Hc).
      apply when_flag_inr in Hc as (Hz & Hc).
      apply when_flag_inr in Hc as (Hp & Hc).
      apply when_bound_inr in Hc as (Hmin & Hc).
      apply when_bound_inr in Hc as (Hmax & Hc).
      injection Hc as <-. split; [done|]. split; [done|].
      split; [|done]. intros Hs. apply negb_false_iff. auto.
    - intros (-> & Hn & Hi & Hz & Hp & Hmin & Hmax). rewrite Hn.
      unfold when_flag, when_bound.
      destruct (number_integer r); [rewrite Hi by eauto; cbn [negb]|];
      (destruct (number_nonzero r); [rewrite Hz by eauto|]);
      (destruct (number_positive r); [rewrite Hp by eauto|]);
      (destruct (number_min r) as [b|]; [rewrite (Hmin b eq_refl)|]);
      (destruct (number_max r) as [b'|]; [rewrite (Hmax b' eq_refl)|]); done. }
  unfold check_number, coerced_number. split.
  - destruct l as [[]|]; try done.
    + intros Hc. apply Hgen in Hc as (-> & Hc). exists n. split; [done|].
      split; [by left|done].
    + intros Hc. apply Hgen in Hc as (-> & Hc). exists (parseFloat s).
      split; [done|]. split; [right; eauto|done].
  - intros (n & -> & [->|(s & -> & ->)] & Hc); apply Hgen; done.
Qed.

Lemma check_date_inr h r l l' :
  check_date h r l = inr l' <->
  exists t, coerced_date h l l' t /\ date_accepted r t.
Proof.
  unfold date_accepted.
  assert (Hgen : forall t l0,
    (if isNaN t then inl (_makeError (date_err r) None)
     else when_bound (date_min r) (fun l => t <? l)%float (date_err r)
         (when_bound (date_max r) (fun l => l <? t)%float (date_err r)
         (inr l0))) = inr l' <->
    l' = l0 /\ isNaN t = false /\
    (forall b, date_min r = Some b -> (t <? limit b)%float = false) /\
    (forall b, date_max r = Some b -> (limit b <? t)%float = false)).
  { intros t l0. split.
    - destruct (isNaN t) eqn:Hn; [done|]. intros Hc.
      apply when_bound_inr in Hc as (Hmin & Hc).
      apply when_bound_inr in Hc as (Hmax & Hc).
      by injection Hc as <-.
    - intros (-> & Hn & Hmin & Hmax). rewrite Hn. unfold when_bound.
      destruct (date_min r) as [b|]; [rewrite (Hmin b eq_refl)|];
      (destruct (date_max r) as [b'|]; [rewrite (Hmax b' eq_refl)|]); done. }
  unfold check_date, coerced_date. split.
  - destruct l as [[]|]; try done; cbn [time_of].
    + intros Hc. apply Hgen in Hc as (-> & Hc). eexists. split; [|done].
      right; right; left. eauto.
    + intros Hc. apply Hgen in Hc as (-> & Hc). eexists. split; [|done].
      right; left. eauto.
    + intros Hc. apply Hgen in Hc as (-> & Hc). eexists. split; [|done].
      left. eauto.
    + intros Hc. apply Hgen in Hc as (-> & Hc). eexists. split; [|done].
      right; right; right. eauto.
  - intros (t & [(a & -> & -> & ->)|[(s & -> & -> & ->)|[(n & -> & -> & ->)|(-> & ->)]]] & Hc);
      cbn [time_of]; apply Hgen; done.
Qed.

Lemma check_value_inr r l l' :
  check_value r l = inr l' <->
  l' = l /\ exists v, l = LValue v /\
                      includes (default [] (value_match r)) v = true.
Proof.
  unfold check_value. split.
  - destruct l as [v|t]; [|done].
    destruct (includes _ v) eqn:Hi; [|done]. intros [= <-]. eauto.
  - intros (-> & v & -> & ->). done.
Qed.

Lemma simple_rule_clean h value field rule mr v :
  0 <= mr -> simple_only rule = true ->
  validate_call h value field (Some rule) mr = Ret v ->
  has_error v = false ->
  (optional rule = true /\ value = VUndefined /\ v = ok undefined) \/
  exists l1 l2 l3 l4 l5,
    passes (booleanRule (simple rule)) check_boolean (LValue value) l1 /\
    passes (stringRule (simple rule)) check_string l1 l2 /\
    passes (numberRule (simple rule)) check_number l2 l3 /\
    passes (dateRule (simple rule)) (check_date h) l3 l4 /\
    passes (valueRule (simple rule)) check_value l4 l5 /\
    v = ok (parsed_of l5).
Proof.
  intros Hmr Hs Hv Hc. rewrite validate_call_simple in Hv by done.
  destruct (optional rule && is_undefined value) eqn:Hopt.
  - left. apply andb_true_iff in Hopt as [Ho Hu].
    injection Hv as <-. by destruct value.
  - right. injection Hv as <-.
    destruct (validate_simple_clean h value (simple rule) Hc)
      as (l1 & l2 & l3 & l4 & l5 & ?). by exists l1, l2, l3, l4, l5.
Qed.

Lemma simple_rule_passes h value field rule mr l1 l2 l3 l4 l5 :
  0 <= mr -> simple_only rule = true ->
  is_undefined value = false ->
  passes (booleanRule (simple rule)) check_boolean (LValue value) l1 ->
  passes (stringRule (simple rule)) check_string l1 l2 ->
  passes (numberRule (simple rule)) check_number l2 l3 ->
  passes (dateRule (simple rule)) (check_date h) l3 l4 ->
  passes (valueRule (simple rule)) check_value l4 l5 ->
  validate_call h value field (Some rule) mr = Ret (ok (parsed_of l5)).
Proof.
  intros Hmr Hs Hu P1 P2 P3 P4 P5. rewrite validate_call_simple by done.
  rewrite Hu, andb_false_r. f_equal.
  by apply (validate_simple_passes h value (simple rule) l1 l2 l3 l4 l5).
Qed.

Lemma passes_boolean_keeps r l l' :
  passes r check_boolean l l' -> l' = l.
Proof. destruct r; unfold passes; [|done]. intros Hc. by apply check_boolean_inr in Hc as [-> _]. Qed.

Lemma passes_string_keeps r l l' :
  passes r check_string l l' -> l' = l.
Proof. destruct r; unfold passes; [|done]. intros Hc. by apply check_string_inr in Hc as [-> _]. Qed.

Lemma passes_value_keeps r l l' :
  passes r check_value l l' -> l' = l.
Proof. destruct r; unfold passes; [|done]. intros Hc. by apply check_value_inr in Hc as [-> _]. Qed.

(** X5. The [boolean] member of a rule: a result without error means
    the value is a boolean, and [true] if the member asks for it (or
    the value is [undefined] and the rule optional); with no other
    member, every such boolean is returned as it is. *)
Theorem boolean_rule_accepts h value field rule r mr :
  0 <= mr -> simple_only rule = true ->
  booleanRule (simple rule) = Some r ->
  (forall v,
     validate_call h value field (Some rule) mr = Ret v ->
     has_error v = false ->
     (optional rule = true /\ value = VUndefined /\ v = ok undefined) \/
     exists b, value = VBoolean b /\ boolean_accepted r b) /\
  (forall b,
     stringRule (simple rule) = None -> numberRule (simple rule) = None ->
     dateRule (simple rule) = None -> valueRule (simple rule) = None ->
     value = VBoolean b -> boolean_accepted r b ->
     validate_call h value field (Some rule) mr = Ret (ok (PValue value))).
Proof.
  intros Hmr Hs Hr. split.
  - intros v Hv Hc.
    destruct (simple_rule_clean _ _ _ _ _ _ Hmr Hs Hv Hc)
      as [?|(l1 & l2 & l3 & l4 & l5 & P1 & _)]; [by left|right].
    rewrite Hr in P1. unfold passes in P1.
    apply check_boolean_inr in P1 as (_ & b & [= ->] & Hb). eauto.
  - intros b Hsr Hnr Hdr Hvr -> Hb.
    apply (simple_rule_passes h _ field rule mr
             (LValue (VBoolean b)) (LValue (VBoolean b)) (LValue (VBoolean b))
             (LValue (VBoolean b)) (LValue (VBoolean b))); try done.
    + rewrite Hr. unfold passes. apply check_boolean_inr. eauto.
    + by rewrite Hsr.
    + by rewrite Hnr.
    + by rewrite Hdr.
    + by rewrite Hvr.
Qed.

(** X6. The [string] member of a rule: a result without error means
    the value is a string that the pattern accepts, that is not empty
    if [required], and whose length is within [min] and [max]; it is
    returned unchanged unless a [number] or [date] member coerces it.
    With no other member, every such string is accepted. *)
Theorem string_rule_accepts h value field rule r mr :
  0 <= mr -> simple_only rule = true ->
  stringRule (simple rule) = Some r ->
  (forall v,
     validate_call h value field (Some rule) mr = Ret v ->
     has_error v = false ->
     (optional rule = true /\ value = VUndefined /\ v = ok undefined) \/
     exists s, value = VString s /\ string_accepted r s /\
       (numberRule (simple rule) = None -> dateRule (simple rule) = None ->
        v = ok (PValue value))) /\
  (forall s,
     booleanRule (simple rule) = None -> numberRule (simple rule) = None ->
     dateRule (simple rule) = None -> valueRule (simple rule) = None ->
     value = VString s -> string_accepted r s ->
     validate_call h value field (Some rule) mr = Ret (ok (PValue value))).
Proof.
  intros Hmr Hs Hr. split.
  - intros v Hv Hc.
    destruct (simple_rule_clean _ _ _ _ _ _ Hmr Hs Hv Hc)
      as [?|(l1 & l2 & l3 & l4 & l5 & P1 & P2 & P3 & P4 & P5 & ->)];
      [by left|right].
    apply passes_boolean_keeps in P1 as ->.
    rewrite Hr in P2. unfold passes in P2.
    apply check_string_inr in P2 as (-> & s & [= ->] & Hacc).
    exists s. split; [done|]. split; [done|].
    intros Hnr Hdr. rewrite Hnr in P3. rewrite Hdr in P4. unfold passes in P3, P4.
    subst. by apply passes_value_keeps in P5 as ->.
  - intros s Hbr Hnr Hdr Hvr -> Hacc.
    apply (simple_rule_passes h _ field rule mr
             (LValue (VString s)) (LValue (VString s)) (LValue (VString s))
             (LValue (VString s)) (LValue (VString s))); try done.
    + by rewrite Hbr.
    + rewrite Hr. unfold passes. apply check_string_inr. eauto.
    + by rewrite Hnr.
    + by rewrite Hdr.
    + by rewrite Hvr.
Qed.

(** X7. The [number] member of a rule: a result without error means
    the value is a number, or a string that [parseFloat] turns into
    one, which is not [NaN], is a safe integer, not zero and not
    negative where the member asks for it, and within [min] and [max];
    the result is that number (for a string, the parsed number).  With
    no other member, every such number is accepted. *)
Theorem number_rule_accepts h value field rule r mr :
  0 <= mr -> simple_only rule = true ->
  numberRule (simple rule) = Some r ->
  (forall v,
     validate_call h value field (Some rule) mr = Ret v ->
     has_error v = false ->
     (optional rule = true /\ value = VUndefined /\ v = ok undefined) \/
     exists n, coerced_number (LValue value) n /\ number_accepted r n /\
       (dateRule (simple rule) = None -> v = ok (PValue (VNumber n)))) /\
  (forall n,
     booleanRule (simple rule) = None -> stringRule (simple rule) = None ->
     dateRule (simple rule) = None -> valueRule (simple rule) = None ->
     coerced_number (LValue value) n -> number_accepted r n ->
     validate_call h value field (Some rule) mr
     = Ret (ok (PValue (VNumber n)))).
Proof.
  intros Hmr Hs Hr. split.
  - intros v Hv Hc.
    destruct (simple_rule_clean _ _ _ _ _ _ Hmr Hs Hv Hc)
      as [?|(l1 & l2 & l3 & l4 & l5 & P1 & P2 & P3 & P4 & P5 & ->)];
      [by left|right].
    apply passes_boolean_keeps in P1 as ->.
    apply passes_string_keeps in P2 as ->.
    rewrite Hr in P3. unfold passes in P3.
    apply check_number_inr in P3 as (n & -> & Hco & Hacc).
    exists n. split; [done|]. split; [done|].
    intros Hdr. rewrite Hdr in P4. unfold passes in P4. subst.
    by apply passes_value_keeps in P5 as ->.
  - intros n Hbr Hsr Hdr Hvr Hco Hacc.
    apply (simple_rule_passes h _ field rule mr
             (LValue value) (LValue value) (LValue (VNumber n))
             (LValue (VNumber n)) (LValue (VNumber n))); try done.
    + by destruct Hco as [[= ->]|(s & [= ->] & _)].
    + by rewrite Hbr.
    + by rewrite Hsr.
    + rewrite Hr. unfold passes. apply check_number_inr. eauto.
    + by rewrite Hdr.
    + by rewrite Hvr.
Qed.

(** X8. The [date] member of a rule (without a [number] member): a
    result without error means the value is a [Date], or a string or
    number from which a new [Date] is made, whose time is not [NaN] and
    within [min] and [max]; the result is the [Date] given or the new
    one.  If the rule has a [value] member as well, only a [Date] that
    was given passes, since a new one is in no list.  With no other
    member, every such date is accepted. *)
Theorem date_rule_accepts h value field rule r mr :
  0 <= mr -> simple_only rule = true ->
  dateRule (simple rule) = Some r ->
  numberRule (simple rule) = None ->
  (forall v,
     validate_call h value field (Some rule) mr = Ret v ->
     has_error v = false ->
     (optional rule = true /\ value = VUndefined /\ v = ok undefined) \/
     exists l t, coerced_date h (LValue value) l t /\ date_accepted r t /\
       v = ok (parsed_of l) /\
       (is_Some (valueRule (simple rule)) -> exists a, value = VDate a)) /\
  (forall l t,
     booleanRule (simple rule) = None -> stringRule (simple rule) = None ->
     valueRule (simple rule) = None ->
     coerced_date h (LValue value) l t -> date_accepted r t ->
     validate_call h value field (Some rule) mr = Ret (ok (parsed_of l))).
Proof.
  intros Hmr Hs Hr Hnr. split.
  - intros v Hv Hc.
    destruct (simple_rule_clean _ _ _ _ _ _ Hmr Hs Hv Hc)
      as [?|(l1 & l2 & l3 & l4 & l5 & P1 & P2 & P3 & P4 & P5 & ->)];
      [by left|right].
    apply passes_boolean_keeps in P1 as ->.
    apply passes_string_keeps in P2 as ->.
    rewrite Hnr in P3. unfold passes in P3. subst l3.
    rewrite Hr in P4. unfold passes in P4.
    apply check_date_inr in P4 as (t & Hco & Hacc).
    pose proof (passes_value_keeps _ _ _ P5) as ->.
    exists l4, t. split; [done|]. split; [done|]. split; [done|].
    intros [vr Hvr]. rewrite Hvr in P5. unfold passes in P5.
    apply check_value_inr in P5 as (_ & x & -> & _).
    destruct Hco as [(a & [= ->] & _)|[(s & _ & [=] & _)|[(n & _ & [=] & _)|([=] & _)]]].
    eauto.
  - intros l t Hbr Hsr Hvr Hco Hacc.
    apply (simple_rule_passes h _ field rule mr
             (LValue value) (LValue value) (LValue value) l l); try done.
    + by destruct Hco as [(a & [= ->] & _)|[(s & [= ->] & _)|[(n & [= ->] & _)|([=] & _)]]].
    + by rewrite Hbr.
    + by rewrite Hsr.
    + by rewrite Hnr.
    + rewrite Hr. unfold passes. apply check_date_inr. eauto.
    + by rewrite Hvr.
Qed.

(** X9. The [value] member of a rule: a result without error hands
    back a value of the [match] list (the input itself, unless a
    [number] member coerced it).  With no other member, the answer is
    the value if the list includes it and the error of the member
    otherwise; without a list nothing is accepted. *)
Theorem value_rule_accepts h value field rule r mr :
  0 <= mr -> simple_only rule = true ->
  valueRule (simple rule) = Some r ->
  (forall v,
     validate_call h value field (Some rule) mr = Ret v ->
     has_error v = false ->
     (optional rule = true /\ value = VUndefined /\ v = ok undefined) \/
     exists x, v = ok (PValue x) /\
       includes (default [] (value_match r)) x = true /\
       (numberRule (simple rule) = None -> x = value)) /\
  (booleanRule (simple rule) = None -> stringRule (simple rule) = None ->
   numberRule (simple rule) = None -> dateRule (simple rule) = None ->
   (optional rule && is_undefined value) = false ->
   validate_call h value field (Some rule) mr
   = Ret (if includes (default [] (value_match r)) value
          then ok (PValue value)
          else _makeError (value_err r) None)).
Proof.
  intros Hmr Hs Hr. split.
  - intros v Hv Hc.
    destruct (simple_rule_clean _ _ _ _ _ _ Hmr Hs Hv Hc)
      as [?|(l1 & l2 & l3 & l4 & l5 & P1 & P2 & P3 & P4 & P5 & ->)];
      [by left|right].
    apply passes_boolean_keeps in P1 as ->.
    apply passes_string_keeps in P2 as ->.
    rewrite Hr in P5. unfold passes in P5.
    apply check_value_inr in P5 as (-> & x & -> & Hin).
    exists x. split; [done|]. split; [done|].
    intros Hnr. rewrite Hnr in P3. unfold passes in P3. subst l3.
    destruct (dateRule (simple rule)) as [dr|]; unfold passes in P4.
    + apply check_date_inr in P4
        as (t & [(a & [= ->] & [= ->] & _)|[(s & _ & [=] & _)|[(n & _ & [=] & _)|([=] & _)]]] & _).
      done.
    + by injection P4 as ->.
  - intros Hbr Hsr Hnr Hdr Hopt. rewrite validate_call_simple by done.
    rewrite Hopt. unfold validate_simple. rewrite Hbr, Hsr, Hnr, Hdr, Hr.
    cbn [step]. unfold check_value.
    by destruct (includes _ value).
Qed.

End SimpleRuleFacts.

(** ** ObjectReader: arrays, records and nested objects *)

Section CompoundRuleFacts.
Import ObjectReader ReaderShapes.
Context `{Host}.

(** *** Arrays *)

Lemma validateArray_loop_clean rec rule mr : forall xs i acc vs,
  length vs = length xs ->
  (forall k x, xs !! k = Some x ->
     exists v, rec x (FIndex (i + k)%nat) (Some rule) mr = Ret v /\
               has_error v = false /\ vs !! k = Some (vr_value v)) ->
  validateArray_loop rec xs i rule mr acc = Ret (ok (PArray (acc ++ vs))).
Proof.
  induction xs as [|x xs IH]; intros i acc vs Hlen Hall.
  { destruct vs; [|done]. by rewrite app_nil_r. }
  destruct vs as [|w vs]; [done|].
  cbn [validateArray_loop].
  destruct (Hall 0%nat x eq_refl) as (v & Hv & Hc & Hw).
  rewrite Nat.add_0_r in Hv. rewrite Hv. cbn. rewrite Hc.
  injection Hw as ->.
  rewrite (IH (S i) (acc ++ [vr_value v]) vs).
  - by rewrite <- app_assoc.
  - cbn in Hlen. lia.
  - intros k y Hk. destruct (Hall (S k) y Hk) as (v' & Hv' & ?).
    exists v'. by rewrite Nat.add_succ_comm.
Qed.

Lemma validateArray_loop_failure rec rule mr : forall xs i acc k x v,
  xs !! k = Some x ->
  (forall j y, (j < k)%nat -> xs !! j = Some y ->
     exists w, rec y (FIndex (i + j)%nat) (Some rule) mr = Ret w /\
               has_error w = false) ->
  rec x (FIndex (i + k)%nat) (Some rule) mr = Ret v ->
  has_error v = true ->
  validateArray_loop rec xs i rule mr acc = Ret v.
Proof.
  induction xs as [|x0 xs IH]; intros i acc k x v Hk Hbefore Hv Hc; [done|].
  cbn [validateArray_loop]. destruct k as [|k].
  - injection Hk as ->. rewrite Nat.add_0_r in Hv. rewrite Hv. cbn.
    by rewrite Hc.
  - destruct (Hbefore 0%nat x0 ltac:(lia) eq_refl) as (w & Hw & Hwc).
    rewrite Nat.add_0_r in Hw. rewrite Hw. cbn. rewrite Hwc.
    apply (IH (S i) _ k x v); [done| |by rewrite Nat.add_succ_comm|done].
    intros j y Hj Hy.
    destruct (Hbefore (S j) y ltac:(lia) Hy) as (w' & Hw' & ?).
    exists w'. by rewrite Nat.add_succ_comm.
Qed.

(** X10. The [array] member of a rule: anything but an array is an
    error; so is an array shorter than [min] or longer than [max],
    with the error of that bound, before any item is looked at.
    Otherwise the items are validated in order with the budget less
    one: if all pass, the answer is the array of their values, of the
    same length; if not, it is the result of the first item that
    fails. *)
Theorem array_rule_items h value field rule items err min max mr :
  0 <= mr ->
  (optional rule && is_undefined value) = false ->
  validate rule = None -> ObjectReader.object rule = None ->
  array rule = Some (ArrRule items err min max) ->
  let answer := validate_call h value field (Some rule) mr in
  let item i x :=
    validate_call h x (FIndex i) (Some (default empty_rule items)) (mr - 1) in
  ((forall a, value <> VArray a) -> answer = Ret (_makeError err None)) /\
  (forall a, value = VArray a ->
     let len := number_of_nat (length (arr_items h a)) in
     (forall b, min = Some b -> (len <? limit b)%float = true ->
        answer = Ret (_makeError (bound_err b) err)) /\
     (forall b, (forall b', min = Some b' -> (len <? limit b')%float = false) ->
        max = Some b -> (limit b <? len)%float = true ->
        answer = Ret (_makeError (bound_err b) err)) /\
     ((forall b, min = Some b -> (len <? limit b)%float = false) ->
      (forall b, max = Some b -> (limit b <? len)%float = false) ->
      (forall vs,
         length vs = length (arr_items h a) ->
         (forall i x, arr_items h a !! i = Some x ->
            exists v, item i x = Ret v /\ has_error v = false /\
                      vs !! i = Some (vr_value v)) ->
         answer = Ret (ok (PArray vs))) /\
      (forall i x v,
         arr_items h a !! i = Some x ->
         (forall j y, (j < i)%nat -> arr_items h a !! j = Some y ->
            exists w, item j y = Ret w /\ has_error w = false) ->
         item i x = Ret v -> has_error v = true ->
         answer = Ret v))).
Proof.
  intros Hmr Hopt Hval Hobj Harr answer item.
  assert (Hcall : answer = _) by (exact (validate_call_unfold h value field rule mr Hmr Hopt Hval)).
  rewrite Hobj, Harr in Hcall. clearbody answer. subst answer.
  split.
  { intros Hna. destruct value; try done. by destruct (Hna a). }
  intros a ->. cbn zeta. split; [|split].
  - intros b -> Hlt. unfold when_bound at 1. by rewrite Hlt.
  - intros b Hmin -> Hgt. unfold when_bound.
    destruct min as [b'|]; [rewrite (Hmin b' eq_refl)|]; by rewrite Hgt.
  - intros Hmin Hmax.
    assert (Hb : when_bound min
              (fun l => number_of_nat (length (arr_items h a)) <? l)%float err
              (when_bound max
                 (fun l => l <? number_of_nat (length (arr_items h a)))%float err
                 (inr (LValue (VArray a)))) = inr (LValue (VArray a))).
    { unfold when_bound.
      destruct min as [b|]; [rewrite (Hmin b eq_refl)|];
      (destruct max as [b'|]; [rewrite (Hmax b' eq_refl)|]); done. }
    rewrite Hb. unfold validateArray_with. split.
    + intros vs Hlen Hall.
      by apply (validateArray_loop_clean _ _ _ _ 0%nat [] vs).
    + intros i x v Hi Hbefore Hv Hc.
      by apply (validateArray_loop_failure _ _ _ _ 0%nat [] i x v).
Qed.

(** *** Records *)

Lemma validateRecord_loop_inv rec h value rule mr : forall ks acc v,
  validateRecord_loop rec h value ks rule mr acc = Ret v ->
  (has_error v = true /\
   exists k, k ∈ ks /\ rec (get h value k) (FName k) (Some rule) mr = Ret v) \/
  (exists m, v = ok (PObject m) /\
     (forall k, k ∈ ks ->
        exists w, rec (get h value k) (FName k) (Some rule) mr = Ret w /\
                  has_error w = false /\ m !! k = Some (vr_value w)) /\
     (forall k, k ∉ ks -> m !! k = acc !! k)).
Proof.
  induction ks as [|k0 ks IH]; intros acc v Hloop.
  { injection Hloop as <-. right. exists acc. split; [done|]. split; [|done].
    intros k Hk. by apply elem_of_nil in Hk. }
  cbn [validateRecord_loop] in Hloop.
  destruct (rec (get h value k0) (FName k0) (Some rule) mr) as [r| |] eqn:Hr;
    cbn in Hloop; [|done..].
  destruct (has_error r) eqn:Hc.
  { injection Hloop as <-. left. split; [done|]. exists k0. split; [|done].
    apply elem_of_cons. by left. }
  destruct (IH _ _ Hloop) as [(Hv & k & Hk & Hrk)|(m & -> & Hin & Hout)].
  { left. split; [done|]. exists k. split; [|done].
    apply elem_of_cons. by right. }
  right. exists m. split; [done|]. split.
  - intros k Hk. destruct (decide (k ∈ ks)) as [Hks|Hks]; [by apply Hin|].
    apply elem_of_cons in Hk as [->|Hk]; [|done].
    exists r. split; [done|]. split; [done|].
    rewrite (Hout _ Hks). by rewrite lookup_insert_eq.
  - intros k Hk. apply not_elem_of_cons in Hk as [Hne Hk].
    rewrite (Hout _ Hk). by rewrite lookup_insert_ne.
Qed.

(** X11. The [record] member of a rule: anything but an object is an
    error.  For an object the answer is either the failing result of
    one of its properties, or a new object that has exactly the keys of
    the input, each with the validated value of that property. *)
Theorem record_rule_keys h value field rule values err mr :
  0 <= mr ->
  (optional rule && is_undefined value) = false ->
  validate rule = None -> ObjectReader.object rule = None ->
  array rule = None -> record rule = Some (RecRule values err) ->
  let answer := validate_call h value field (Some rule) mr in
  let item k :=
    validate_call h (get h value k) (FName k)
      (Some (default empty_rule values)) (mr - 1) in
  let keys := map fst (props_of h value) in
  (isObject value = false -> answer = Ret (_makeError err None)) /\
  (isObject value = true -> forall v, answer = Ret v ->
     (has_error v = true /\ exists k, k ∈ keys /\ item k = Ret v) \/
     (exists m, v = ok (PObject m) /\
        (forall k, is_Some (m !! k) <-> k ∈ keys) /\
        (forall k, k ∈ keys ->
           exists w, item k = Ret w /\ has_error w = false /\
                     m !! k = Some (vr_value w)))).
Proof.
  intros Hmr Hopt Hval Hobj Harr Hrec answer item keys.
  assert (Hcall : answer = _) by (exact (validate_call_unfold h value field rule mr Hmr Hopt Hval)).
  rewrite Hobj, Harr, Hrec in Hcall. clearbody answer. subst answer.
  split.
  { intros ->. done. }
  intros -> v Hv. cbn [negb] in Hv.
  apply validateRecord_loop_inv in Hv as [?|(m & -> & Hin & Hout)]; [by left|].
  right. exists m. split; [done|]. split; [|done].
  intros k. split.
  - intros Hs. destruct (decide (k ∈ keys)) as [|Hn]; [done|].
    rewrite (Hout _ Hn), lookup_empty in Hs. by destruct Hs.
  - intros Hk. destruct (Hin _ Hk) as (w & _ & _ & ->). done.
Qed.

(** *** Nested objects *)

Lemma object_step_error_clean p v st :
  has_error v = false -> error (object_step p v st) = error st.
Proof.
  unfold object_step, has_error. destruct (vr_error v) as [e|]; [|done].
  by intros ->.
Qed.

Lemma object_steps_error_clean out ps : forall st,
  (forall p, p ∈ ps -> has_error (out p) = false) ->
  error (object_steps out ps st) = error st.
Proof.
  induction ps as [|p ps IH]; intros st Hall; [done|].
  rewrite object_steps_cons, IH.
  - apply object_step_error_clean, Hall, elem_of_cons. by left.
  - intros q Hq. apply Hall, elem_of_cons. by right.
Qed.

Lemma object_step_error_kept p v st e :
  error st = Some e -> truthy_sc e = true ->
  error (object_step p v st) = Some e.
Proof.
  intros He Ht. unfold object_step. destruct (vr_error v) as [e'|]; [|done].
  destruct (truthy_sc e'); [|done]. cbn. by rewrite He, Ht.
Qed.

Lemma object_steps_error_kept out ps e : forall st,
  error st = Some e -> truthy_sc e = true ->
  error (object_steps out ps st) = Some e.
Proof.
  induction ps as [|p ps IH]; intros st He Ht; [done|].
  rewrite object_steps_cons. apply IH; [|done].
  by apply object_step_error_kept.
Qed.

Lemma object_steps_app out ps qs st :
  object_steps out (ps ++ qs) st = object_steps out qs (object_steps out ps st).
Proof. unfold object_steps. by rewrite fold_left_app. Qed.

Lemma object_steps_first_error out pre p post st e :
  error st = None ->
  (forall q, q ∈ pre -> has_error (out q) = false) ->
  vr_error (out p) = Some e -> truthy_sc e = true ->
  error (object_steps out (pre ++ p :: post) st) = Some e.
Proof.
  intros Hst Hpre He Ht.
  rewrite object_steps_app, object_steps_cons.
  apply object_steps_error_kept; [|done].
  unfold object_step. rewrite He, Ht. cbn.
  by rewrite (object_steps_error_clean out pre st Hpre), Hst.
Qed.

Lemma validateObject_with_Ret rec h object rules mr st' :
  validateObject_with rec h object rules mr = Ret st' ->
  exists out,
    (forall p, p ∈ schema_keys rules ->
       rec (get h object p) (FName p) (schema_get rules p) mr = Ret (out p)) /\
    st' = object_steps out (schema_keys rules)
            {| result := Some ∅; error := None; errors := ∅ |}.
Proof.
  unfold validateObject_with. intros Hloop.
  set (out p := match rec (get h object p) (FName p) (schema_get rules p) mr with
                | Ret v => v
                | _ => ok undefined
                end).
  assert (Hout : forall p, p ∈ schema_keys rules ->
            rec (get h object p) (FName p) (schema_get rules p) mr = Ret (out p)).
  { intros p Hp.
    destruct (validateObject_loop_Ret_inv _ _ _ _ _ _ _ _ Hloop p Hp) as [v Hv].
    unfold out. by rewrite Hv. }
  exists out. split; [done|].
  rewrite (validateObject_loop_returns _ _ _ _ _ out _ _ Hout) in Hloop.
  by injection Hloop as <-.
Qed.

(** X12. The [object] member of a rule: anything but an object is an
    error.  For an object, if every field of the nested schema passes
    and none is named [__proto__], the answer is the object of their
    values; if a field fails, the answer has no value and its error is
    the error of the first field, in the order of the schema, that
    fails. *)
Theorem object_rule_first_error h value field rule schema err mr :
  0 <= mr ->
  (optional rule && is_undefined value) = false ->
  validate rule = None ->
  ObjectReader.object rule = Some (ObjRule schema err) ->
  let answer := validate_call h value field (Some rule) mr in
  let rules := default [] schema in
  let item p :=
    validate_call h (get h value p) (FName p) (schema_get rules p) (mr - 1) in
  (isObject value = false -> answer = Ret (_makeError err None)) /\
  (isObject value = true -> forall v, answer = Ret v ->
     ((forall p, p ∈ schema_keys rules ->
         exists w, item p = Ret w /\ has_error w = false) ->
      "__proto__" ∉ schema_keys rules ->
      exists o, v = ok (PObject o) /\
        forall p, p ∈ schema_keys rules ->
          exists w, item p = Ret w /\ o !! p = Some (vr_value w)) /\
     (forall pre p post w,
        schema_keys rules = pre ++ p :: post ->
        (forall q, q ∈ pre -> exists w', item q = Ret w' /\ has_error w' = false) ->
        item p = Ret w -> has_error w = true ->
        v = {| vr_value := undefined; vr_error := vr_error w |})).
Proof.
  intros Hmr Hopt Hval Hobj answer rules item.
  assert (Hcall : answer = _) by (exact (validate_call_unfold h value field rule mr Hmr Hopt Hval)).
  rewrite Hobj in Hcall. clearbody answer. subst answer.
  split.
  { by intros ->. }
  intros -> v Hv. cbn [negb] in Hv. fold rules in Hv.
  destruct (validateObject_with _ _ _ _ _) as [st| |] eqn:Hst; cbn in Hv;
    [|done..].
  injection Hv as <-.
  apply validateObject_with_Ret in Hst as (out & Hout & ->).
  fold item in Hout.
  split.
  - intros Hall Hnp.
    assert (Hclean : forall p, p ∈ schema_keys rules -> has_error (out p) = false).
    { intros p Hp. destruct (Hall p Hp) as (w & Hw & Hc).
      pose proof (Hout p Hp) as Hop. unfold item in Hw, Hop.
      rewrite Hop in Hw. by injection Hw as ->. }
    destruct (object_steps_result_clean out (schema_keys rules)
                {| result := Some ∅; error := None; errors := ∅ |} ∅
                Hclean eq_refl) as (o & Ho & Hlook).
    exists o. split.
    + unfold as_result, ok. rewrite Ho. f_equal.
      by rewrite object_steps_error_clean.
    + intros p Hp. exists (out p). split; [by apply Hout|].
      rewrite Hlook. by rewrite decide_True by (by apply in_keys_not_proto).
  - intros pre p post w Hkeys Hpre Hw Hc.
    assert (Hp : p ∈ schema_keys rules).
    { rewrite Hkeys. apply elem_of_app. right. apply elem_of_cons. by left. }
    pose proof (Hout p Hp) as Hop. unfold item in Hw, Hop.
    rewrite Hop in Hw. injection Hw as <-.
    apply has_error_error_of in Hc as Hc'. destruct Hc' as (e & He & Ht).
    unfold as_result.
    rewrite (object_steps_result_failed out _ _ p Hp Hc).
    rewrite Hkeys.
    rewrite (object_steps_first_error out pre p post _ e); [by rewrite He|done| |done|done].
    intros q Hq.
    assert (Hq' : q ∈ schema_keys rules).
    { rewrite Hkeys. apply elem_of_app. by left. }
    destruct (Hpre q Hq) as (w' & Hw' & Hc').
    pose proof (Hout q Hq') as Hoq. unfold item in Hw', Hoq.
    rewrite Hoq in Hw'. by injection Hw' as ->.
Qed.

End CompoundRuleFacts.

(** ** ObjectReader: the budget, and value or error *)

Section BudgetFacts.
Import ObjectReader ReaderShapes.
Context `{Host}.

Lemma validate_call_used_up h value field rule mr :
  mr < 0 ->
  validate_call h value field (Some rule) mr
  = Ret (failure (SCString DEFAULT_ERROR)).
Proof.
  intros Hmr. unfold validate_call, enough_fuel. cbn [_validate].
  by destruct (Z.ltb_spec mr 0) as [_|?]; [|lia].
Qed.

Lemma nested_self_call h a :
  get h (VObject a) "self" = VObject a ->
  forall n mr, -1 <= mr ->
    validate_call h (VObject a) (FName "self") (Some (nested n empty_rule)) mr
    = Ret (if Z.of_nat n <=? mr then ok (nested_value n (VObject a))
           else failure (SCString DEFAULT_ERROR)).
Proof.
  intros Hself. induction n as [|n IH]; intros mr Hmr.
  - destruct (Z.leb_spec (Z.of_nat 0) mr) as [Hle|Hgt].
    + rewrite validate_call_simple by (done || lia). done.
    + rewrite validate_call_used_up by lia. done.
  - destruct (Z.leb_spec (Z.of_nat (S n)) mr) as [Hle|Hgt].
    + rewrite validate_call_unfold by (done || lia).
      cbn [nested ObjectReader.object isObject negb default id].
      unfold validateObject_with. cbn [schema_keys map fst validateObject_loop].
      rewrite Hself. unfold schema_get. cbn [schema_own].
  rewrite String.eqb_refl.
      rewrite IH by lia.
      destruct (Z.leb_spec (Z.of_nat n) (mr - 1)) as [_|?]; [|lia].
      done.
    + destruct (Z.ltb_spec mr 0) as [Hneg|Hpos].
      { by rewrite validate_call_used_up. }
      rewrite validate_call_unfold by done.
      cbn [nested ObjectReader.object isObject negb default id].
      unfold validateObject_with. cbn [schema_keys map fst validateObject_loop].
      rewrite Hself. unfold schema_get. cbn [schema_own].
  rewrite String.eqb_refl.
      rewrite IH by lia.
      destruct (Z.leb_spec (Z.of_nat n) (mr - 1)) as [?|_]; [lia|].
      done.
Qed.

(** X13. The budget is exact: for an object whose [self] is the object
    itself and a schema of [n] object rules nested under [self],
    [read] gives the [n] nested objects when [n] is at most 100, and
    fails with the default error under [self] when [n] is more. *)
Theorem self_reference_depth h a n :
  get h (VObject a) "self" = VObject a ->
  read {| schema := [("self", nested n empty_rule)] |} h (VObject a)
  = Ret (if (n <=? 100)%nat
         then (Some {["self" := nested_value n (VObject a)]}, ∅)
         else (None, {["self" := GenericError DEFAULT_ERROR]})).
Proof.
  intros Hself. unfold read, read_with, _validateObject, validateObject_with.
  cbn [isObject negb schema schema_keys map fst validateObject_loop].
  rewrite Hself. unfold schema_get. cbn [schema_own].
  rewrite String.eqb_refl.
  change (_validate (enough_fuel MAX_RECURSE) h (VObject a) (FName "self")
            (Some (nested n empty_rule)) MAX_RECURSE)
    with (validate_call h (VObject a) (FName "self")
            (Some (nested n empty_rule)) MAX_RECURSE).
  rewrite (nested_self_call h a Hself n MAX_RECURSE) by done.
  unfold MAX_RECURSE.
  destruct (Nat.leb_spec n 100) as [Hle|Hgt].
  - destruct (Z.leb_spec (Z.of_nat n) 100) as [_|?]; [|lia]. reflexivity.
  - destruct (Z.leb_spec (Z.of_nat n) 100) as [?|_]; [lia|]. reflexivity.
Qed.

(** *** Value or error *)

Lemma object_step_xor p v st :
  result_xor_error st -> result_xor_error (object_step p v st).
Proof.
  unfold result_xor_error, object_step. intros Hst.
  assert (Hkeep :
    error st = None \/
    (exists e, error st = Some e /\ truthy_sc e = true) /\
    own_set p (vr_value v) <$> result st = None).
  { destruct Hst as [?|[? ->]]; [by left|by right]. }
  destruct (vr_error v) as [e|]; [|done].
  destruct (truthy_sc e) eqn:Ht; [|done]. right. cbn. split; [|done].
  destruct (error st) as [e0|] eqn:He0.
  - destruct (truthy_sc e0) eqn:Ht0; eauto.
  - eauto.
Qed.

Lemma validateObject_loop_xor rec h object rules mr : forall ps st st',
  validateObject_loop rec h object rules mr ps st = Ret st' ->
  result_xor_error st -> result_xor_error st'.
Proof.
  induction ps as [|p ps IH]; intros st st' Hloop Hst.
  { by injection Hloop as <-. }
  cbn [validateObject_loop] in Hloop.
  destruct (rec _ _ _ _) as [v| |]; cbn in Hloop; [|done..].
  apply (IH _ _ Hloop). by apply object_step_xor.
Qed.

Lemma as_result_xor st : result_xor_error st -> value_xor_error (as_result st).
Proof.
  unfold result_xor_error, value_xor_error, as_result, has_error. cbn.
  intros [->|[(e & -> & Ht) ->]]; [by left|by right].
Qed.

Lemma validateArray_loop_xor rec rule mr : forall xs i acc v,
  (forall x f w, rec x f (Some rule) mr = Ret w -> value_xor_error w) ->
  validateArray_loop rec xs i rule mr acc = Ret v -> value_xor_error v.
Proof.
  induction xs as [|x xs IH]; intros i acc v Hrec Hloop.
  { injection Hloop as <-. by left. }
  cbn [validateArray_loop] in Hloop.
  destruct (rec x (FIndex i) (Some rule) mr) as [w| |] eqn:Hw; cbn in Hloop;
    [|done..].
  destruct (has_error w).
  - injection Hloop as <-. by apply (Hrec _ _ _ Hw).
  - by apply (IH _ _ _ Hrec Hloop).
Qed.

Lemma validateRecord_loop_xor rec h value rule mr : forall ks acc v,
  (forall x f w, rec x f (Some rule) mr = Ret w -> value_xor_error w) ->
  validateRecord_loop rec h value ks rule mr acc = Ret v -> value_xor_error v.
Proof.
  induction ks as [|k ks IH]; intros acc v Hrec Hloop.
  { injection Hloop as <-. by left. }
  cbn [validateRecord_loop] in Hloop.
  destruct (rec (get h value k) (FName k) (Some rule) mr) as [w| |] eqn:Hw;
    cbn in Hloop; [|done..].
  destruct (has_error w).
  - injection Hloop as <-. by apply (Hrec _ _ _ Hw).
  - by apply (IH _ _ Hrec Hloop).
Qed.

Lemma makeError_xor a b : value_xor_error (_makeError a b).
Proof. right. split; [apply makeError_has_error|done]. Qed.

Lemma validate_simple_xor h value s : value_xor_error (validate_simple h value s).
Proof.
  unfold validate_simple. cbn zeta.
  set (c5 := step (valueRule s) check_value _).
  assert (Hok : err_ok c5).
  { apply step_err_ok; [apply check_value_err_ok|].
    apply step_err_ok; [apply check_date_err_ok|].
    apply step_err_ok; [apply check_number_err_ok|].
    apply step_err_ok; [apply check_string_err_ok|].
    apply step_err_ok; [apply check_boolean_err_ok|]. done. }
  destruct c5 as [e|l]; [by right|by left].
Qed.

Lemma validate_built_in_xor fuel : forall h value field rule mr v,
  built_in rule = true ->
  _validate fuel h value field (Some rule) mr = Ret v ->
  value_xor_error v.
Proof.
  induction fuel as [|fuel IH]; intros h value field rule mr v Hb Hv; [done|].
  cbn [_validate] in Hv.
  destruct (mr <? 0).
  { injection Hv as <-. by right. }
  destruct (optional rule && is_undefined value).
  { injection Hv as <-. by left. }
  destruct rule as [opt vl o a rc s]. cbn [validate ObjectReader.object array record simple] in Hv.
  cbn [built_in] in Hb.
  destruct vl as [vl|]; [done|].
  destruct o as [[schema err]|].
  { destruct (negb (isObject value)).
    - injection Hv as <-. apply makeError_xor.
    - destruct (validateObject_with _ _ _ _ _) as [st| |] eqn:Hst; cbn in Hv;
        [|done..].
      injection Hv as <-. apply as_result_xor.
      apply (validateObject_loop_xor _ _ _ _ _ _ _ _ Hst). by left. }
  destruct a as [[items err min max]|].
  { destruct value; try (injection Hv as <-; apply makeError_xor).
    cbn zeta in Hv.
    destruct (when_bound min _ err _) as [e|l] eqn:Hwb.
    - injection Hv as <-.
      assert (Hok : err_ok (inl e)).
      { rewrite <- Hwb. apply when_bound_err_ok, when_bound_err_ok. done. }
      by right.
    - assert (Hitems : built_in (default empty_rule items) = true).
      { destruct items; [exact Hb|reflexivity]. }
      unfold validateArray_with in Hv.
      apply (validateArray_loop_xor _ _ _ _ _ _ _
               (fun x f w Hw => IH h x f _ _ w Hitems Hw) Hv). }
  destruct rc as [[values err]|].
  { destruct (negb (isObject value)).
    - injection Hv as <-. apply makeError_xor.
    - assert (Hvalues : built_in (default empty_rule values) = true).
      { destruct values; [exact Hb|reflexivity]. }
      apply (validateRecord_loop_xor _ _ _ _ _ _ _ _
               (fun x f w Hw => IH h x f _ _ w Hvalues Hw) Hv). }
  injection Hv as <-. apply validate_simple_xor.
Qed.

(** X14. A rule for which no [validate] function decides (none for the
    value, the items of an array or the values of a record) never
    answers with both a value and an error: the result has no error,
    or a truthy error and the value [undefined]. *)
Theorem built_in_value_xor_error h value field rule mr v :
  built_in rule = true ->
  validate_call h value field (Some rule) mr = Ret v ->
  value_xor_error v.
Proof. apply validate_built_in_xor. Qed.

End BudgetFacts.

(** ** View: the preset loop and the wrapper *)

Section ViewMore.
Import ManagedEvent View PresetShapes.

(** *** Events the wrapper delivers *)

Lemma chain_self e : e ∈ chain e.
Proof. rewrite chain_unfold. apply elem_of_cons. by left. Qed.

Lemma chain_inner e e' e0 :
  inner e = Some e' -> e0 ∈ chain e' -> e0 ∈ chain e.
Proof.
  intros Hi H0. rewrite chain_unfold, Hi. apply elem_of_cons. by right.
Qed.

Lemma chain_trans e2 : forall e1 e0,
  e1 ∈ chain e2 -> e0 ∈ chain e1 -> e0 ∈ chain e2.
Proof.
  induction e2 as [n s d dl np f|n s d dl e np f IH]
    using ManagedEvent_inner_ind; intros e1 e0 H1 H0.
  - rewrite chain_unfold in H1. cbn in H1.
    apply list_elem_of_singleton in H1 as ->. done.
  - rewrite chain_unfold in H1. cbn [inner] in H1.
    apply elem_of_cons in H1 as [->|H1]; [done|].
    apply (chain_inner _ e); [done|]. by apply (IH e1).
Qed.

Lemma intercept_event_wraps this event d v :
  inner (intercept_event this event d v) = Some event /\
  delegate (intercept_event this event d v) = None /\
  source (intercept_event this event d v) = self this.
Proof. unfold intercept_event. by destruct (0 <? indexOf ":" v). Qed.

Lemma findDelegate_intercept this event d v type :
  findDelegate (intercept_event this event d v) type = findDelegate event type.
Proof.
  destruct (intercept_event_wraps this event d v) as (Hi & Hd & _).
  rewrite findDelegate_unfold. unfold delegate_is. by rewrite Hd, Hi.
Qed.

Lemma call_emit_delivers fuel : forall this f arg d evs,
  call_emit fuel this f arg d = Ret evs ->
  let e := ManagedObject_emit_event this arg d in
  evs <> [] /\
  forall ev, ev ∈ evs ->
    e ∈ chain ev /\
    (forall type, findDelegate ev type = findDelegate e type) /\
    (ev = e \/ source ev = self this).
Proof.
  induction fuel as [|fuel IH]; intros this f arg d evs Hc; [done|].
  destruct f as [|events _emit].
  - rewrite call_emit_base in Hc. injection Hc as <-. cbn zeta.
    split; [done|]. intros ev Hev. apply list_elem_of_singleton in Hev as ->.
    split; [apply chain_self|]. split; [done|by left].
  - rewrite call_emit_wrapper in Hc. cbn zeta in Hc |- *.
    set (e := ManagedObject_emit_event this arg d) in *.
    assert (Hpass : forall evs',
      call_emit fuel this _emit (Given e) None = Ret evs' ->
      evs' <> [] /\
      forall ev, ev ∈ evs' ->
        e ∈ chain ev /\
        (forall type, findDelegate ev type = findDelegate e type) /\
        (ev = e \/ source ev = self this)).
    { intros evs' Hc'. exact (IH _ _ _ _ _ Hc'). }
    destruct (events !! name e) as [v|]; [|by apply Hpass].
    destruct (String.eqb v ""); [by apply Hpass|].
    set (made := intercept_event this e (Some (data e))
                   (if is_forward v then slice_from 1 v else v)) in *.
    destruct (if is_forward v then call_emit fuel this _emit (Given e) None
              else Ret []) as [first| |] eqn:Hfirst; cbn in Hc; [|done..].
    destruct (call_emit fuel this (emit this) (Given made) None)
      as [rest| |] eqn:Hrest; cbn in Hc; [|done..].
    injection Hc as <-.
    destruct (IH _ _ _ _ _ Hrest) as (Hne & Hin). cbn in Hin.
    destruct (intercept_event_wraps this e (Some (data e))
                (if is_forward v then slice_from 1 v else v))
      as (Hi & Hd & Hs). fold made in Hi, Hd, Hs.
    split.
    { intros Happ. apply app_eq_nil in Happ as [_ ?]. done. }
    intros ev Hev. apply elem_of_app in Hev as [Hev|Hev].
    + destruct (is_forward v).
      * by apply (Hpass first).
      * injection Hfirst as <-. by apply elem_of_nil in Hev.
    + destruct (Hin ev Hev) as (Hch & Hfd & Hsrc).
      split; [|split].
      * apply (chain_trans ev made e Hch).
        apply (chain_inner made e); [done|apply chain_self].
      * intros type. rewrite Hfd. apply findDelegate_intercept.
      * right. destruct Hsrc as [->|?]; done.
Qed.

(** X15. Whatever remaps a view has, when [emit] returns it has handed
    the listeners at least one event, and each of them is the emitted
    event or wraps it: the emitted event is on its [inner] chain,
    [findDelegate] answers on it what it answers on the emitted event,
    and if it is another event its source is the view. *)
Theorem emit_delivers_wrappers fuel this arg d evs :
  emit_on fuel this arg d = Ret evs ->
  let e := ManagedObject_emit_event this arg d in
  evs <> [] /\
  forall ev, ev ∈ evs ->
    e ∈ chain ev /\
    (forall type, findDelegate ev type = findDelegate e type) /\
    (ev = e \/ source ev = self this).
Proof. apply call_emit_delivers. Qed.

(** *** A forward to the same event *)

Lemma plus_not_self N : String "+" N <> N.
Proof.
  intros Heq. apply (f_equal String.length) in Heq. cbn in Heq. lia.
Qed.

Lemma intercept_event_name_plain this event d v :
  indexOf ":" v <= 0 -> name (intercept_event this event d v) = v.
Proof.
  intros Hi. unfold intercept_event.
  by destruct (Z.ltb_spec 0 (indexOf ":" v)); [lia|].
Qed.

(** X16. A forward of an event to itself ([onClick: "+Click"]) is a
    remap that [applyViewPreset] accepts, and with it [emit] of that
    event never returns: every call of the wrapper makes another. *)
Theorem forward_to_itself_never_returns this events _emit N :
  emit this = Wrapper events _emit ->
  events !! N = Some (String "+" N) ->
  indexOf ":" N <= 0 ->
  bad_target N (PVal (VString (String "+" N))) = false /\
  forall fuel arg d,
    name (ManagedObject_emit_event this arg d) = N ->
    ~ returns (emit_on fuel this arg d).
Proof.
  intros Hemit Hev Hcolon. split.
  { apply bad_target_false. exists (String "+" N).
    split; [done|]. split; [done|apply plus_not_self]. }
  unfold emit_on. rewrite Hemit.
  induction fuel as [|fuel IH]; intros arg d Hname [evs Hc]; [done|].
  rewrite call_emit_wrapper in Hc. cbn zeta in Hc.
  rewrite Hname, Hev in Hc.
  cbn [String.eqb is_forward slice_from] in Hc.
  destruct (call_emit fuel this _emit _ None) as [first| |]; cbn in Hc;
    [|done..].
  rewrite Hemit in Hc.
  destruct (call_emit fuel this (Wrapper events _emit) _ None)
    as [rest| |] eqn:Hrest; cbn in Hc; [|done..].
  apply (IH (Given (intercept_event this (ManagedObject_emit_event this arg d)
                      (Some (data (ManagedObject_emit_event this arg d))) N))
            None).
  - cbn [ManagedObject_emit_event]. by apply intercept_event_name_plain.
  - by exists rest.
Qed.

(** *** What the loop over the preset leaves on the view *)

Lemma before_bad_subset preset pv : pv ∈ before_bad preset -> pv ∈ preset.
Proof.
  induction preset as [|pv0 preset IH]; [done|]. cbn [before_bad].
  destruct (bad_entry pv0); [intros Hin; by apply elem_of_nil in Hin|].
  intros Hin. apply elem_of_cons in Hin as [->|Hin]; apply elem_of_cons; auto.
Qed.

Lemma before_bad_all preset :
  List.find bad_entry preset = None -> before_bad preset = preset.
Proof.
  induction preset as [|pv preset IH]; [done|]. cbn [List.find before_bad].
  destruct (bad_entry pv); [done|]. intros Hf. by rewrite IH.
Qed.

Lemma preset_loop_applies preset : forall this events this' events' err,
  preset_loop preset (this, events) = (this', events', err) ->
  NoDup (map fst preset) ->
  self this' = self this /\ emit this' = emit this /\
  bound this' = bound this ++ bindings_of (before_bad preset) /\
  (forall p x, (p, PVal x) ∈ before_bad preset ->
     is_undefined_preset (PVal x) = false -> is_event_key p = false ->
     properties this' !! p = Some x) /\
  (forall p,
     (forall x, (p, PVal x) ∈ before_bad preset ->
        is_undefined_preset (PVal x) = true \/ is_event_key p = true) ->
     properties this' !! p = properties this !! p).
Proof.
  induction preset as [|[p0 v0] preset IH];
    intros this events this' events' err Hloop Hnd.
  { injection Hloop as <- <- <-. cbn. rewrite app_nil_r.
    split; [done|]. split; [done|]. split; [done|]. split; [|done].
    intros p x Hin. by apply elem_of_nil in Hin. }
  cbn [map fst] in Hnd. apply NoDup_cons in Hnd as [Hfresh Hnd].
  assert (Hnot : forall x, (p0, x) ∉ before_bad preset).
  { intros x Hin. apply Hfresh. apply before_bad_subset in Hin.
    apply list_elem_of_fmap. by exists (p0, x). }
  cbn [preset_loop] in Hloop. cbn [before_bad]. unfold bad_entry.
  cbn [fst snd]. unfold preset_step in Hloop.
  destruct (is_undefined_preset v0) eqn:Hu.
  { (* continue *)
    cbn [negb andb]. destruct (IH _ _ _ _ _ Hloop Hnd) as (Hs & He & Hb & Hp & Hf).
    split; [done|]. split; [done|]. split; [|split].
    - rewrite Hb. unfold bindings_of. cbn [omap fst snd].
      by destruct v0 as [[]|].
    - intros p x Hin Hux Hk. apply elem_of_cons in Hin as [Heq|Hin].
      + injection Heq as ? ?; subst. by rewrite Hu in Hux.
      + by apply Hp.
    - intros p Hall. apply Hf. intros x Hin. apply Hall, elem_of_cons. by right. }
  cbn [negb andb].
  destruct (is_event_key p0) eqn:Hk.
  { destruct (bad_target (slice_from 2 p0) v0) eqn:Hbad.
    - (* throw *)
      injection Hloop as <- <- <-. cbn. rewrite app_nil_r.
      split; [done|]. split; [done|]. split; [done|]. split; [|done].
      intros p x Hin. by apply elem_of_nil in Hin.
    - cbn [andb].
      destruct (IH _ _ _ _ _ Hloop Hnd) as (Hs & He & Hb & Hp & Hf).
      apply bad_target_false in Hbad as (s & -> & _).
      split; [done|]. split; [done|]. split; [|split].
      + by rewrite Hb.
      + intros p x Hin Hux Hkp. apply elem_of_cons in Hin as [Heq|Hin].
        * injection Heq as ? ?; subst. by rewrite Hk in Hkp.
        * by apply Hp.
      + intros p Hall. apply Hf. intros x Hin. apply Hall, elem_of_cons.
        by right. }
  cbn [andb].
  destruct v0 as [x0|b0].
  - (* set property *)
    destruct (IH _ _ _ _ _ Hloop Hnd) as (Hs & He & Hb & Hp & Hf).
    cbn [self emit bound properties] in Hs, He, Hb, Hf.
    split; [done|]. split; [done|]. split; [|split].
    + by rewrite Hb.
    + intros p x Hin Hux Hkp. apply elem_of_cons in Hin as [Heq|Hin].
      * injection Heq as ? ?; subst. rewrite Hf.
        { by rewrite lookup_insert_eq. }
        intros x Hin. by destruct (Hnot (PVal x)).
      * by apply Hp.
    + intros p Hall.
      assert (Hne : p0 <> p).
      { intros ->. destruct (Hall x0) as [Hux|Hkp].
        - apply elem_of_cons. by left.
        - by rewrite Hu in Hux.
        - by rewrite Hk in Hkp. }
      rewrite Hf.
      * by rewrite lookup_insert_ne.
      * intros x Hin. apply Hall, elem_of_cons. by right.
  - (* apply binding *)
    destruct (IH _ _ _ _ _ Hloop Hnd) as (Hs & He & Hb & Hp & Hf).
    cbn [self emit bound properties] in Hs, He, Hb, Hf.
    split; [done|]. split; [done|]. split; [|split].
    + rewrite Hb. unfold bindings_of. cbn [omap fst snd].
      by rewrite <- app_assoc.
    + intros p x Hin Hux Hkp. apply elem_of_cons in Hin as [Heq|Hin]; [done|].
      by apply Hp.
    + intros p Hall. apply Hf. intros x Hin. apply Hall, elem_of_cons.
      by right.
Qed.

(** X17. What [applyViewPreset] leaves on the view, for a preset
    without repeated keys: the entries before the first one it throws
    for (all of them if it does not throw) are applied, and nothing is
    undone.  Each binding among them is bound, in order; each property
    that is defined and no event key is set; every other property is as
    it was; the view stays the same object, and if an exception was
    thrown [emit] is not replaced. *)
Theorem applyViewPreset_applies_entries preset this :
  NoDup (map fst preset) ->
  let view' := (applyViewPreset preset this).1 in
  let thrown := (applyViewPreset preset this).2 in
  let applied := before_bad preset in
  self view' = self this /\
  bound view' = bound this ++ bindings_of applied /\
  (forall p x, (p, PVal x) ∈ applied ->
     is_undefined_preset (PVal x) = false -> is_event_key p = false ->
     properties view' !! p = Some x) /\
  (forall p,
     (forall x, (p, PVal x) ∈ applied ->
        is_undefined_preset (PVal x) = true \/ is_event_key p = true) ->
     properties view' !! p = properties this !! p) /\
  (thrown = None -> applied = preset) /\
  (is_Some thrown -> emit view' = emit this).
Proof.
  intros Hnd view' thrown applied.
  pose proof (applyViewPreset_error preset this) as Herr. fold thrown in Herr.
  unfold view', thrown, applyViewPreset in *.
  destruct (preset_loop preset (this, None)) as [[this' events'] err] eqn:Hloop.
  destruct (preset_loop_applies _ _ _ _ _ _ Hloop Hnd)
    as (Hs & He & Hb & Hp & Hf).
  assert (Hall : (let '(this0, _, _) := (this', events', err) in this0) = this')
    by done.
  split; [|split; [|split; [|split; [|split]]]].
  - by destruct err, events'.
  - by destruct err, events'.
  - intros p x Hin Hux Hk. rewrite <- (Hp p x Hin Hux Hk).
    by destruct err, events'.
  - intros p Hp'. rewrite <- (Hf p Hp'). by destruct err, events'.
  - intros Hnone. apply before_bad_all.
    rewrite Herr in Hnone. by destruct (List.find bad_entry preset).
  - intros [e Hsome]. destruct err, events'; cbn in *; done.
Qed.

(** *** A remap, from the preset to the listeners *)

(** X18. A remap [on<N>: T] of a preset applied to a new view, where
    the event it makes is not remapped itself: [emit(N, data)] hands
    the listeners the event made for [T], whose [inner] is the [N]
    event, and nothing else; if [T] starts with "+", the [N] event
    first and then the new one. *)
Theorem remap_emits preset o view' p T d fuel :
  NoDup (map fst preset) ->
  applyViewPreset preset (new_View o) = (view', None) ->
  (p, PVal (VString T)) ∈ preset ->
  is_event_key p = true ->
  let orig := new_ManagedEvent (slice_from 2 p) o d None None None in
  let made := intercept_event view' orig d (remap_target T) in
  (forall q v, (q, v) ∈ preset -> is_event_key q = true ->
               slice_from 2 q = name made -> is_undefined_preset v = true) ->
  emit_on (3 + fuel) view' (Named (slice_from 2 p)) d
  = Ret ((if is_forward T then [orig] else []) ++ [made]).
Proof.
  intros Hnd Happly Hin Hkey orig made Hfree.
  destruct (applyViewPreset_ok _ _ _ Happly Hnd)
    as (events1 & Hself & Hemit & Hev & Hframe).
  destruct (Hev _ _ Hin eq_refl Hkey) as [Hbad (ev & -> & Hl)].
  apply bad_target_false in Hbad as (s & [= <-] & Hne & _).
  cbn [string_of] in Hl. cbn [new_View emit self] in Hemit, Hself.
  assert (Hrm : ev !! name made = None).
  { apply (Hframe (name made)). intros q v. apply Hfree. }
  unfold emit_on. rewrite Hemit.
  change (3 + fuel)%nat with (S (S (S fuel))).
  rewrite call_emit_wrapper. cbn zeta.
  cbn [ManagedObject_emit_event]. rewrite Hself. fold orig.
  replace (name orig) with (slice_from 2 p) by done.
  rewrite Hl. destruct (String.eqb_spec T ""); [done|].
  rewrite call_emit_base. cbn [ManagedObject_emit_event].
  rewrite <- (intercept_event_data view' orig d).
  fold (remap_target T). fold made.
  rewrite Hemit, call_emit_wrapper. cbn zeta.
  cbn [ManagedObject_emit_event]. rewrite Hrm, call_emit_base.
  cbn [ManagedObject_emit_event]. by destruct (is_forward T).
Qed.

End ViewMore.

(** ** The further properties at the samples *)

Section FurtherExamples.
Import ObjectReader ManagedEvent View Samples ReaderShapes PresetShapes MoreSamples.
#[local] Existing Instance sample_host.

Lemma read_ignores_other_fields_witness :
  isObject (VObject 1) = true /\ isObject (VObject 2) = true /\
  get rules_heap (VObject 1) "name" = get rules_heap (VObject 2) "name" /\
  props_of rules_heap (VObject 1) <> props_of rules_heap (VObject 2) /\
  read name_reader rules_heap (VObject 1)
  = read name_reader rules_heap (VObject 2).
Proof.
  split; [reflexivity|]. split; [reflexivity|]. split; [reflexivity|].
  split; [discriminate|].
  apply (read_ignores_other_fields name_reader rules_heap (VObject 1) (VObject 2));
    [reflexivity|reflexivity|].
  intros p Hp. apply list_elem_of_singleton in Hp as ->. reflexivity.
Defined.

Lemma read_agrees_with_readField_witness :
  plain_schema (schema name_reader) = true /\
  ("__proto__" ∉ schema_keys (schema name_reader)) /\
  read name_reader sample_heap (VObject 1)
  = Ret (None, {["name" := GenericError "ObjectReader error"]}) /\
  exists v e,
    readField name_reader sample_heap (VObject 1) "name" = Ret (v, e) /\
    ({["name" := GenericError "ObjectReader error"]} : gmap string Error)
      !! "name" = e.
Proof.
  assert (Hread : read name_reader sample_heap (VObject 1)
                  = Ret (None, {["name" := GenericError "ObjectReader error"]})).
  { vm_compute. reflexivity. }
  split; [reflexivity|]. split; [exact name_reader_no_proto|].
  split; [exact Hread|].
  destruct (read_agrees_with_readField name_reader sample_heap (VObject 1)
              _ _ eq_refl name_reader_no_proto eq_refl Hread "name")
    as (v & e & Hv & He & _).
  { left. }
  exists v, e. split; [exact Hv|exact He].
Defined.

Lemma readField_without_own_rule_witness :
  ("toString" ∉ schema_keys (schema name_reader)) /\
  ("age" ∉ schema_keys (schema name_reader)) /\
  get sample_heap (VObject 1) "toString" = VFunction 1009 /\
  readField name_reader sample_heap (VObject 1) "toString"
  = Ret (PValue (get sample_heap (VObject 1) "toString"), None) /\
  readField name_reader sample_heap (VObject 1) "age" = Throw RangeError.
Proof.
  assert (HtoString : "toString" ∉ schema_keys (schema name_reader)).
  { apply (bool_decide_unpack _). vm_compute. exact I. }
  assert (Hage : "age" ∉ schema_keys (schema name_reader)).
  { apply (bool_decide_unpack _). vm_compute. exact I. }
  split; [exact HtoString|]. split; [exact Hage|]. split; [reflexivity|].
  split.
  - exact (readField_without_own_rule name_reader sample_heap (VObject 1)
             "toString" HtoString).
  - exact (readField_without_own_rule name_reader sample_heap (VObject 1)
             "age" Hage).
Defined.

Lemma boolean_rule_accepts_witness :
  simple_only checked_rule = true /\
  boolean_accepted {| boolean_true := true; boolean_err := None |} true /\
  validate_call sample_heap (VBoolean true) (FName "ok") (Some checked_rule) 100
  = Ret (ok (PValue (VBoolean true))).
Proof.
  assert (Hacc : boolean_accepted
                   {| boolean_true := true; boolean_err := None |} true).
  { intros _. reflexivity. }
  split; [reflexivity|]. split; [exact Hacc|].
  apply (proj2 (boolean_rule_accepts sample_heap (VBoolean true) (FName "ok")
                  checked_rule _ 100 ltac:(lia) eq_refl eq_refl) true);
    try reflexivity.
  exact Hacc.
Defined.

Lemma two_letters_accepted : string_accepted two_letters "Al".
Proof.
  split; [intros test Ht; discriminate Ht|].
  split; [intros [f Hf]; discriminate Hf|].
  split.
  - intros b Hb. injection Hb as <-. vm_compute. reflexivity.
  - intros b Hb. discriminate Hb.
Qed.

Lemma string_rule_accepts_witness :
  simple_only (string_rule (at_least 2)) = true /\
  string_accepted two_letters "Al" /\
  validate_call sample_heap (VString "Al") (FName "name")
    (Some (string_rule (at_least 2))) 100
  = Ret (ok (PValue (VString "Al"))).
Proof.
  split; [reflexivity|]. split; [exact two_letters_accepted|].
  apply (proj2 (string_rule_accepts sample_heap (VString "Al") (FName "name")
                  (string_rule (at_least 2)) two_letters 100
                  ltac:(lia) eq_refl eq_refl) "Al");
    try reflexivity.
  exact two_letters_accepted.
Defined.

Lemma age_42_accepted : number_accepted age_number_rule 42.
Proof.
  split; [vm_compute; reflexivity|].
  split; [intros _; vm_compute; reflexivity|].
  split; [intros [f Hf]; discriminate Hf|].
  split; [intros [f Hf]; discriminate Hf|].
  split.
  - intros b Hb. injection Hb as <-. vm_compute. reflexivity.
  - intros b Hb. discriminate Hb.
Qed.

Lemma number_rule_accepts_witness :
  simple_only age_rule = true /\
  coerced_number (LValue (VString "42")) 42 /\
  number_accepted age_number_rule 42 /\
  validate_call sample_heap (VString "42") (FName "age") (Some age_rule) 100
  = Ret (ok (PValue (VNumber 42))).
Proof.
  assert (Hco : coerced_number (LValue (VString "42")) 42).
  { right. exists "42". split; reflexivity. }
  split; [reflexivity|]. split; [exact Hco|]. split; [exact age_42_accepted|].
  apply (proj2 (number_rule_accepts sample_heap (VString "42") (FName "age")
                  age_rule age_number_rule 100
                  ltac:(lia) eq_refl eq_refl) 42%float);
    try reflexivity; [exact Hco|exact age_42_accepted].
Defined.

Lemma date_5_accepted : date_accepted any_date 5.
Proof.
  split; [vm_compute; reflexivity|].
  split; intros b Hb; discriminate Hb.
Qed.

Lemma date_rule_accepts_witness :
  simple_only date_rule = true /\
  coerced_date sample_heap (LValue (VNumber 5)) (LNewDate 5) 5 /\
  validate_call sample_heap (VNumber 5) (FName "when") (Some date_rule) 100
  = Ret (ok (PNewDate 5)).
Proof.
  assert (Hco : coerced_date sample_heap (LValue (VNumber 5)) (LNewDate 5) 5).
  { right. right. left. exists 5%float. split; [reflexivity|].
    split; reflexivity. }
  split; [reflexivity|]. split; [exact Hco|].
  apply (proj2 (date_rule_accepts sample_heap (VNumber 5) (FName "when")
                  date_rule any_date 100
                  ltac:(lia) eq_refl eq_refl eq_refl) (LNewDate 5) 5%float);
    try reflexivity; [exact Hco|exact date_5_accepted].
Defined.

Lemma value_rule_accepts_witness :
  simple_only choice_rule = true /\
  validate_call sample_heap (VNumber 1) (FName "pick") (Some choice_rule) 100
  = Ret (ok (PValue (VNumber 1))) /\
  validate_call sample_heap (VNumber 2) (FName "pick") (Some choice_rule) 100
  = Ret (_makeError None None).
Proof.
  split; [reflexivity|]. split.
  - exact (proj2 (value_rule_accepts sample_heap (VNumber 1) (FName "pick")
                    choice_rule one_of 100 ltac:(lia) eq_refl eq_refl)
             eq_refl eq_refl eq_refl eq_refl eq_refl).
  - exact (proj2 (value_rule_accepts sample_heap (VNumber 2) (FName "pick")
                    choice_rule one_of 100 ltac:(lia) eq_refl eq_refl)
             eq_refl eq_refl eq_refl eq_refl eq_refl).
Defined.

Lemma array_rule_items_witness :
  arr_items rules_heap 1 = [VString "ab"; VString "c"] /\
  validate_call rules_heap (VArray 1) (FName "names") (Some names_rule) 100
  = Ret (failure (SCString DEFAULT_ERROR)) /\
  validate_call rules_heap (VArray 2) (FName "names") (Some names_rule) 100
  = Ret (ok (PArray [PValue (VString "ab"); PValue (VString "cd")])) /\
  validate_call rules_heap (VArray 0) (FName "names") (Some names_rule) 100
  = Ret (failure (SCString DEFAULT_ERROR)).
Proof.
  split; [reflexivity|].
  pose proof (fun value Hopt =>
    array_rule_items rules_heap value (FName "names") names_rule
      (Some (string_rule (at_least 2))) None (at_least 1) None 100
      ltac:(lia) Hopt eq_refl eq_refl eq_refl) as Hrule.
  cbn zeta in Hrule.
  split; [|split].
  - destruct (proj2 (Hrule (VArray 1) eq_refl) 1%nat eq_refl)
      as (_ & _ & Hitems).
    apply (proj2 (Hitems
             ltac:(intros b Hb; injection Hb as <-; vm_compute; reflexivity)
             ltac:(intros b Hb; discriminate Hb))
             1%nat (VString "c") (failure (SCString DEFAULT_ERROR)));
      [reflexivity| |vm_compute; reflexivity|reflexivity].
    intros [|j] y Hj Hy; [|lia]. injection Hy as <-.
    exists (ok (PValue (VString "ab"))). split; [vm_compute; reflexivity|].
    reflexivity.
  - destruct (proj2 (Hrule (VArray 2) eq_refl) 2%nat eq_refl)
      as (_ & _ & Hitems).
    apply (proj1 (Hitems
             ltac:(intros b Hb; injection Hb as <-; vm_compute; reflexivity)
             ltac:(intros b Hb; discriminate Hb))
             [PValue (VString "ab"); PValue (VString "cd")]);
      [reflexivity|].
    intros [|[|i]] x Hx; [| |discriminate Hx]; injection Hx as <-.
    + exists (ok (PValue (VString "ab"))).
      split; [vm_compute; reflexivity|]. split; reflexivity.
    + exists (ok (PValue (VString "cd"))).
      split; [vm_compute; reflexivity|]. split; reflexivity.
  - destruct (proj2 (Hrule (VArray 0) eq_refl) 0%nat eq_refl)
      as (Hmin & _ & _).
    apply (Hmin {| limit := 1; bound_err := None |} eq_refl).
    vm_compute. reflexivity.
Defined.

Lemma record_rule_keys_witness :
  props_of rules_heap (VObject 3) = [("a", VNumber 1); ("b", VNumber 2)] /\
  exists m,
    validate_call rules_heap (VObject 3) (FName "counts") (Some counts_rule) 100
    = Ret (ok (PObject m)) /\
    forall k, is_Some (m !! k) <-> k ∈ ["a"; "b"].
Proof.
  split; [reflexivity|].
  assert (Hret : validate_call rules_heap (VObject 3) (FName "counts")
                   (Some counts_rule) 100
                 = Ret (ok (PObject {["a" := PValue (VNumber 1);
                                      "b" := PValue (VNumber 2)]}))).
  { vm_compute. reflexivity. }
  destruct (proj2 (record_rule_keys rules_heap (VObject 3) (FName "counts")
                     counts_rule _ None 100
                     ltac:(lia) eq_refl eq_refl eq_refl eq_refl eq_refl)
              eq_refl _ Hret)
    as [[Hbad _]|(m & Hm & Hkeys & _)]; [discriminate Hbad|].
  exists m. split; [by rewrite Hret, Hm|exact Hkeys].
Defined.

Lemma user_schema_no_proto : "__proto__" ∉ schema_keys user_schema.
Proof. apply (bool_decide_unpack _). vm_compute. exact I. Qed.

Lemma object_rule_first_error_witness :
  schema_keys user_schema = [] ++ "name" :: ["age"] /\
  validate_call rules_heap (VObject 4) (FName "user") (Some user_rule) 100
  = Ret (failure (SCString "Name too short")) /\
  exists o,
    validate_call rules_heap (VObject 5) (FName "user") (Some user_rule) 100
    = Ret (ok (PObject o)) /\
    exists w, o !! "age" = Some (vr_value w) /\
              validate_call rules_heap (VNumber 42) (FName "age")
                (Some age_rule) 99 = Ret w.
Proof.
  split; [reflexivity|]. split.
  - assert (Hret : returns (validate_call rules_heap (VObject 4) (FName "user")
                              (Some user_rule) 100)).
    { eexists. vm_compute. reflexivity. }
    destruct Hret as [v Hv]. rewrite Hv. f_equal.
    apply (proj2 (proj2 (object_rule_first_error rules_heap (VObject 4)
                           (FName "user") user_rule (Some user_schema) None 100
                           ltac:(lia) eq_refl eq_refl eq_refl)
                    eq_refl v Hv)
             [] "name" ["age"] (failure (SCString "Name too short")));
      [reflexivity| |vm_compute; reflexivity|reflexivity].
    intros q Hq. by apply elem_of_nil in Hq.
  - assert (Hret : returns (validate_call rules_heap (VObject 5) (FName "user")
                              (Some user_rule) 100)).
    { eexists. vm_compute. reflexivity. }
    destruct Hret as [v Hv].
    destruct (proj1 (proj2 (object_rule_first_error rules_heap (VObject 5)
                              (FName "user") user_rule (Some user_schema) None
                              100 ltac:(lia) eq_refl eq_refl eq_refl)
                       eq_refl v Hv)) as (o & Ho & Hfields).
    { intros p Hp. apply elem_of_cons in Hp as [->|Hp].
      - eexists. split; [vm_compute; reflexivity|reflexivity].
      - apply list_elem_of_singleton in Hp as ->.
        eexists. split; [vm_compute; reflexivity|reflexivity]. }
    { exact user_schema_no_proto. }
    exists o. split; [by rewrite Hv, Ho|].
    destruct (Hfields "age" ltac:(right; left)) as (w & Hw & Hlook).
    exists w. split; [exact Hlook|exact Hw].
Defined.

Lemma self_reference_depth_witness :
  get sample_heap (VObject 3) "self" = VObject 3 /\
  read (deep_reader 2) sample_heap (VObject 3)
  = Ret (Some {["self" := PObject {["self" :=
                  PObject {["self" := PValue (VObject 3)]}]}]}, ∅) /\
  read (deep_reader 101) sample_heap (VObject 3)
  = Ret (None, {["self" := GenericError DEFAULT_ERROR]}).
Proof.
  split; [reflexivity|]. split.
  - exact (self_reference_depth sample_heap 3 2 eq_refl).
  - exact (self_reference_depth sample_heap 3 101 eq_refl).
Defined.

Lemma built_in_value_xor_error_witness :
  built_in names_rule = true /\
  validate_call rules_heap (VArray 1) (FName "names") (Some names_rule) 100
  = Ret (failure (SCString DEFAULT_ERROR)) /\
  value_xor_error (failure (SCString DEFAULT_ERROR)).
Proof.
  assert (Hret : validate_call rules_heap (VArray 1) (FName "names")
                   (Some names_rule) 100
                 = Ret (failure (SCString DEFAULT_ERROR))).
  { vm_compute. reflexivity. }
  split; [reflexivity|]. split; [exact Hret|].
  exact (built_in_value_xor_error rules_heap (VArray 1) (FName "names")
           names_rule 100 _ eq_refl Hret).
Defined.

Lemma emit_delivers_wrappers_witness :
  let made := new_ManagedEvent "Select" button
                (Some (target_data "row")) None (Some sample_click) None in
  emit_on 5 colon_view (Named "Click") None = Ret [sample_click; made] /\
  sample_click ∈ chain made /\
  (forall type, findDelegate made type = findDelegate sample_click type).
Proof.
  intros made.
  assert (Hret : emit_on 5 colon_view (Named "Click") None
                 = Ret [sample_click; made]).
  { vm_compute. reflexivity. }
  split; [exact Hret|].
  destruct (proj2 (emit_delivers_wrappers 5 colon_view (Named "Click") None
                     _ Hret) made) as (Hch & Hfd & _).
  { right. left. }
  split; [exact Hch|exact Hfd].
Defined.

Lemma forward_to_itself_never_returns_witness :
  emit loop_view = Wrapper {["Click" := "+Click"]} ManagedObject_emit /\
  bad_target "Click" (PVal (VString "+Click")) = false /\
  ~ returns (emit_on 1000 loop_view (Named "Click") None).
Proof.
  split; [reflexivity|].
  destruct (forward_to_itself_never_returns loop_view
              {["Click" := "+Click"]} ManagedObject_emit "Click"
              eq_refl eq_refl ltac:(vm_compute; discriminate))
    as [Hok Hnever].
  split; [exact Hok|].
  exact (Hnever 1000%nat (Named "Click") None eq_refl).
Defined.

Lemma mixed_preset_NoDup : NoDup (map fst mixed_preset).
Proof. apply (bool_decide_unpack _). vm_compute. exact I. Qed.

Lemma applyViewPreset_applies_entries_witness :
  let view' := (applyViewPreset mixed_preset (new_View button)).1 in
  NoDup (map fst mixed_preset) /\
  (applyViewPreset mixed_preset (new_View button)).2
  = Some (InvalidArgument "preset.onClick") /\
  before_bad mixed_preset
  = [("label", PVal (VString "Remove")); ("text", PBinding 7%nat)] /\
  self view' = button /\
  bound view' = [("text", 7%nat)] /\
  properties view' !! "label" = Some (VString "Remove") /\
  properties view' !! "icon" = None /\
  emit view' = ManagedObject_emit.
Proof.
  intros view'.
  destruct (applyViewPreset_applies_entries mixed_preset (new_View button)
              mixed_preset_NoDup)
    as (Hself & Hbound & Hset & Hkeep & _ & Hemit).
  split; [exact mixed_preset_NoDup|]. split; [reflexivity|].
  split; [reflexivity|]. split; [exact Hself|]. split; [exact Hbound|].
  split; [|split].
  - apply (Hset "label" (VString "Remove")); [left|reflexivity|reflexivity].
  - transitivity (properties (new_View button) !! "icon"); [|reflexivity].
    apply (Hkeep "icon"). intros x Hin.
    apply elem_of_cons in Hin as [Heq|Hin]; [discriminate Heq|].
    apply elem_of_cons in Hin as [Heq|Hin]; [discriminate Heq|].
    by apply elem_of_nil in Hin.
  - apply Hemit. eexists. reflexivity.
Defined.

Lemma intercept_preset_NoDup : NoDup (map fst intercept_preset).
Proof. apply (bool_decide_unpack _). vm_compute. exact I. Qed.

Lemma remap_emits_witness :
  let view' := (applyViewPreset intercept_preset (new_View button)).1 in
  NoDup (map fst intercept_preset) /\
  applyViewPreset intercept_preset (new_View button) = (view', None) /\
  emit_on 3 view' (Named "Click") None
  = Ret [new_ManagedEvent "RemoveItem" button None None
           (Some sample_click) None].
Proof.
  intros view'.
  split; [exact intercept_preset_NoDup|]. split; [reflexivity|].
  apply (remap_emits intercept_preset button view' "onClick" "RemoveItem"
           None 0 intercept_preset_NoDup eq_refl);
    [left|reflexivity|].
  intros q v Hin Hkey Hname.
  apply list_elem_of_singleton in Hin. injection Hin as -> ->.
  discriminate Hname.
Defined.

Lemma user_schema_NoDup : NoDup (schema_keys user_schema).
Proof. apply (bool_decide_unpack _). vm_compute. exact I. Qed.

Lemma read_schema_order_witness :
  plain_schema user_schema = true /\
  schema_keys user_schema = ["name"; "age"] /\
  schema_keys (reverse user_schema) = ["age"; "name"] /\
  read {| schema := user_schema |} rules_heap (VObject 4)
  = read {| schema := reverse user_schema |} rules_heap (VObject 4).
Proof.
  split; [reflexivity|]. split; [reflexivity|]. split; [reflexivity|].
  apply (read_schema_order {| schema := user_schema |}
           {| schema := reverse user_schema |} rules_heap (VObject 4)).
  - symmetry. apply reverse_Permutation.
  - exact user_schema_NoDup.
  - reflexivity.
  - exact user_schema_no_proto.
Defined.

End FurtherExamples.
